(** * top.gg-voter: the cycle and account orchestration of [AutoClient]

    A shallow embedding of [src/top.js] (class [AutoClient]) and the
    properties of its orchestration engine: the error policy
    [_handleError], the per-account worker [_handleSingle], the voting
    routine [_voteForBot] with its guaranteed teardown, the bounded poller
    [_waitForVoteStatus], the two dispatch modes [_sequentialCycle] and
    [_parallelCycle], the repeating loop [autovoteBot], the constructor
    and the module-level shorthand [autovoteBot(opts)].

    Asynchronous code is embedded as a resumption: a finite tree of
    synchronous effects (console output, counter increments, calls of the
    configured [errorLog], calls issued to the browser backend) cut by
    [Await] nodes, one per [await] of the source.  Serial execution runs a
    tree to its end; concurrent execution interleaves several trees at
    their [Await] nodes.  What the outside world answers (the HTTP check,
    the browser backend, the rendered pages, the clock) is data of the
    environment records [Session] and [Account]. *)

From Stdlib Require Import String Ascii List Arith NArith ZArith Lia Bool.
From Stdlib Require Import DecimalString.
Import ListNotations.
Local Open Scope string_scope.
Local Open Scope list_scope.

Set Implicit Arguments.

(* ================================================================== *)
(** ** JavaScript values used by the source *)
(* ================================================================== *)

(** An [Error] object; only its [message] is ever read. *)
Record Error : Type := mkError { message : string }.

(** The completion of a call: a value, or a thrown error (for a promise:
    fulfilled or rejected). *)
Inductive Completion (A : Type) : Type :=
| Normal (a : A)
| Abrupt (e : Error).
Arguments Normal {A} a.
Arguments Abrupt {A} e.

(** [txt.includes(sub)] *)
Fixpoint includes (txt sub : string) : bool :=
  if String.prefix sub txt then true
  else match txt with
       | EmptyString => false
       | String _ rest => includes rest sub
       end.

(** [token.slice(0, 5) + "..."] *)
Definition shortToken (token : string) : string :=
  String.substring 0 5 token ++ "...".

(** Template-literal rendering of a non-negative integer. *)
Definition show (n : nat) : string :=
  NilZero.string_of_uint (Nat.to_uint n).

(** [/^\d{15,20}$/.test(s)] *)
Definition isDigit (a : ascii) : bool :=
  let n := nat_of_ascii a in ((48 <=? n) && (n <=? 57))%nat.

Definition isSnowflake (s : string) : bool :=
  forallb isDigit (list_ascii_of_string s)
  && (15 <=? String.length s)%nat && (String.length s <=? 20)%nat.

(** [xs[i % xs.length]]: [i % 0] is [NaN], and indexing by [NaN] gives
    [undefined]; [None] stands for [undefined]. *)
Definition js_rem (i m : nat) : option nat :=
  match m with
  | 0 => None
  | _ => Some (i mod m)
  end.

Definition js_index {A} (xs : list A) (i : option nat) : option A :=
  match i with
  | None => None
  | Some k => nth_error xs k
  end.

(** Truthiness of a value that is a string or [undefined]. *)
Definition truthy (v : option string) : bool :=
  match v with
  | None => false
  | Some s => negb (s =? "")
  end.

(* ================================================================== *)
(** ** The client, its counters and what it does to the outside *)
(* ================================================================== *)

(** The configured [errorLog]: it is given the error and either returns
    ([None]) or throws ([Some e']).  Its first argument is the list of the
    errors it was called with before, oldest first, so that a handler
    with state of its own is covered. *)
Definition ErrorLogFn : Type := list Error -> Error -> option Error.

Record Client : Type := mkClient {
  tokenList     : list string;
  botId         : string;
  cooldown      : Z;
  runInParallel : bool;
  proxies       : list string;
  verbose       : bool;
  errorLog      : option ErrorLogFn
}.

(** [this.stats] *)
Record Stats : Type := mkStats {
  total   : nat;
  success : nat;
  failed  : nat;
  invalid : nat
}.

Inductive Counter : Type := CSuccess | CFailed | CInvalid.

(** [this.stats.<counter>++] *)
Definition bump (ctr : Counter) (s : Stats) : Stats :=
  match ctr with
  | CSuccess => mkStats (total s) (S (success s)) (failed s) (invalid s)
  | CFailed  => mkStats (total s) (success s) (S (failed s)) (invalid s)
  | CInvalid => mkStats (total s) (success s) (failed s) (S (invalid s))
  end.

Definition recorded (s : Stats) : nat := success s + failed s + invalid s.

Record Button : Type := mkButton { textContent : string; disabled : bool }.

(** What a [page.evaluate] callback can see of the document. *)
Record Dom : Type := mkDom { innerText : string; buttons : list Button }.

(** Calls that leave the client, in the order they are issued. *)
Inductive Event : Type :=
| ConsoleLog (line : string)
| ConsoleError (label : string) (e : Error)
| Fetch (url authorization : string)
| Connect (headless turnstile : bool) (proxy : option string)
| EvaluateOnNewDocument (token : string)
| Goto (url : string) (timeout : option N)
| Evaluate
| ButtonClick (b : Button)
| WaitForNavigation
| SetViewport (width height : nat)
| WaitForSelector (selector : string) (timeout : N)
| Click (selector : string)
| BrowserClose
| Sleep (ms : Z).

(** The state an execution threads: the counters, the calls made so
    far, and the errors [errorLog] has been called with so far. *)
Record World : Type := mkWorld {
  stats   : Stats;
  trace   : list Event;
  handled : list Error
}.

Definition emit (ev : Event) (w : World) : World :=
  mkWorld (stats w) (trace w ++ [ev]) (handled w).

Definition count (ctr : Counter) (w : World) : World :=
  mkWorld (bump ctr (stats w)) (trace w) (handled w).

(** [this.errorLog(e)] has been called. *)
Definition hand (e : Error) (w : World) : World :=
  mkWorld (stats w) (trace w) (handled w ++ [e]).

(* ================================================================== *)
(** ** Asynchronous code as a resumption *)
(* ================================================================== *)

(** A computation that returns an [A]: it returns, or throws, or does
    one synchronous thing and goes on ([Emit]: a call goes out; [Bump]:
    a counter is incremented; [CallErrorLog]: the configured [errorLog]
    is called and returns or throws), or is suspended at an [await]. *)
Inductive Prog (A : Type) : Type :=
| Ret (a : A)
| Throw (e : Error)
| Emit (ev : Event) (k : Prog A)
| Bump (ctr : Counter) (k : Prog A)
| CallErrorLog (h : ErrorLogFn) (e : Error) (k : option Error -> Prog A)
| Await (k : Prog A).
Arguments Ret {A} a.
Arguments Throw {A} e.
Arguments Emit {A} ev k.
Arguments Bump {A} ctr k.
Arguments CallErrorLog {A} h e k.
Arguments Await {A} k.

Fixpoint bind {A B} (p : Prog A) (f : A -> Prog B) : Prog B :=
  match p with
  | Ret a => f a
  | Throw e => Throw e
  | Emit ev k => Emit ev (bind k f)
  | Bump ctr k => Bump ctr (bind k f)
  | CallErrorLog h e k => CallErrorLog h e (fun r => bind (k r) f)
  | Await k => Await (bind k f)
  end.

(** [try { p } catch (err) { handler err }] *)
Fixpoint try_catch {A} (p : Prog A) (handler : Error -> Prog A) : Prog A :=
  match p with
  | Ret a => Ret a
  | Throw e => handler e
  | Emit ev k => Emit ev (try_catch k handler)
  | Bump ctr k => Bump ctr (try_catch k handler)
  | CallErrorLog h e k => CallErrorLog h e (fun r => try_catch (k r) handler)
  | Await k => Await (try_catch k handler)
  end.

(** [try { p } finally { fin }]: the completion of [p] stands unless
    [fin] itself throws. *)
Fixpoint try_finally {A} (p : Prog A) (fin : Prog unit) : Prog A :=
  match p with
  | Ret a => bind fin (fun _ => Ret a)
  | Throw e => bind fin (fun _ => Throw e)
  | Emit ev k => Emit ev (try_finally k fin)
  | Bump ctr k => Bump ctr (try_finally k fin)
  | CallErrorLog h e k => CallErrorLog h e (fun r => try_finally (k r) fin)
  | Await k => Await (try_finally k fin)
  end.

Declare Scope prog_scope.
Delimit Scope prog_scope with prog.
Notation "x <- p ;; q" := (bind p (fun x => q))
  (at level 61, p at next level, right associativity) : prog_scope.
Notation "p ;; q" := (bind p (fun _ => q))
  (at level 61, right associativity) : prog_scope.
Local Open Scope prog_scope.

(** The completion of a computation, made a value. *)
Definition settle {A} (p : Prog A) : Prog (Completion A) :=
  try_catch (a <- p ;; Ret (Normal a)) (fun e => Ret (Abrupt e)).

(** [await call(...)]: the call is issued, the caller is suspended, and
    resumes with what the outside answered. *)
Definition await {A} (ev : Event) (answer : Completion A) : Prog A :=
  Emit ev (Await (match answer with
                  | Normal a => Ret a
                  | Abrupt e => Throw e
                  end)).

(** [await delay(ms)] *)
Definition delay (ms : Z) : Prog unit := await (Sleep ms) (Normal tt).

(** Running a computation to its end, as a caller that awaits it does
    when nothing else is scheduled in between. *)
Fixpoint run {A} (p : Prog A) (w : World) : World * Completion A :=
  match p with
  | Ret a => (w, Normal a)
  | Throw e => (w, Abrupt e)
  | Emit ev k => run k (emit ev w)
  | Bump ctr k => run k (count ctr w)
  | CallErrorLog h e k => run (k (h (handled w) e)) (hand e w)
  | Await k => run k w
  end.


(** Running up to the next suspension: the synchronous code up to and
    including the next [await], or up to the end. *)
Fixpoint resume {A} (p : Prog A) (w : World) : World * Prog A :=
  match p with
  | Ret _ | Throw _ => (w, p)
  | Emit ev k => resume k (emit ev w)
  | Bump ctr k => resume k (count ctr w)
  | CallErrorLog h e k => resume (k (h (handled w) e)) (hand e w)
  | Await k => (w, k)
  end.

Definition settled {A} (p : Prog A) : bool :=
  match p with
  | Ret _ | Throw _ => true
  | _ => false
  end.

(* ================================================================== *)
(** ** What the outside answers *)
(* ================================================================== *)

(** One round of the poller: the document [page.evaluate] finds (or the
    rejection of the call), the time the call took, and by how much the
    2.5 s [delay] after it ran late; a timer never fires early. *)
Record Probe : Type := mkProbe {
  seen      : Completion Dom;
  took      : N;
  overslept : N
}.

(** How [Promise.race([connect(opts), <30 s timer>])] settles. *)
Inductive Connection : Type :=
| Connected
| ConnectFailed (e : Error)
| ConnectTimedOut.

(** The answers of the browser backend to one run of [_voteForBot], one
    field per awaited call, in source order. *)
Record Session : Type := mkSession {
  connection       : Connection;
  onNewDocument    : Completion unit;
  homeLoaded       : Completion unit;
  homePage         : Completion Dom;
  leftForDiscord   : Completion unit;
  viewportSet      : Completion unit;
  authorizeShown   : Completion unit;
  authorizeClicked : Completion unit;
  cameBack         : Completion unit;
  landingPage      : Completion Dom;
  voteLoaded       : Completion unit;
  probes           : nat -> Probe;
  votePage         : Completion Dom;
  closed           : Completion unit
}.

(** One account in one cycle: the answer of [fetchFn] (the [ok] field of
    the response, or a rejection) and the browser session it would get. *)
Record Account : Type := mkAccount {
  checked : Completion bool;
  session : Session
}.

(* ================================================================== *)
(** ** The methods of [AutoClient] *)
(* ================================================================== *)

(** [_log(msg)] *)
Definition _log (c : Client) (msg : string) : Prog unit :=
  if verbose c then Emit (ConsoleLog ("[AutoClient] " ++ msg)) (Ret tt)
  else Ret tt.

(** [_handleError(err)] *)
Definition _handleError (c : Client) (err : Error) : Prog unit :=
  match errorLog c with
  | Some h =>
      CallErrorLog h err (fun thrown =>
        match thrown with
        | None => Ret tt
        | Some e => Emit (ConsoleError "Error in errorLog function:" e) (Throw e)
        end)
  | None => Throw err
  end.

(** [this.stats.<counter>++] as a statement. *)
Definition incr (ctr : Counter) : Prog unit := Bump ctr (Ret tt).

(** [await page.evaluate(callback)] *)
Definition evaluate {A} (page : Completion Dom) (callback : Dom -> Prog A)
  : Prog A :=
  Emit Evaluate (Await (match page with
                        | Normal d => callback d
                        | Abrupt e => Throw e
                        end)).

(** [const b = [...document.querySelectorAll("button")].find(wanted);
     if (b) b.click();] *)
Definition clickFirst (wanted : Button -> bool) (d : Dom) : Prog unit :=
  match find wanted (buttons d) with
  | Some b => Emit (ButtonClick b) (Ret tt)
  | None => Ret tt
  end.

(** The callback of the probe. *)
Definition classify (d : Dom) : string :=
  if includes (innerText d) "You can vote now!" then "vote"
  else if includes (innerText d) "You have already voted" then "already"
  else "wait".

(** The time one round of the poller takes: the probe, then the 2.5 s
    [delay] and what it ran late. *)
Definition roundTime (answer : Probe) : Z :=
  Z.of_N (took answer) + 2500 + Z.of_N (overslept answer).

(** The [while] loop of [_waitForVoteStatus]; [elapsed] is
    [Date.now() - start] at the test of the loop, [attempts] the counter
    of the source.  [fuel] bounds the number of rounds: every round takes
    at least 2.5 s, so [pollFuel] rounds are never used up (see
    [pollFuel_enough]). *)
Fixpoint pollLoop (c : Client) (answers : nat -> Probe) (timeoutMs : Z)
    (fuel attempts : nat) (elapsed : Z) : Prog string :=
  let timedOut :=
    _log c ("Vote status check timed out after " ++ show attempts
            ++ " attempts") ;;
    Ret "timeout" in
  match fuel with
  | 0 => timedOut
  | S fuel' =>
      if (elapsed <? timeoutMs)%Z then
        let attempts := S attempts in
        let answer := answers attempts in
        _log c ("Checking vote status (attempt " ++ show attempts ++ ")...") ;;
        returned <-
          try_catch
            (st <- evaluate (seen answer) (fun d => Ret (classify d)) ;;
             _log c ("Vote status check result: " ++ st) ;;
             if negb (st =? "wait") then Ret (Some st) else Ret None)
            (fun err =>
               _log c ("Error checking vote status: " ++ message err) ;;
               Ret None) ;;
        match returned with
        | Some st => Ret st
        | None =>
            delay 2500 ;;
            pollLoop c answers timeoutMs fuel' attempts
              (elapsed + roundTime answer)
        end
      else timedOut
  end.

Definition pollFuel (timeoutMs : Z) : nat := S (Z.to_nat (timeoutMs / 2500)).

(** [_waitForVoteStatus(page, timeoutMs)] *)
Definition _waitForVoteStatus (c : Client) (answers : nat -> Probe)
    (timeoutMs : Z) : Prog string :=
  pollLoop c answers timeoutMs (pollFuel timeoutMs) 0 0.

(** The outcome of the race between [connect(opts)] and the 30 s timer. *)
Definition raced (s : Session) : Completion unit :=
  match connection s with
  | Connected => Normal tt
  | ConnectFailed e => Abrupt e
  | ConnectTimedOut => Abrupt (mkError "Browser connection timeout")
  end.

(** The [finally] block of [_voteForBot] when [browser] is set. *)
Definition closeBrowser (c : Client) (s : Session) (shortT : string)
  : Prog unit :=
  _log c ("Closing browser for " ++ shortT ++ "...") ;;
  try_catch
    (await BrowserClose (closed s) ;;
     _log c ("Browser closed successfully for " ++ shortT))
    (fun closeErr =>
       _log c ("Error closing browser for " ++ shortT ++ ": "
               ++ message closeErr)).

(** The [if (status === "vote") ... else ...] at the end of the [try]
    block of [_voteForBot]. *)
Definition act (c : Client) (s : Session) (shortT status : string)
  : Prog bool :=
  if status =? "vote" then
    _log c ("Attempting to click vote button for " ++ shortT ++ "...") ;;
    delay 3000 ;;
    evaluate (votePage s)
      (clickFirst (fun btn =>
         includes (textContent btn) "Vote" && negb (disabled btn))) ;;
    _log c ("Vote button clicked for " ++ shortT) ;;
    delay 5000 ;;
    Ret true
  else if status =? "already" then
    _log c ("Already voted for " ++ shortT) ;;
    Ret false
  else
    _log c ("Vote did not become available in time for " ++ shortT) ;;
    Ret false.

(** The [try] block of [_voteForBot] from the assignment of [browser]
    and [page] on. *)
Definition voteSession (c : Client) (s : Session) (token : string)
  : Prog bool :=
  let timeoutMs := 60000%Z in
  let shortT := shortToken token in
  _log c ("Browser connected successfully for " ++ shortT) ;;
  _log c ("Setting up token in localStorage for " ++ shortT ++ "...") ;;
  await (EvaluateOnNewDocument token) (onNewDocument s) ;;
  _log c ("Navigating to top.gg for " ++ shortT ++ "...") ;;
  await (Goto "https://top.gg" (Some 30000%N)) (homeLoaded s) ;;
  delay 3000 ;;
  _log c ("Clicking login button for " ++ shortT ++ "...") ;;
  evaluate (homePage s)
    (clickFirst (fun btn => includes (textContent btn) "Login")) ;;
  _log c ("Waiting for navigation after login for " ++ shortT ++ "...") ;;
  await WaitForNavigation (leftForDiscord s) ;;
  await (SetViewport 1920 1080) (viewportSet s) ;;
  _log c ("Waiting for Discord authorization button for " ++ shortT
          ++ "...") ;;
  await (WaitForSelector "div.action__3d3b0 button" 10000%N)
    (authorizeShown s) ;;
  _log c ("Clicking Discord authorization button for " ++ shortT ++ "...") ;;
  await (Click "div.action__3d3b0 button") (authorizeClicked s) ;;
  await WaitForNavigation (cameBack s) ;;
  delay 3000 ;;
  _log c ("Checking login status for " ++ shortT ++ "...") ;;
  isLoggedIn <- evaluate (landingPage s)
                  (fun d => Ret (negb (includes (innerText d) "Login"))) ;;
  if negb isLoggedIn then
    Throw (mkError "Authorization failed - Discord OAuth did not complete")
  else
    _log c ("Authorization successful for " ++ shortT) ;;
    _log c ("Navigating to vote page for " ++ shortT ++ "...") ;;
    await (Goto ("https://top.gg/bot/" ++ botId c ++ "/vote") None)
      (voteLoaded s) ;;
    _log c ("Checking vote status for " ++ shortT ++ "...") ;;
    status <- _waitForVoteStatus c (probes s) timeoutMs ;;
    _log c ("Vote status for " ++ shortT ++ ": " ++ status) ;;
    act c s shortT status.

(** [_voteForBot(token, proxy)].  The local [browser] is assigned right
    after the race is won, and nothing before that assignment can throw
    but the race: the [finally] block finds [browser] set exactly when
    the race was won, which is the case distinction below. *)
Definition _voteForBot (c : Client) (s : Session) (token : string)
    (proxy : option string) : Prog bool :=
  let shortT := shortToken token in
  _log c ("Connecting to browser for " ++ shortT ++ "...") ;;
  (if truthy proxy
   then _log c ("Using proxy: " ++ match proxy with
                                   | Some p => p
                                   | None => ""
                                   end)
   else Ret tt) ;;
  _log c "Attempting to connect to puppeteer..." ;;
  won <- settle (await (Connect false true
                          (if truthy proxy then proxy else None))
                   (raced s)) ;;
  match won with
  | Abrupt err =>
      _log c ("Error in _voteForBot for " ++ shortT ++ ": " ++ message err) ;;
      Throw err
  | Normal _ =>
      try_finally
        (try_catch (voteSession c s token)
           (fun err =>
              _log c ("Error in _voteForBot for " ++ shortT ++ ": "
                      ++ message err) ;;
              Throw err))
        (closeBrowser c s shortT)
  end.

(** [_handleSingle(token, proxy)] *)
Definition _handleSingle (c : Client) (a : Account) (token : string)
    (proxy : option string) : Prog unit :=
  let shortT := shortToken token in
  _log c ("Starting process for token " ++ shortT) ;;
  _log c ("Validating token " ++ shortT ++ "...") ;;
  valid <-
    try_catch
      (ok <- await (Fetch "https://discord.com/api/v10/users/@me" token)
               (checked a) ;;
       _log c ("Token " ++ shortT ++ " validation: "
               ++ (if ok then "valid" else "invalid")) ;;
       Ret ok)
      (fun err =>
         _log c ("Token " ++ shortT ++ " validation error: "
                 ++ message err) ;;
         Ret false) ;;
  if negb valid then
    incr CInvalid ;;
    _handleError c (mkError ("Invalid token " ++ shortT))
  else
    _log c ("Attempting vote for token " ++ shortT ++ "...") ;;
    try_catch
      (result <- _voteForBot c (session a) token proxy ;;
       if result then
         incr CSuccess ;;
         _log c ("Voted successfully for " ++ shortT)
       else
         incr CFailed ;;
         _log c ("Skipped (already voted or unavailable) for " ++ shortT))
      (fun err =>
         incr CFailed ;;
         _log c ("Vote attempt failed for " ++ shortT ++ ": "
                 ++ message err) ;;
         _handleError c
           (mkError ("Token " ++ shortT ++ " error: " ++ message err))).

(** [this.proxies[i % this.proxies.length]] *)
Definition proxyFor (c : Client) (i : nat) : option string :=
  js_index (proxies c) (js_rem i (length (proxies c))).

(** The [catch] block inside the loop of [_sequentialCycle]. *)
Definition onSerialError (c : Client) (i : nat) (err : Error) : Prog unit :=
  _log c ("Error processing token " ++ show (i + 1) ++ ": " ++ message err) ;;
  _handleError c err.

(** The body of the loop of [_sequentialCycle], at index [i]. *)
Definition serialTurn (c : Client) (accounts : nat -> Account) (i : nat)
    (token : string) : Prog unit :=
  _log c ("Processing token " ++ show (i + 1) ++ "/"
          ++ show (length (tokenList c)) ++ "...") ;;
  try_catch (_handleSingle c (accounts i) token (proxyFor c i))
    (onSerialError c i).

(** The [for] loop of [_sequentialCycle] from index [i] on, [rest] being
    [tokenList.slice(i)]. *)
Fixpoint sequentialFrom (c : Client) (accounts : nat -> Account) (i : nat)
    (rest : list string) : Prog unit :=
  match rest with
  | [] => Ret tt
  | token :: rest' =>
      serialTurn c accounts i token ;;
      sequentialFrom c accounts (S i) rest'
  end.

(** [_sequentialCycle()] *)
Definition _sequentialCycle (c : Client) (accounts : nat -> Account)
  : Prog unit :=
  sequentialFrom c accounts 0 (tokenList c).

(** The callback of [catch] in [_parallelCycle]; it runs in a later
    turn than the rejection it handles. *)
Definition onParallelError (c : Client) (i : nat) (err : Error) : Prog unit :=
  Await
    (_log c ("Error in parallel processing for token " ++ show (i + 1)
             ++ ": " ++ message err) ;;
     _handleError c err).

(** The promise built for index [i] by the callback of [tokenList.map]:
    [_handleSingle(...).catch(err => ...)]. *)
Definition promise (c : Client) (accounts : nat -> Account) (i : nat)
    (tok : string) : Prog unit :=
  try_catch (_handleSingle c (accounts i) tok (proxyFor c i))
    (onParallelError c i).

Fixpoint mapFrom {A B} (f : nat -> A -> B) (i : nat) (xs : list A) : list B :=
  match xs with
  | [] => []
  | x :: xs' => f i x :: mapFrom f (S i) xs'
  end.

Definition promises (c : Client) (accounts : nat -> Account)
  : list (Prog unit) :=
  mapFrom (promise c accounts) 0 (tokenList c).

(* ================================================================== *)
(** ** Concurrent dispatch *)
(* ================================================================== *)

(** The promises of one cycle, each with what is left of it to run. *)
Abbreviation Pool := (list (Prog unit)).

Fixpoint replace {A} (i : nat) (x : A) (xs : list A) : list A :=
  match xs, i with
  | [], _ => []
  | _ :: xs', 0 => x :: xs'
  | y :: xs', S i' => y :: replace i' x xs'
  end.

(** [tokenList.map(...)]: the callback runs for each index in turn, and
    each call of the async [_handleSingle] runs up to its first [await]. *)
Fixpoint launch (ps : list (Prog unit)) (w : World) : World * Pool :=
  match ps with
  | [] => (w, [])
  | p :: ps' =>
      let '(w1, p1) := resume p w in
      let '(w2, pool) := launch ps' w1 in
      (w2, p1 :: pool)
  end.

(** The promise at index [i] is resumed and runs to its next [await]. *)
Definition wake (i : nat) (st : World * Pool) : World * Pool :=
  match nth_error (snd st) i with
  | Some p =>
      let '(w', p') := resume p (fst st) in
      (w', replace i p' (snd st))
  | None => st
  end.

(** The promises are resumed in the order of a schedule, which is the
    order in which the outside answers them. *)
Definition interleave (schedule : list nat) (st : World * Pool)
  : World * Pool :=
  fold_left (fun st i => wake i st) schedule st.

(** Past the schedule, what is still pending finishes, lowest index
    first; every order of resumptions is a schedule followed by this. *)
Fixpoint drain (pool : Pool) (w : World) : World * list (Completion unit) :=
  match pool with
  | [] => (w, [])
  | p :: pool' =>
      let '(w1, r) := run p w in
      let '(w2, rs) := drain pool' w1 in
      (w2, r :: rs)
  end.

(** [Promise.allSettled(promises)] is fulfilled with the outcomes once
    every promise has settled; it is never rejected. *)
Definition allSettled {A} (outcomes : list (Completion A))
  : Completion (list (Completion A)) :=
  Normal outcomes.

(** [_parallelCycle()] *)
Definition _parallelCycle (c : Client) (accounts : nat -> Account)
    (schedule : list nat) (w : World) : World * Completion unit :=
  let '(w1, pool) := launch (promises c accounts) w in
  let '(w2, pool') := interleave schedule (w1, pool) in
  let '(w3, outcomes) := drain pool' w2 in
  match allSettled outcomes with
  | Normal _ => (w3, Normal tt)
  | Abrupt e => (w3, Abrupt e)
  end.

(* ================================================================== *)
(** ** The constructor and the loop *)
(* ================================================================== *)

Record AutoClientOptions : Type := mkOptions {
  opt_tokenList     : list string;
  opt_botId         : string;
  opt_cooldown      : option Z;
  opt_runInParallel : option bool;
  opt_proxies       : option (list string);
  opt_verbose       : option bool;
  opt_errorLog      : option ErrorLogFn
}.

Definition orDefault {A} (v : option A) (d : A) : A :=
  match v with
  | Some x => x
  | None => d
  end.

(** [new AutoClient(opts)]: the client and its fresh [stats]. *)
Definition AutoClient (opts : AutoClientOptions)
  : Completion (Client * Stats) :=
  let cooldown := orDefault (opt_cooldown opts) (12 * 60 * 60 * 1000)%Z in
  if (length (opt_tokenList opts) =? 0)%nat then
    Abrupt (mkError "tokenList must be a non-empty array")
  else if negb (isSnowflake (opt_botId opts)) then
    Abrupt (mkError "botId must be a valid Discord snowflake")
  else if (cooldown <=? 0)%Z then
    Abrupt (mkError "cooldown must be a positive number (ms)")
  else
    Normal (mkClient (opt_tokenList opts) (opt_botId opts) cooldown
              (orDefault (opt_runInParallel opts) false)
              (orDefault (opt_proxies opts) [])
              (orDefault (opt_verbose opts) false)
              (opt_errorLog opts),
            mkStats (length (opt_tokenList opts)) 0 0 0).

(** [_resetStats()] *)
Definition _resetStats (w : World) : World :=
  mkWorld (mkStats (total (stats w)) 0 0 0) (trace w) (handled w).

(** What one cycle gets from the outside: the answers for each account
    and, in concurrent mode, the order in which they arrive. *)
Record Cycle : Type := mkCycle {
  accounts : nat -> Account;
  schedule : list nat
}.

(** The [if (this.runInParallel) ... else ...] of [autovoteBot]. *)
Definition dispatch (c : Client) (cy : Cycle) (w : World)
  : World * Completion unit :=
  if runInParallel c
  then _parallelCycle c (accounts cy) (schedule cy) w
  else run (_sequentialCycle c (accounts cy)) w.

(** How far the endless loop of [autovoteBot] has got: still going round
    after the cycles looked at, or left by an error thrown to the
    caller. *)
Inductive Loop : Type :=
| Looping
| Stopped (e : Error).

Section Loop.

(** The rendering of the quotient [a / b] of two numbers in a template
    literal (a floating-point division followed by [Number]'s
    [toString]). *)
Variable quotient : Z -> Z -> string.

(** The body of the [while (true)] of [autovoteBot]. *)
Definition iteration (c : Client) (cy : Cycle) (w : World)
  : World * Completion unit :=
  let '(w1, _) :=
    run (_log c ("Starting cycle for " ++ show (total (stats w))
                 ++ " token(s)...")) w in
  let '(w2, r) := dispatch c cy w1 in
  let '(w3, r') :=
    match r with
    | Normal _ => (w2, Normal tt)
    | Abrupt err =>
        run (_log c ("Fatal cycle error: " ++ message err) ;;
             _handleError c err) w2
    end in
  match r' with
  | Abrupt e => (w3, Abrupt e)
  | Normal _ =>
      let '(w4, _) :=
        run (_log c ("Cycle complete. Success: "
                     ++ show (success (stats w3))
                     ++ ", Failed: " ++ show (failed (stats w3))
                     ++ ", Invalid: " ++ show (invalid (stats w3)))) w3 in
      let w5 := _resetStats w4 in
      run (_log c ("Waiting " ++ quotient (cooldown c) 3600000
                   ++ "h before next cycle...") ;;
           delay (cooldown c)) w5
  end.

(** [autovoteBot()], followed for as many cycles as the outside is
    described for. *)
Fixpoint autovoteBot (c : Client) (cycles : list Cycle) (w : World)
  : World * Loop :=
  match cycles with
  | [] => (w, Looping)
  | cy :: cycles' =>
      match iteration c cy w with
      | (w', Normal _) => autovoteBot c cycles' w'
      | (w', Abrupt e) => (w', Stopped e)
      end
  end.


End Loop.

Module Shorthand.

(** The module-level [autovoteBot(opts)]: a client is constructed and
    its loop awaited.  The result is the world the loop has got to
    ([None] when no client was constructed) and how the loop stands. *)
Definition autovoteBot (quotient : Z -> Z -> string)
    (opts : AutoClientOptions) (cycles : list Cycle) : option World * Loop :=
  match AutoClient opts with
  | Abrupt e => (None, Stopped e)
  | Normal (client, st) =>
      let '(w, l) := autovoteBot quotient client cycles (mkWorld st [] []) in
      (Some w, l)
  end.

End Shorthand.

(* ================================================================== *)
(** ** The vocabulary of the properties *)
(* ================================================================== *)

(** *** Running composed computations *)

(** The calls a list of events adds to a world. *)
Definition tell (evs : list Event) (w : World) : World :=
  mkWorld (stats w) (trace w ++ evs) (handled w).

(** What [_log] prints: one line when [verbose] is on, nothing otherwise. *)
Definition said (c : Client) (msg : string) : list Event :=
  if verbose c then [ConsoleLog ("[AutoClient] " ++ msg)] else [].

(** *** Counting along the paths of a computation *)

(** [Paths bw cw R T p]: along every path of [p], with a counter
    increment weighing [bw] and a call of [errorLog] weighing [cw], a
    path that ends in a return of [a] has a weight [n] with [R a n], a
    path that ends in a throw of [e] a weight [n] with [T e n]. *)
Fixpoint Paths {A} (bw cw : nat) (R : A -> nat -> Prop)
    (T : Error -> nat -> Prop) (p : Prog A) : Prop :=
  match p with
  | Ret a => R a 0
  | Throw e => T e 0
  | Emit _ k => Paths bw cw R T k
  | Await k => Paths bw cw R T k
  | Bump _ k =>
      Paths bw cw (fun a n => R a (bw + n)) (fun e n => T e (bw + n)) k
  | CallErrorLog _ _ k =>
      forall r,
        Paths bw cw (fun a n => R a (cw + n)) (fun e n => T e (cw + n)) (k r)
  end.

(** Every path weighs [n]. *)
Definition Weighs {A} (bw cw n : nat) (p : Prog A) : Prop :=
  Paths bw cw (fun _ m => m = n) (fun _ m => m = n) p.

(** [p] neither increments a counter nor calls [errorLog] (for the
    weights that are not zero). *)
Definition Free {A} (bw cw : nat) (p : Prog A) : Prop := Weighs bw cw 0 p.

(** *** From weights to counters *)

(** Several increments in a row. *)
Definition bumps (ctrs : list Counter) (s : Stats) : Stats :=
  fold_left (fun s ctr => bump ctr s) ctrs s.

(** [n] increments against [r] owed: all of them, or no more. *)
Definition within (exact : bool) (r n : nat) : Prop :=
  if exact then n = r else n <= r.

(** What a promise still owes the counters: [r] increments on every
    path that returns, and on every path that throws exactly [r]
    ([exact]) or at most [r]. *)
Definition Owes (exact : bool) (r : nat) (p : Prog unit) : Prop :=
  Paths 1 0 (fun _ n => n = r) (fun _ n => within exact r n) p.

(** *** The counters of a pool of promises *)



(** The counters and what the promises still owe add up to [n]. *)
Definition Balanced (exact : bool) (n : nat) (st : World * Pool) : Prop :=
  exists rs, Forall2 (Owes exact) rs (snd st)
             /\ recorded (stats (fst st)) + list_sum rs = n.

(** *** Computations whose run does not depend on the world *)

(** The completion and the calls of a computation, read off its tree
    along the path on which [errorLog] never throws; for a computation
    that does not call [errorLog] this is its only path. *)
Fixpoint outcome {A} (p : Prog A) : Completion A :=
  match p with
  | Ret a => Normal a
  | Throw e => Abrupt e
  | Emit _ k => outcome k
  | Bump _ k => outcome k
  | CallErrorLog _ _ k => outcome (k None)
  | Await k => outcome k
  end.

Fixpoint emitted {A} (p : Prog A) : list Event :=
  match p with
  | Ret _ => []
  | Throw _ => []
  | Emit ev k => ev :: emitted k
  | Bump _ k => emitted k
  | CallErrorLog _ _ k => emitted (k None)
  | Await k => emitted k
  end.

(** *** The poller *)

(** A probe that leaves the poller waiting: the call failed, or the page
    shows neither marker. *)
Definition stillWaiting (answer : Probe) : bool :=
  match seen answer with
  | Normal d =>
      negb (includes (innerText d) "You can vote now!")
      && negb (includes (innerText d) "You have already voted")
  | Abrupt _ => true
  end.

(** The time [count] rounds take, from round [first] on. *)
Fixpoint span (answers : nat -> Probe) (first count : nat) : Z :=
  match count with
  | 0 => 0
  | S count' => roundTime (answers first) + span answers (S first) count'
  end.

(** [Date.now() - start] when the loop is tested after [n] rounds. *)
Definition elapsedAfter (answers : nat -> Probe) (n : nat) : Z :=
  span answers 1 n.

(** A probe whose call failed, replaced by one that shows an empty
    page after the same time. *)
Definition calm (answer : Probe) : Probe :=
  match seen answer with
  | Normal _ => answer
  | Abrupt _ => mkProbe (Normal (mkDom "" [])) (took answer) (overslept answer)
  end.

(** *** The worker *)

(** The calls of the validation of a token. *)
Definition validation (c : Client) (a : Account) (token : string)
  : list Event :=
  (said c ("Starting process for token " ++ shortToken token)
   ++ said c ("Validating token " ++ shortToken token ++ "...")
   ++ [Fetch "https://discord.com/api/v10/users/@me" token]
   ++ said c (match checked a with
              | Normal ok =>
                  "Token " ++ shortToken token ++ " validation: "
                  ++ (if ok then "valid" else "invalid")
              | Abrupt err =>
                  "Token " ++ shortToken token ++ " validation error: "
                  ++ message err
              end))%list.

(** The error [_handleSingle] hands to the policy for a token that did
    not validate. *)
Definition invalidToken (token : string) : Error :=
  mkError ("Invalid token " ++ shortToken token).

(** The error [_handleSingle] hands to the policy when the voting
    routine threw [err]. *)
Definition tokenError (token : string) (err : Error) : Error :=
  mkError ("Token " ++ shortToken token ++ " error: " ++ message err).

(** The calls that go to the browser backend. *)
Definition isBrowserCall (ev : Event) : bool :=
  match ev with
  | Connect _ _ _ | EvaluateOnNewDocument _ | Goto _ _ | Evaluate
  | ButtonClick _ | WaitForNavigation | SetViewport _ _
  | WaitForSelector _ _ | Click _ | BrowserClose => true
  | ConsoleLog _ | ConsoleError _ _ | Fetch _ _ | Sleep _ => false
  end.

Definition browserless (evs : list Event) : bool :=
  forallb (fun ev => negb (isBrowserCall ev)) evs.

(** The second half of C3 as the specification states it: when the error
    of an account whose session raised propagates out of its worker, no
    counter has moved. *)
Definition unrecordedOnPropagation (c : Client) (a : Account)
    (token : string) (proxy : option string) (w : World) : Prop :=
  checked a = Normal true ->
  forall err e,
    outcome (_voteForBot c (session a) token proxy) = Abrupt err ->
    snd (run (_handleSingle c a token proxy) w) = Abrupt e ->
    stats (fst (run (_handleSingle c a token proxy) w)) = stats w.

(** *** The voting routine and its teardown *)

(** The calls of [_voteForBot] up to and including [connect(opts)]. *)
Definition connecting (c : Client) (token : string) (proxy : option string)
  : list Event :=
  (said c ("Connecting to browser for " ++ shortToken token ++ "...")
   ++ (if truthy proxy
       then said c ("Using proxy: " ++ match proxy with
                                       | Some p => p
                                       | None => ""
                                       end)
       else [])
   ++ said c "Attempting to connect to puppeteer..."
   ++ [Connect false true (if truthy proxy then proxy else None)])%list.

(** What the [catch] block of [_voteForBot] prints. *)
Definition rethrown (c : Client) (token : string) (r : Completion bool)
  : list Event :=
  match r with
  | Normal _ => []
  | Abrupt err =>
      said c ("Error in _voteForBot for " ++ shortToken token ++ ": "
              ++ message err)
  end.

(** The calls of the [finally] block of [_voteForBot] when [browser] is
    set: [browser.close()], and around it what is handed to [_log]. *)
Definition teardown (c : Client) (s : Session) (token : string)
  : list Event :=
  (said c ("Closing browser for " ++ shortToken token ++ "...")
   ++ [BrowserClose]
   ++ said c (match closed s with
              | Normal _ =>
                  "Browser closed successfully for " ++ shortToken token
              | Abrupt closeErr =>
                  "Error closing browser for " ++ shortToken token ++ ": "
                  ++ message closeErr
              end))%list.

(** What goes to the console. *)
Definition isConsole (ev : Event) : bool :=
  match ev with
  | ConsoleLog _ | ConsoleError _ _ => true
  | _ => false
  end.

(** The remark of C7 on logging as the specification states it: when
    [close] fails, something about it shows on the console. *)
Definition closeFailureIsLogged (c : Client) (s : Session) (token : string)
    (proxy : option string) : Prop :=
  connection s = Connected ->
  forall closeErr, closed s = Abrupt closeErr ->
    exists ev, isConsole ev = true
               /\ In ev (emitted (_voteForBot c s token proxy)).

(** The same session with another answer to [browser.close()]. *)
Definition withClosed (s : Session) (r : Completion unit) : Session :=
  mkSession (connection s) (onNewDocument s) (homeLoaded s) (homePage s)
    (leftForDiscord s) (viewportSet s) (authorizeShown s)
    (authorizeClicked s) (cameBack s) (landingPage s) (voteLoaded s)
    (probes s) (votePage s) r.

(** *** From the poll result to the recorded outcome *)

Definition fulfilled {A} (r : Completion A) : bool :=
  match r with
  | Normal _ => true
  | Abrupt _ => false
  end.

(** The session gets as far as the poller: every call before it is
    answered, and the page after login no longer shows "Login". *)
Definition authenticates (s : Session) : bool :=
  fulfilled (onNewDocument s) && fulfilled (homeLoaded s)
  && fulfilled (homePage s) && fulfilled (leftForDiscord s)
  && fulfilled (viewportSet s) && fulfilled (authorizeShown s)
  && fulfilled (authorizeClicked s) && fulfilled (cameBack s)
  && match landingPage s with
     | Normal d => negb (includes (innerText d) "Login")
     | Abrupt _ => false
     end
  && fulfilled (voteLoaded s).

(** The first part of C8 as the specification states it: a worker that
    consumes the poll result "vote" records a success. *)
Definition canActMeansSuccess (c : Client) (a : Account) (token : string)
    (proxy : option string) (w : World) : Prop :=
  checked a = Normal true ->
  connection (session a) = Connected ->
  authenticates (session a) = true ->
  outcome (_waitForVoteStatus c (probes (session a)) 60000) = Normal "vote" ->
  stats (fst (run (_handleSingle c a token proxy) w))
  = bump CSuccess (stats w).

(** C10 as the specification states it: on the poll result "vote" the
    voting routine returns a successful result, whatever else happens. *)
Definition successIsUnconditional (c : Client) (s : Session) (token : string)
    (proxy : option string) : Prop :=
  connection s = Connected ->
  authenticates s = true ->
  outcome (_waitForVoteStatus c (probes s) 60000) = Normal "vote" ->
  outcome (_voteForBot c s token proxy) = Normal true.

(** The vote button the callback of the action looks for. *)
Definition isVoteButton (btn : Button) : bool :=
  includes (textContent btn) "Vote" && negb (disabled btn).

(** The click of the action, if there is a button to click. *)
Definition clicked (d : Dom) : list Event :=
  match find isVoteButton (buttons d) with
  | Some b => [ButtonClick b]
  | None => []
  end.

(** The calls of the action sequence on a vote page [d]. *)
Definition action (c : Client) (token : string) (d : Dom) : list Event :=
  (said c ("Attempting to click vote button for " ++ shortToken token
           ++ "...")
   ++ [Sleep 3000; Evaluate]
   ++ clicked d
   ++ said c ("Vote button clicked for " ++ shortToken token)
   ++ [Sleep 5000])%list.

(** The calls [part] are made, in a row, among the calls [evs]. *)
Definition appears (part evs : list Event) : Prop :=
  exists before after, evs = (before ++ part ++ after)%list.

(** *** Dispatch *)


(** *** Every execution is a sequence of synchronous steps *)


(** *** Errors and the loop *)

(** The error of the first account, from index [i] on, whose worker
    throws when no [errorLog] is configured. *)
Fixpoint firstFailure (c : Client) (accounts : nat -> Account) (i : nat)
    (rest : list string) : option Error :=
  match rest with
  | [] => None
  | tok :: rest' =>
      match outcome (_handleSingle c (accounts i) tok (proxyFor c i)) with
      | Abrupt e => Some e
      | Normal _ => firstFailure c accounts (S i) rest'
      end
  end.

(** Some account of some cycle raises an error while it is processed. *)
Definition someAccountFails (c : Client) (cycles : list Cycle) : Prop :=
  exists cy i tok e,
    In cy cycles /\ nth_error (tokenList c) i = Some tok
    /\ outcome (_handleSingle c (accounts cy i) tok (proxyFor c i)) = Abrupt e.

(** *** The options of the constructor *)


(** *** The calls of a computation, on every path *)

(** Every call [p] can make, whatever [errorLog] answers, satisfies
    [P]. *)
Fixpoint Emits {A} (P : Event -> Prop) (p : Prog A) : Prop :=
  match p with
  | Ret _ | Throw _ => True
  | Emit ev k => P ev /\ Emits P k
  | Bump _ k => Emits P k
  | CallErrorLog _ _ k => forall r, Emits P (k r)
  | Await k => Emits P k
  end.

(** The world [w'] is [w] after more calls, all of which satisfy [P]. *)
Definition Grows (P : Event -> Prop) (w w' : World) : Prop :=
  exists evs, trace w' = (trace w ++ evs)%list /\ Forall P evs.

(** The calls a worker makes for [token] with [proxy]. *)
Definition workerCall (c : Client) (token : string) (proxy : option string)
    (ev : Event) : Prop :=
  match ev with
  | ConsoleLog line =>
      verbose c = true /\ exists msg, line = ("[AutoClient] " ++ msg)%string
  | ConsoleError label _ =>
      errorLog c <> None /\ label = "Error in errorLog function:"
  | Fetch url authorization =>
      url = "https://discord.com/api/v10/users/@me" /\ authorization = token
  | Connect headless turnstile p =>
      headless = false /\ turnstile = true
      /\ p = (if truthy proxy then proxy else None)
  | EvaluateOnNewDocument t => t = token
  | Goto url timeout =>
      (url = "https://top.gg" /\ timeout = Some 30000%N)
      \/ (url = ("https://top.gg/bot/" ++ botId c ++ "/vote")%string
          /\ timeout = None)
  | Evaluate | WaitForNavigation | BrowserClose => True
  | ButtonClick b =>
      includes (textContent b) "Login" = true
      \/ (includes (textContent b) "Vote" = true /\ disabled b = false)
  | SetViewport width height => width = 1920 /\ height = 1080
  | WaitForSelector selector timeout =>
      selector = "div.action__3d3b0 button" /\ timeout = 10000%N
  | Click selector => selector = "div.action__3d3b0 button"
  | Sleep ms => (ms = 2500 \/ ms = 3000 \/ ms = 5000)%Z
  end.

(** The calls of a cycle: those of the worker of some token of the
    list, with the proxy of its index. *)
Definition cycleCall (c : Client) (ev : Event) : Prop :=
  exists i token,
    nth_error (tokenList c) i = Some token
    /\ workerCall c token (proxyFor c i) ev.

(** The calls of the loop: those of its cycles, its own lines, and the
    pause between two cycles. *)
Definition loopCall (c : Client) (ev : Event) : Prop :=
  cycleCall c ev
  \/ (verbose c = true /\ exists msg, ev = ConsoleLog ("[AutoClient] " ++ msg))
  \/ (errorLog c <> None
      /\ exists e, ev = ConsoleError "Error in errorLog function:" e)
  \/ ev = Sleep (cooldown c).

(** *** Sessions that do not get to the vote *)

(** The vote page of the bot. *)
Definition voteUrl (c : Client) : string :=
  "https://top.gg/bot/" ++ botId c ++ "/vote".

(** The session gets as far as the check of the login: every call
    before it is answered. *)
Definition reachesLoginCheck (s : Session) : bool :=
  fulfilled (onNewDocument s) && fulfilled (homeLoaded s)
  && fulfilled (homePage s) && fulfilled (leftForDiscord s)
  && fulfilled (viewportSet s) && fulfilled (authorizeShown s)
  && fulfilled (authorizeClicked s) && fulfilled (cameBack s).

(** *** The probes of the poller *)

(** The [page.evaluate] calls among the calls [evs]. *)
Definition isEvaluate (ev : Event) : bool :=
  match ev with
  | Evaluate => true
  | _ => false
  end.

Definition probesMade (evs : list Event) : nat :=
  length (filter isEvaluate evs).

(** What the poller prints after a probe. *)
Definition probeLine (answer : Probe) : string :=
  match seen answer with
  | Normal d => "Vote status check result: " ++ classify d
  | Abrupt err => "Error checking vote status: " ++ message err
  end.

(** The 2.5 s pauses of the poller among the calls [evs]. *)
Definition isPause (ev : Event) : bool :=
  match ev with
  | Sleep ms => (ms =? 2500)%Z
  | _ => false
  end.

Definition pausesMade (evs : list Event) : nat :=
  length (filter isPause evs).

(** *** The rounds of the loop *)

(** An [errorLog] is configured and it never throws. *)
Definition tolerant (c : Client) : Prop :=
  exists h, errorLog c = Some h /\ forall hist e, h hist e = None.

(** The line that reports the counters of a cycle. *)
Definition cycleReport (c : Client) (s : Stats) : list Event :=
  said c ("Cycle complete. Success: " ++ show (success s)
          ++ ", Failed: " ++ show (failed s)
          ++ ", Invalid: " ++ show (invalid s)).

(** *** The worker, by verdict *)


(** The counter a worker increments for an account: [invalid] when the
    check of the token does not answer ok, [success] when the voting
    routine returns [true], [failed] when it returns [false] or
    throws. *)
Definition verdict (c : Client) (a : Account) (token : string)
    (proxy : option string) : Counter :=
  match checked a with
  | Normal true =>
      match outcome (_voteForBot c (session a) token proxy) with
      | Normal true => CSuccess
      | _ => CFailed
      end
  | _ => CInvalid
  end.

(** The error a worker hands to the error policy for an account, if
    any. *)
Definition complaint (c : Client) (a : Account) (token : string)
    (proxy : option string) : option Error :=
  match checked a with
  | Normal true =>
      match outcome (_voteForBot c (session a) token proxy) with
      | Abrupt err => Some (tokenError token err)
      | Normal _ => None
      end
  | _ => Some (invalidToken token)
  end.

(** [_handleError(e)] read as a function: from the errors [errorLog]
    was called with before, to those it has been called with after and
    the error that is thrown, if any. *)
Definition consult (c : Client) (e : Error) (hist : list Error)
  : list Error * option Error :=
  match errorLog c with
  | None => (hist, Some e)
  | Some h => ((hist ++ [e])%list, h hist e)
  end.

(** The error policy applied up to [n] times in a row, each time to
    what the time before threw. *)
Fixpoint escalate (c : Client) (n : nat) (e : Error) (hist : list Error)
  : list Error * option Error :=
  match n with
  | 0 => (hist, Some e)
  | S n' =>
      match consult c e hist with
      | (hist', Some e') => escalate c n' e' hist'
      | (hist', None) => (hist', None)
      end
  end.

(** The completion of a call that threw [Some e] or returned. *)
Definition thrown (r : option Error) : Completion unit :=
  match r with
  | Some e => Abrupt e
  | None => Normal tt
  end.

(** *** One counter at a time *)

(** [this.stats.<x>] *)
Definition reading (x : Counter) (s : Stats) : nat :=
  match x with
  | CSuccess => success s
  | CFailed => failed s
  | CInvalid => invalid s
  end.

(** What an increment of [y] adds to the counter [x]. *)
Definition hit (x y : Counter) : nat :=
  match x, y with
  | CSuccess, CSuccess | CFailed, CFailed | CInvalid, CInvalid => 1
  | _, _ => 0
  end.

(** Every path of [p], whatever [errorLog] answers, increments the
    counter [x] exactly [n] times. *)
Fixpoint Tally {A} (x : Counter) (n : nat) (p : Prog A) : Prop :=
  match p with
  | Ret _ | Throw _ => n = 0
  | Emit _ k => Tally x n k
  | Await k => Tally x n k
  | Bump y k => exists m, n = hit x y + m /\ Tally x m k
  | CallErrorLog _ _ k => forall r, Tally x n (k r)
  end.

(** The verdicts of the accounts of a cycle, in the order of the
    list. *)
Definition verdicts (c : Client) (accounts : nat -> Account) (i : nat)
    (tokens : list string) : list Counter :=
  mapFrom (fun i tok => verdict c (accounts i) tok (proxyFor c i)) i tokens.

(** The number of verdicts [x] among [vs]. *)
Definition numberOf (x : Counter) (vs : list Counter) : nat :=
  list_sum (map (hit x) vs).

(** *** What a success means *)

(** The vote is cast: the check of the token answers ok, the browser
    is connected, the session gets past the login, the poll ends on
    "vote", and the call that is to click is answered. *)
Definition voteCast (c : Client) (a : Account) : Prop :=
  checked a = Normal true
  /\ connection (session a) = Connected
  /\ authenticates (session a) = true
  /\ outcome (_waitForVoteStatus c (probes (session a)) 60000) = Normal "vote"
  /\ fulfilled (votePage (session a)) = true.

(** *** Sample runs *)

Definition loginPage : Dom := mkDom "Login to vote" [mkButton "Login" false].

Definition landedPage : Dom := mkDom "Welcome back" [].

Definition waitingPage : Dom := mkDom "Checking your vote status" [].

Definition readyPage : Dom :=
  mkDom "You can vote now!"
    [mkButton "Share" false; mkButton "Vote" true; mkButton "Vote" false].

Definition buttonlessPage : Dom :=
  mkDom "You can vote now!" [mkButton "Vote" true].

(** The first probe fails, the second waits, the third shows the
    marker. *)
Definition sampleAnswers (n : nat) : Probe :=
  match n with
  | 1 => mkProbe (Abrupt (mkError "Execution context was destroyed")) 40 3
  | 2 => mkProbe (Normal waitingPage) 40 3
  | _ => mkProbe (Normal readyPage) 40 3
  end.

(** No probe ever shows a marker. *)
Definition idleAnswers (n : nat) : Probe := mkProbe (Normal waitingPage) 40 3.

Definition sampleSession : Session :=
  mkSession Connected (Normal tt) (Normal tt) (Normal loginPage) (Normal tt)
    (Normal tt) (Normal tt) (Normal tt) (Normal tt) (Normal landedPage)
    (Normal tt) sampleAnswers (Normal readyPage)
    (Abrupt (mkError "Target closed")).

Definition buttonlessSession : Session :=
  mkSession Connected (Normal tt) (Normal tt) (Normal loginPage) (Normal tt)
    (Normal tt) (Normal tt) (Normal tt) (Normal tt) (Normal landedPage)
    (Normal tt) sampleAnswers (Normal buttonlessPage) (Normal tt).

(** The browser connects and the first navigation fails. *)
Definition brokenSession : Session :=
  mkSession Connected (Normal tt) (Abrupt (mkError "net::ERR_TIMED_OUT"))
    (Normal loginPage) (Normal tt) (Normal tt) (Normal tt) (Normal tt)
    (Normal tt) (Normal landedPage) (Normal tt) sampleAnswers
    (Normal readyPage) (Normal tt).

Definition sampleAccount : Account := mkAccount (Normal true) sampleSession.

Definition buttonlessAccount : Account :=
  mkAccount (Normal true) buttonlessSession.

Definition rejectedAccount : Account := mkAccount (Normal false) sampleSession.

Definition brokenAccount : Account := mkAccount (Normal true) brokenSession.

(** The poll ends on "vote" and the call that is to click fails. *)
Definition stalledSession : Session :=
  mkSession Connected (Normal tt) (Normal tt) (Normal loginPage) (Normal tt)
    (Normal tt) (Normal tt) (Normal tt) (Normal tt) (Normal landedPage)
    (Normal tt) sampleAnswers
    (Abrupt (mkError "Execution context was destroyed")) (Normal tt).

Definition stalledAccount : Account := mkAccount (Normal true) stalledSession.


Definition sampleClient : Client :=
  mkClient ["tokenAAAA1"; "tokenBBBB2"] "123456789012345678" 43200000 false
    ["http://p1:8080"; "http://p2:8080"; "http://p3:8080"] false None.

Definition concurrentClient : Client :=
  mkClient ["tokenAAAA1"; "tokenBBBB2"] "123456789012345678" 43200000 true
    [] false None.

(** An [errorLog] that only takes note. *)
Definition noting : ErrorLogFn := fun _ _ => None.

Definition tolerantOptions : AutoClientOptions :=
  mkOptions ["tokenAAAA1"; "tokenBBBB2"] "123456789012345678" None None
    None None (Some noting).

Definition tolerantClient : Client :=
  mkClient ["tokenAAAA1"; "tokenBBBB2"] "123456789012345678" 43200000 false
    [] false (Some noting).

Definition freshWorld : World := mkWorld (mkStats 2 0 0 0) [] [].

(** The first token validates and votes, the second is rejected; the
    answers to the second arrive first. *)
Definition sampleCycle : Cycle :=
  mkCycle (fun i => match i with
                    | 0 => sampleAccount
                    | _ => rejectedAccount
                    end)
    [1; 0; 0; 1].

Definition hours (a b : Z) : string := show (Z.to_nat (a / b)).

(** The connection times out. *)
Definition unreachableSession : Session :=
  mkSession ConnectTimedOut (Normal tt) (Normal tt) (Normal loginPage)
    (Normal tt) (Normal tt) (Normal tt) (Normal tt) (Normal tt)
    (Normal landedPage) (Normal tt) sampleAnswers (Normal readyPage)
    (Normal tt).

Definition unreachableAccount : Account :=
  mkAccount (Normal true) unreachableSession.

(** The page after the login still shows "Login". *)
Definition loggedOutSession : Session :=
  mkSession Connected (Normal tt) (Normal tt) (Normal loginPage)
    (Normal tt) (Normal tt) (Normal tt) (Normal tt) (Normal tt)
    (Normal loginPage) (Normal tt) sampleAnswers (Normal readyPage)
    (Normal tt).

Definition loggedOutAccount : Account :=
  mkAccount (Normal true) loggedOutSession.




(* ================================================================== *)
(** ** Running composed computations *)
(* ================================================================== *)

Lemma tell_nil w : tell [] w = w.
Proof. destruct w; unfold tell; simpl; now rewrite app_nil_r. Qed.

Lemma tell_tell evs evs' w : tell evs' (tell evs w) = tell (evs ++ evs') w.
Proof. unfold tell; simpl; now rewrite app_assoc. Qed.

Lemma emit_tell ev w : emit ev w = tell [ev] w.
Proof. reflexivity. Qed.

Lemma stats_tell evs w : stats (tell evs w) = stats w.
Proof. reflexivity. Qed.

Lemma trace_tell evs w : trace (tell evs w) = (trace w ++ evs)%list.
Proof. reflexivity. Qed.

Lemma count_tell ctr evs w : count ctr (tell evs w) = tell evs (count ctr w).
Proof. reflexivity. Qed.

Lemma handled_tell evs w : handled (tell evs w) = handled w.
Proof. reflexivity. Qed.

Lemma hand_tell e evs w : hand e (tell evs w) = tell evs (hand e w).
Proof. reflexivity. Qed.

Lemma run_bind A B (p : Prog A) (f : A -> Prog B) w :
  run (bind p f) w =
  match run p w with
  | (w', Normal a) => run (f a) w'
  | (w', Abrupt e) => (w', Abrupt e)
  end.
Proof. revert w; induction p; simpl; intros; auto. Qed.

Lemma run_try_catch A (p : Prog A) handler w :
  run (try_catch p handler) w =
  match run p w with
  | (w', Normal a) => (w', Normal a)
  | (w', Abrupt e) => run (handler e) w'
  end.
Proof. revert w; induction p; simpl; intros; auto. Qed.

Lemma run_try_finally A (p : Prog A) fin w :
  run (try_finally p fin) w =
  match run p w with
  | (w', r) =>
      match run fin w' with
      | (w'', Normal _) => (w'', r)
      | (w'', Abrupt e) => (w'', Abrupt e)
      end
  end.
Proof.
  revert w; induction p; simpl; intros; auto;
    rewrite run_bind; destruct (run fin w) as [w' [[]|e']]; reflexivity.
Qed.

Lemma run_log c msg w : run (_log c msg) w = (tell (said c msg) w, Normal tt).
Proof.
  unfold _log, said; destruct (verbose c); simpl;
    [reflexivity | now rewrite tell_nil].
Qed.

Lemma run_await A ev (answer : Completion A) w :
  run (await ev answer) w = (tell [ev] w, answer).
Proof. destruct answer; reflexivity. Qed.

Lemma run_delay ms w : run (delay ms) w = (tell [Sleep ms] w, Normal tt).
Proof. reflexivity. Qed.

Lemma run_incr ctr w : run (incr ctr) w = (count ctr w, Normal tt).
Proof. reflexivity. Qed.

Lemma run_handleError_none c err w :
  errorLog c = None -> run (_handleError c err) w = (w, Abrupt err).
Proof. unfold _handleError; intros ->; reflexivity. Qed.

(** Running to the end is running on from the next suspension. *)
Lemma run_resume A (p : Prog A) w :
  run p w = run (snd (resume p w)) (fst (resume p w)).
Proof. revert w; induction p; simpl; intros; auto. Qed.

(* ================================================================== *)
(** ** Counting along the paths of a computation *)
(* ================================================================== *)

Lemma Paths_weaken A bw cw (p : Prog A) :
  forall (R R' : A -> nat -> Prop) (T T' : Error -> nat -> Prop),
    (forall a n, R a n -> R' a n) -> (forall e n, T e n -> T' e n) ->
    Paths bw cw R T p -> Paths bw cw R' T' p.
Proof.
  induction p; simpl; intros R R' T T' HR HT HP; auto.
  - eapply IHp; [| | exact HP]; simpl; auto.
  - eapply IHp; [| | exact HP]; simpl; auto.
  - intro r. eapply H; [| | apply HP]; simpl; auto.
  - eapply IHp; [| | exact HP]; simpl; auto.
Qed.

Lemma Paths_bind A B bw cw (p : Prog A) (f : A -> Prog B) :
  forall (R : B -> nat -> Prop) (T : Error -> nat -> Prop),
    Paths bw cw
      (fun a n => Paths bw cw (fun b m => R b (n + m))
                    (fun e m => T e (n + m)) (f a))
      T p ->
    Paths bw cw R T (bind p f).
Proof.
  induction p; simpl; intros R T HP.
  - eapply Paths_weaken; [| | exact HP]; simpl; auto.
  - exact HP.
  - auto.
  - apply IHp. eapply Paths_weaken; [| | exact HP]; simpl; auto.
    intros a n Hn. eapply Paths_weaken; [| | exact Hn]; simpl; intros;
      now rewrite Nat.add_assoc.
  - intro r. apply H. eapply Paths_weaken; [| | apply HP]; simpl; auto.
    intros a n Hn. eapply Paths_weaken; [| | exact Hn]; simpl; intros;
      now rewrite Nat.add_assoc.
  - auto.
Qed.

Lemma Paths_try_catch A bw cw (p : Prog A) handler :
  forall (R : A -> nat -> Prop) (T : Error -> nat -> Prop),
    Paths bw cw R
      (fun e n => Paths bw cw (fun a m => R a (n + m))
                    (fun e' m => T e' (n + m)) (handler e))
      p ->
    Paths bw cw R T (try_catch p handler).
Proof.
  induction p; simpl; intros R T HP.
  - exact HP.
  - eapply Paths_weaken; [| | exact HP]; simpl; auto.
  - auto.
  - apply IHp. eapply Paths_weaken; [| | exact HP]; simpl; auto.
    intros a n Hn. eapply Paths_weaken; [| | exact Hn]; simpl; intros;
      now rewrite Nat.add_assoc.
  - intro r. apply H. eapply Paths_weaken; [| | apply HP]; simpl; auto.
    intros a n Hn. eapply Paths_weaken; [| | exact Hn]; simpl; intros;
      now rewrite Nat.add_assoc.
  - auto.
Qed.

Lemma Paths_try_finally A bw cw (p : Prog A) fin :
  forall (R : A -> nat -> Prop) (T : Error -> nat -> Prop),
    Paths bw cw
      (fun a n => Paths bw cw (fun _ m => R a (n + m))
                    (fun e m => T e (n + m)) fin)
      (fun e n => Paths bw cw (fun _ m => T e (n + m))
                    (fun e' m => T e' (n + m)) fin)
      p ->
    Paths bw cw R T (try_finally p fin).
Proof.
  induction p; simpl; intros R T HP.
  - apply Paths_bind. eapply Paths_weaken; [| | exact HP]; simpl; intros;
      rewrite ?Nat.add_0_r; auto.
  - apply Paths_bind. eapply Paths_weaken; [| | exact HP]; simpl; intros;
      rewrite ?Nat.add_0_r; auto.
  - auto.
  - apply IHp. eapply Paths_weaken; [| | exact HP]; simpl;
      intros ? n Hn; (eapply Paths_weaken; [| | exact Hn]); simpl; intros;
      now rewrite Nat.add_assoc.
  - intro r. apply H. eapply Paths_weaken; [| | apply HP]; simpl;
      intros ? n Hn; (eapply Paths_weaken; [| | exact Hn]); simpl; intros;
      now rewrite Nat.add_assoc.
  - auto.
Qed.

Lemma Weighs_bind A B bw cw n m (p : Prog A) (f : A -> Prog B) :
  Paths bw cw (fun _ k => k = n) (fun _ k => k = n + m) p ->
  (forall a, Weighs bw cw m (f a)) ->
  Weighs bw cw (n + m) (bind p f).
Proof.
  intros Hp Hf. apply Paths_bind.
  eapply Paths_weaken; [| | exact Hp]; simpl; auto.
  intros a k ->. eapply Paths_weaken; [| | apply Hf]; simpl; intros; lia.
Qed.

Lemma Free_bind A B bw cw (p : Prog A) (f : A -> Prog B) :
  Free bw cw p -> (forall a, Free bw cw (f a)) -> Free bw cw (bind p f).
Proof.
  intros Hp Hf. apply (@Weighs_bind A B bw cw 0 0); auto.
Qed.

Lemma Free_try_catch A bw cw (p : Prog A) handler :
  Free bw cw p -> (forall e, Free bw cw (handler e)) ->
  Free bw cw (try_catch p handler).
Proof.
  intros Hp Hh. apply Paths_try_catch.
  eapply Paths_weaken; [| | exact Hp]; simpl; auto.
  intros e k ->. apply Hh.
Qed.

Lemma Free_try_finally A bw cw (p : Prog A) fin :
  Free bw cw p -> Free bw cw fin -> Free bw cw (try_finally p fin).
Proof.
  intros Hp Hf. apply Paths_try_finally.
  eapply Paths_weaken; [| | exact Hp]; simpl; intros ? k ->; exact Hf.
Qed.

Lemma Free_ret A bw cw (a : A) : Free bw cw (Ret a).
Proof. reflexivity. Qed.

Lemma Free_throw A bw cw e : Free bw cw (@Throw A e).
Proof. reflexivity. Qed.

Lemma Free_log bw cw c msg : Free bw cw (_log c msg).
Proof. unfold _log; destruct (verbose c); reflexivity. Qed.

Lemma Free_await A bw cw ev (answer : Completion A) :
  Free bw cw (await ev answer).
Proof. destruct answer; reflexivity. Qed.

Lemma Free_delay bw cw ms : Free bw cw (delay ms).
Proof. reflexivity. Qed.

Lemma Free_evaluate A bw cw page (callback : Dom -> Prog A) :
  (forall d, Free bw cw (callback d)) -> Free bw cw (evaluate page callback).
Proof. intros H; destruct page; simpl; [apply H | reflexivity]. Qed.

Lemma Free_clickFirst bw cw wanted d : Free bw cw (clickFirst wanted d).
Proof. unfold clickFirst; destruct (find wanted (buttons d)); reflexivity. Qed.

Lemma Free_settle A bw cw (p : Prog A) : Free bw cw p -> Free bw cw (settle p).
Proof.
  intros H. unfold settle. apply Free_try_catch.
  - apply Free_bind; [exact H | intros; apply Free_ret].
  - intros; apply Free_ret.
Qed.

Create HintDb free discriminated.
#[export] Hint Resolve Free_ret Free_throw Free_log Free_await Free_delay
  Free_clickFirst : free.

(** Splits a composed computation into its parts. *)
Ltac free :=
  repeat first
    [ progress auto with free
    | apply Free_bind; [| intros ?]
    | apply Free_try_catch; [| intros ?]
    | apply Free_try_finally
    | apply Free_settle
    | apply Free_evaluate; intros ?
    | match goal with
      | |- Free _ _ (if ?b then _ else _) => destruct b
      | |- Free _ _ (match ?x with _ => _ end) => destruct x
      end ].

Lemma pollLoop_free bw cw c answers timeoutMs fuel :
  forall attempts elapsed,
    Free bw cw (pollLoop c answers timeoutMs fuel attempts elapsed).
Proof.
  induction fuel as [|fuel IH]; intros attempts elapsed; simpl.
  - free.
  - destruct (elapsed <? timeoutMs)%Z; free. apply IH.
Qed.

Lemma waitForVoteStatus_free bw cw c answers timeoutMs :
  Free bw cw (_waitForVoteStatus c answers timeoutMs).
Proof. apply pollLoop_free. Qed.

Lemma closeBrowser_free bw cw c s shortT : Free bw cw (closeBrowser c s shortT).
Proof. unfold closeBrowser; free. Qed.

Lemma act_free bw cw c s shortT status : Free bw cw (act c s shortT status).
Proof. unfold act; free. Qed.

#[export] Hint Resolve waitForVoteStatus_free closeBrowser_free act_free
  : free.

Lemma voteSession_free bw cw c s token : Free bw cw (voteSession c s token).
Proof. unfold voteSession; free. Qed.

#[export] Hint Resolve voteSession_free : free.

Lemma voteForBot_free bw cw c s token proxy :
  Free bw cw (_voteForBot c s token proxy).
Proof. unfold _voteForBot; free. Qed.

(** With calls of [errorLog] weighing nothing, or with no [errorLog]
    configured, the error policy is free. *)
Lemma handleError_free bw cw c err :
  cw = 0 \/ errorLog c = None -> Free bw cw (_handleError c err).
Proof.
  unfold _handleError. intros [-> | ->]; [|reflexivity].
  destruct (errorLog c); [|reflexivity].
  intros [thrown|]; reflexivity.
Qed.

Lemma incr_weighs bw cw ctr : Weighs bw cw bw (incr ctr).
Proof. unfold Weighs; simpl; lia. Qed.

Arguments _log : simpl never.
Arguments _handleError : simpl never.
Arguments _waitForVoteStatus : simpl never.
Arguments closeBrowser : simpl never.
Arguments act : simpl never.
Arguments voteSession : simpl never.
Arguments _voteForBot : simpl never.
Arguments _handleSingle : simpl never.

Lemma Paths_log_bind A bw cw c msg (f : unit -> Prog A) R T :
  Paths bw cw R T (f tt) -> Paths bw cw R T (bind (_log c msg) f).
Proof. unfold _log; destruct (verbose c); simpl; auto. Qed.

Lemma Paths_free A bw cw (p : Prog A) (R : A -> nat -> Prop)
    (T : Error -> nat -> Prop) :
  Free bw cw p -> (forall a, R a 0) -> (forall e, T e 0) -> Paths bw cw R T p.
Proof.
  intros Hp HR HT. eapply Paths_weaken; [| | exact Hp]; simpl;
    intros ? ? ->; auto.
Qed.

(** Whatever [_handleSingle] goes through, it increments one counter,
    once: with the error policy free, every path weighs one increment. *)
Lemma handleSingle_weighs bw cw c a token proxy :
  (forall err, Free bw cw (_handleError c err)) ->
  Weighs bw cw bw (_handleSingle c a token proxy).
Proof.
  intros Hh. unfold _handleSingle, Weighs.
  do 2 apply Paths_log_bind.
  apply Paths_bind. apply Paths_try_catch.
  assert (Hrest : forall valid : bool,
    Paths bw cw (fun _ m => 0 + m = bw) (fun _ m => 0 + m = bw)
      (if negb valid
       then incr CInvalid;;
            _handleError c (mkError ("Invalid token " ++ shortToken token))
       else
        _log c ("Attempting vote for token " ++ shortToken token ++ "...");;
        try_catch
          (result <- _voteForBot c (session a) token proxy;;
           (if result
            then incr CSuccess;;
                 _log c ("Voted successfully for " ++ shortToken token)
            else incr CFailed;;
                 _log c ("Skipped (already voted or unavailable) for "
                         ++ shortToken token)))
          (fun err =>
             incr CFailed;;
             _log c ("Vote attempt failed for " ++ shortToken token ++ ": "
                     ++ message err);;
             _handleError c
               (mkError ("Token " ++ shortToken token ++ " error: "
                         ++ message err))))).
  { intros [|]; simpl.
    - apply Paths_log_bind, Paths_try_catch, Paths_bind.
      apply Paths_free; [apply voteForBot_free | |].
      + intros [|]; simpl; apply Paths_log_bind || idtac;
          unfold _log; destruct (verbose c); simpl; lia.
      + intros e; simpl. apply Paths_log_bind.
        apply Paths_free; [apply Hh | |]; intros; lia.
    - apply Paths_free; [apply Hh | |]; intros; lia. }
  unfold await; destruct (checked a) as [ok|e]; cbn [bind try_catch Paths];
    apply Paths_log_bind; cbn [Paths];
    (eapply Paths_weaken; [| | apply Hrest]); simpl; auto.
Qed.

(** The bookkeeping of [_handleSingle] in the two weightings used below:
    one counter increment on every path, and no call of [errorLog] when
    none is configured. *)
Lemma handleSingle_one_increment c a token proxy :
  Weighs 1 0 1 (_handleSingle c a token proxy).
Proof.
  apply handleSingle_weighs; intros; apply handleError_free; now left.
Qed.

Lemma handleSingle_no_call c a token proxy :
  errorLog c = None -> Free 0 1 (_handleSingle c a token proxy).
Proof.
  intros H. apply (@handleSingle_weighs 0 1); intros;
    apply handleError_free; now right.
Qed.

(* ================================================================== *)
(** ** From weights to counters *)
(* ================================================================== *)

Lemma total_bump ctr s : total (bump ctr s) = total s.
Proof. destruct ctr; reflexivity. Qed.

Lemma recorded_bump ctr s : recorded (bump ctr s) = S (recorded s).
Proof. destruct ctr; unfold recorded; simpl; lia. Qed.

Lemma total_bumps ctrs : forall s, total (bumps ctrs s) = total s.
Proof.
  induction ctrs as [|ctr ctrs IH]; intros s; simpl; auto.
  unfold bumps in IH; rewrite IH; apply total_bump.
Qed.

Lemma recorded_bumps ctrs :
  forall s, recorded (bumps ctrs s) = length ctrs + recorded s.
Proof.
  induction ctrs as [|ctr ctrs IH]; intros s; simpl; auto.
  unfold bumps in IH; rewrite IH, recorded_bump; lia.
Qed.

(** Some path leads out of every computation. *)
Lemma Paths_inhabited A bw cw (p : Prog A) :
  forall R T, Paths bw cw R T p ->
    exists n, (exists a, R a n) \/ (exists e, T e n).
Proof.
  induction p; simpl; intros R T HP.
  - exists 0; left; eauto.
  - exists 0; right; eauto.
  - eauto.
  - destruct (IHp _ _ HP) as [n [[a Ha]|[e' He]]]; eauto.
  - destruct (H None _ _ (HP None)) as [n [[a Ha]|[e' He]]]; eauto.
  - eauto.
Qed.

(** A run increments as many counters as the path it takes weighs. *)
Lemma run_bumps A (p : Prog A) :
  forall R T w, Paths 1 0 R T p ->
    exists ctrs,
      stats (fst (run p w)) = bumps ctrs (stats w)
      /\ match snd (run p w) with
         | Normal a => R a (length ctrs)
         | Abrupt e => T e (length ctrs)
         end.
Proof.
  induction p; simpl; intros R T w HP.
  - exists []; auto.
  - exists []; auto.
  - destruct (IHp _ _ (emit ev w) HP) as [ctrs [Hs Hr]]. exists ctrs; auto.
  - destruct (IHp _ _ (count ctr w) HP) as [ctrs [Hs Hr]].
    exists (ctr :: ctrs); auto.
  - destruct (H (h (handled w) e) _ _ (hand e w) (HP _)) as [ctrs [Hs Hr]].
    exists ctrs; auto.
  - apply IHp; auto.
Qed.

Lemma run_paths A (p : Prog A) R T w w' r :
  Paths 1 0 R T p -> run p w = (w', r) ->
  total (stats w') = total (stats w)
  /\ exists d, recorded (stats w') = d + recorded (stats w)
               /\ match r with
                  | Normal a => R a d
                  | Abrupt e => T e d
                  end.
Proof.
  intros HP Hrun. destruct (run_bumps p _ _ w HP) as [ctrs [Hs Hr]].
  rewrite Hrun in Hs, Hr; simpl in Hs, Hr. rewrite Hs. split.
  - apply total_bumps.
  - exists (length ctrs). split; [apply recorded_bumps | exact Hr].
Qed.


Lemma resume_paths A (p : Prog A) :
  forall R T w w' p',
    Paths 1 0 R T p -> resume p w = (w', p') ->
    total (stats w') = total (stats w)
    /\ exists d, recorded (stats w') = d + recorded (stats w)
                 /\ Paths 1 0 (fun a n => R a (d + n))
                      (fun e n => T e (d + n)) p'.
Proof.
  induction p; simpl; intros R T w w' p' HP Hr.
  - inversion Hr; subst. split; auto. exists 0; auto.
  - inversion Hr; subst. split; auto. exists 0; auto.
  - destruct (IHp _ _ _ _ _ HP Hr) as [Ht [d [Hd Hp']]]. split; auto.
    exists d; auto.
  - destruct (IHp _ _ _ _ _ HP Hr) as [Ht [d [Hd Hp']]].
    simpl in Ht, Hd. rewrite total_bump in Ht. rewrite recorded_bump in Hd.
    split; auto. exists (S d). split; [lia|].
    eapply Paths_weaken; [| | exact Hp']; simpl; auto.
  - destruct (H _ _ _ _ _ _ (HP _) Hr) as [Ht [d [Hd Hp']]].
    split; auto. exists d; auto.
  - inversion Hr; subst. split; auto. exists 0; auto.
Qed.

Lemma Owes_shift exact r d (p : Prog unit) :
  Paths 1 0 (fun _ n => d + n = r) (fun _ n => within exact r (d + n)) p ->
  exists r', r = d + r' /\ Owes exact r' p.
Proof.
  intros HP. destruct (@Paths_inhabited _ _ _ p _ _ HP) as [n Hn].
  assert (Hle : d <= r)
    by (unfold within in Hn; destruct exact, Hn as [[_ Hn]|[_ Hn]]; lia).
  exists (r - d). split; [lia|].
  eapply Paths_weaken; [| | exact HP]; unfold within; simpl; intros ? m;
    destruct exact; lia.
Qed.

Lemma Owes_settled exact r (p : Prog unit) :
  Owes exact r p -> settled p = true ->
  match p with
  | Throw _ => exact = true -> r = 0
  | _ => r = 0
  end.
Proof.
  destruct p; simpl; try discriminate; unfold Owes, within; simpl; intros H _.
  - auto.
  - intros ->; auto.
Qed.

(* ================================================================== *)
(** ** The counters of a pool of promises *)
(* ================================================================== *)

Lemma Forall2_replace (P : nat -> Prog unit -> Prop) rs pool :
  Forall2 P rs pool ->
  forall i p, nth_error pool i = Some p ->
    exists r, P r p
      /\ forall r' p', P r' p' ->
           Forall2 P (replace i r' rs) (replace i p' pool)
           /\ list_sum (replace i r' rs) + r = list_sum rs + r'.
Proof.
  induction 1 as [|r0 p0 rs pool H0 HF IH]; intros i p Hi.
  - destruct i; discriminate.
  - destruct i as [|i]; simpl in Hi.
    + inversion Hi; subst. exists r0. split; auto.
      intros r' p' H'. simpl. split; [constructor; auto | lia].
    + destruct (IH _ _ Hi) as [r [Hr Hrep]]. exists r. split; auto.
      intros r' p' H'. destruct (Hrep _ _ H') as [HF' Hsum].
      simpl. split; [constructor; auto | lia].
Qed.

Lemma Balanced_advance exact n w pool i p w' p' :
  Balanced exact n (w, pool) -> nth_error pool i = Some p ->
  (forall r, Owes exact r p ->
     total (stats w') = total (stats w)
     /\ exists d, recorded (stats w') = d + recorded (stats w)
          /\ Paths 1 0 (fun _ m => d + m = r)
               (fun _ m => within exact r (d + m)) p') ->
  Balanced exact n (w', replace i p' pool).
Proof.
  intros [rs [HF Hsum]] Hi Hany. simpl in *.
  destruct (Forall2_replace HF _ Hi) as [r [Hr Hrep]].
  destruct (Hany _ Hr) as [Ht' [d [Hd Hp']]].
  apply Owes_shift in Hp'. destruct Hp' as [r' [-> Hr']].
  destruct (Hrep _ _ Hr') as [HF' Hsum'].
  exists (replace i r' rs). split; auto. simpl. lia.
Qed.



Lemma Balanced_wake exact n i st :
  Balanced exact n st -> Balanced exact n (wake i st).
Proof.
  destruct st as [w pool]. intros HB. unfold wake; simpl.
  destruct (nth_error pool i) as [p|] eqn:Hi; auto.
  destruct (resume p w) as [w' p'] eqn:Hs.
  eapply Balanced_advance; eauto.
  intros r Hr.
  exact (@resume_paths _ p (fun _ m => m = r) (fun _ m => within exact r m)
           w w' p' Hr Hs).
Qed.

Lemma Balanced_interleave exact n schedule :
  forall st, Balanced exact n st -> Balanced exact n (interleave schedule st).
Proof.
  induction schedule as [|i schedule IH]; intros st HB; simpl; auto.
  apply IH, Balanced_wake, HB.
Qed.


Lemma launch_owes exact ps :
  forall rs w,
    Forall2 (Owes exact) rs ps ->
    total (stats (fst (launch ps w))) = total (stats w)
    /\ exists rs',
         Forall2 (Owes exact) rs' (snd (launch ps w))
         /\ recorded (stats (fst (launch ps w))) + list_sum rs'
            = recorded (stats w) + list_sum rs.
Proof.
  induction ps as [|p ps IH]; intros rs w HF;
    inversion HF as [|x ? xs ? H1 H3]; subst; simpl.
  - split; auto. exists []; auto.
  - destruct (resume p w) as [w1 p1] eqn:Hr.
    destruct (@resume_paths _ p (fun _ m => m = x)
                (fun _ m => within exact x m) w w1 p1 H1 Hr)
      as [Ht [d [Hd Hp1]]].
    apply Owes_shift in Hp1. destruct Hp1 as [x' [-> Hx']].
    destruct (IH _ w1 H3) as [Ht' [rs' [HF' Hsum]]].
    destruct (launch ps w1) as [w2 pool]; simpl in *. split; [congruence|].
    exists (x' :: rs'); split; [constructor; auto | simpl; lia].
Qed.

Lemma drain_owes pool :
  forall rs w,
    Forall2 (Owes true) rs pool ->
    total (stats (fst (drain pool w))) = total (stats w)
    /\ recorded (stats (fst (drain pool w)))
       = recorded (stats w) + list_sum rs.
Proof.
  induction pool as [|p pool IH]; intros rs w HF;
    inversion HF as [|x ? xs ? H1 H3]; subst; simpl.
  - split; auto.
  - destruct (run p w) as [w1 r] eqn:Hr.
    destruct (@run_paths _ p (fun _ m => m = x) (fun _ m => within true x m)
                w w1 r H1 Hr) as [Ht [d [Hd Hr']]].
    assert (d = x) by (destruct r; exact Hr'). subst d.
    destruct (IH _ w1 H3) as [Ht' Hsum].
    destruct (drain pool w1) as [w2 rs']; simpl in *. split; [congruence|lia].
Qed.

(** The callbacks that absorb a failure of [_handleSingle] in the two
    modes do not touch the counters. *)
Lemma promise_owes c accounts i tok : Owes true 1 (promise c accounts i tok).
Proof.
  unfold promise, onParallelError, Owes. apply Paths_try_catch.
  eapply Paths_weaken; [| | apply handleSingle_one_increment]; simpl; auto.
  intros e n ->. apply Paths_log_bind.
  apply Paths_free; [apply handleError_free; now left | |];
    unfold within; intros; lia.
Qed.

Lemma promises_owes c accounts tokens :
  forall i,
    Forall2 (Owes true) (repeat 1 (length tokens))
      (mapFrom (promise c accounts) i tokens).
Proof.
  induction tokens as [|tok tokens IH]; intros i; simpl; constructor;
    [apply promise_owes | apply IH].
Qed.

Lemma list_sum_repeat_1 n : list_sum (repeat 1 n) = n.
Proof. induction n; simpl; auto. Qed.

Lemma sequentialFrom_owes c accounts rest :
  forall i, Owes false (length rest) (sequentialFrom c accounts i rest).
Proof.
  induction rest as [|tok rest IH]; intros i; unfold Owes.
  - reflexivity.
  - cbn [sequentialFrom length]. unfold serialTurn, onSerialError.
    apply Paths_bind, Paths_log_bind, Paths_try_catch.
    eapply Paths_weaken; [| | apply handleSingle_one_increment];
      cbv beta.
    + intros _ n ->.
      eapply Paths_weaken; [| | apply (IH (S i))]; unfold within; simpl;
        intros; lia.
    + intros e n ->. apply Paths_log_bind.
      apply Paths_free; [apply handleError_free; now left | |].
      * intros _.
        eapply Paths_weaken; [| | apply (IH (S i))]; unfold within; simpl;
          intros; lia.
      * unfold within; intros; lia.
Qed.

(** Whatever it goes through, [_handleSingle] leaves the counters with
    one of the three incremented by one. *)
Lemma handleSingle_bumps_one c a token proxy w :
  exists ctr,
    stats (fst (run (_handleSingle c a token proxy) w)) = bump ctr (stats w).
Proof.
  destruct (@run_bumps _ (_handleSingle c a token proxy) _ _ w
              (handleSingle_one_increment c a token proxy))
    as [ctrs [Hs Hr]].
  assert (Hlen : length ctrs = 1)
    by (destruct (snd (run (_handleSingle c a token proxy) w)); exact Hr).
  destruct ctrs as [|ctr [|? ?]]; try discriminate.
  exists ctr. exact Hs.
Qed.

(* ================================================================== *)
(** ** Computations whose run does not depend on the world *)
(* ================================================================== *)

Lemma outcome_bind A B (p : Prog A) (f : A -> Prog B) :
  outcome (bind p f) =
  match outcome p with
  | Normal a => outcome (f a)
  | Abrupt e => Abrupt e
  end.
Proof. induction p; simpl; auto. Qed.

Lemma emitted_bind A B (p : Prog A) (f : A -> Prog B) :
  emitted (bind p f) =
  (emitted p ++ match outcome p with
                | Normal a => emitted (f a)
                | Abrupt _ => []
                end)%list.
Proof. induction p; simpl; auto; try (f_equal; auto). Qed.

Lemma outcome_try_catch A (p : Prog A) handler :
  outcome (try_catch p handler) =
  match outcome p with
  | Normal a => Normal a
  | Abrupt e => outcome (handler e)
  end.
Proof. induction p; simpl; auto. Qed.

Lemma emitted_try_catch A (p : Prog A) handler :
  emitted (try_catch p handler) =
  (emitted p ++ match outcome p with
                | Normal _ => []
                | Abrupt e => emitted (handler e)
                end)%list.
Proof. induction p; simpl; auto; try (f_equal; auto). Qed.

Lemma outcome_try_finally A (p : Prog A) fin :
  outcome (try_finally p fin) =
  match outcome fin with
  | Normal _ => outcome p
  | Abrupt e => Abrupt e
  end.
Proof.
  induction p; simpl; auto; rewrite outcome_bind;
    destruct (outcome fin); reflexivity.
Qed.

Lemma emitted_try_finally A (p : Prog A) fin :
  emitted (try_finally p fin) = (emitted p ++ emitted fin)%list.
Proof.
  induction p; simpl; auto; try (f_equal; auto);
    rewrite emitted_bind; destruct (outcome fin); simpl;
    now rewrite app_nil_r.
Qed.

Lemma outcome_log c msg : outcome (_log c msg) = Normal tt.
Proof. unfold _log; destruct (verbose c); reflexivity. Qed.

Lemma emitted_log c msg : emitted (_log c msg) = said c msg.
Proof. unfold _log, said; destruct (verbose c); reflexivity. Qed.

Lemma outcome_await A ev (answer : Completion A) :
  outcome (await ev answer) = answer.
Proof. destruct answer; reflexivity. Qed.

Lemma emitted_await A ev (answer : Completion A) :
  emitted (await ev answer) = [ev].
Proof. destruct answer; reflexivity. Qed.

(** A computation that neither increments a counter nor calls
    [errorLog] only adds its calls to the world. *)
Lemma run_pure A (p : Prog A) :
  Free 1 1 p -> forall w, run p w = (tell (emitted p) w, outcome p).
Proof.
  unfold Free, Weighs. induction p; simpl; intros HF w.
  - now rewrite tell_nil.
  - now rewrite tell_nil.
  - rewrite (IHp HF). now rewrite emit_tell, tell_tell.
  - destruct (@Paths_inhabited _ _ _ p _ _ HF) as [n [[_ Hn]|[_ Hn]]];
      discriminate.
  - destruct (@Paths_inhabited _ _ _ (k None) _ _ (HF None))
      as [n [[_ Hn]|[_ Hn]]]; discriminate.
  - auto.
Qed.

(** Without a call of [errorLog], the completion and the calls of a
    computation are those read off its tree. *)
Lemma run_no_call A (p : Prog A) :
  Free 0 1 p ->
  forall w, snd (run p w) = outcome p
            /\ trace (fst (run p w)) = (trace w ++ emitted p)%list.
Proof.
  unfold Free, Weighs. induction p; simpl; intros HF w.
  - now rewrite app_nil_r.
  - now rewrite app_nil_r.
  - destruct (IHp HF (emit ev w)) as [Ho Ht]. split; auto.
    rewrite Ht; simpl. now rewrite <- app_assoc.
  - apply (IHp HF (count ctr w)).
  - destruct (@Paths_inhabited _ _ _ (k None) _ _ (HF None))
      as [n [[_ Hn]|[_ Hn]]]; discriminate.
  - auto.
Qed.

Lemma run_waitForVoteStatus c answers timeoutMs w :
  run (_waitForVoteStatus c answers timeoutMs) w
  = (tell (emitted (_waitForVoteStatus c answers timeoutMs)) w,
     outcome (_waitForVoteStatus c answers timeoutMs)).
Proof. apply run_pure, waitForVoteStatus_free. Qed.

Lemma run_voteForBot c s token proxy w :
  run (_voteForBot c s token proxy) w
  = (tell (emitted (_voteForBot c s token proxy)) w,
     outcome (_voteForBot c s token proxy)).
Proof. apply run_pure, voteForBot_free. Qed.

(* ================================================================== *)
(** ** The error policy *)
(* ================================================================== *)

(** The three ways [_handleError] can go. *)
Lemma run_handleError_cases c err w :
  match errorLog c with
  | Some h =>
      match h (handled w) err with
      | None => run (_handleError c err) w = (hand err w, Normal tt)
      | Some e' =>
          run (_handleError c err) w
          = (tell [ConsoleError "Error in errorLog function:" e']
               (hand err w),
             Abrupt e')
      end
  | None => run (_handleError c err) w = (w, Abrupt err)
  end.
Proof.
  unfold _handleError.
  destruct (errorLog c) as [h|]; [|reflexivity].
  simpl. destruct (h (handled w) err); reflexivity.
Qed.

(** C4.  [_handleError(err)]: with an [errorLog] configured, it is called
    with [err]; if it throws [e'], [e'] is what [_handleError] throws
    (after reporting it on the console); if it returns, [_handleError]
    returns.  With no [errorLog] configured, [err] itself is thrown, and
    nothing else happens. *)
Theorem handleError_contract :
  forall c err w,
    match errorLog c with
    | Some h =>
        match h (handled w) err with
        | None => run (_handleError c err) w = (hand err w, Normal tt)
        | Some e' =>
            run (_handleError c err) w
            = (tell [ConsoleError "Error in errorLog function:" e']
                 (hand err w),
               Abrupt e')
        end
    | None => run (_handleError c err) w = (w, Abrupt err)
    end.
Proof.
  intros c err w.
  destruct (errorLog c) as [h|] eqn:Hlog.
  - destruct (h (handled w) err) as [e'|] eqn:Hh;
      unfold _handleError; rewrite Hlog; cbn [run]; rewrite Hh; reflexivity.
  - unfold _handleError; rewrite Hlog; reflexivity.
Qed.

(* ================================================================== *)
(** ** The poller *)
(* ================================================================== *)

Lemma classify_cases d :
  (includes (innerText d) "You can vote now!" = true /\ classify d = "vote")
  \/ (includes (innerText d) "You can vote now!" = false
      /\ includes (innerText d) "You have already voted" = true
      /\ classify d = "already")
  \/ (includes (innerText d) "You can vote now!" = false
      /\ includes (innerText d) "You have already voted" = false
      /\ classify d = "wait").
Proof.
  unfold classify.
  destruct (includes (innerText d) "You can vote now!"); auto.
  destruct (includes (innerText d) "You have already voted"); auto.
Qed.

Lemma roundTime_ge answer : (2500 <= roundTime answer)%Z.
Proof. unfold roundTime; lia. Qed.

Lemma span_nonneg answers count : forall first, (0 <= span answers first count)%Z.
Proof.
  induction count as [|count IH]; intros first; simpl; [lia|].
  specialize (IH (S first)). pose proof (roundTime_ge (answers first)). lia.
Qed.

(** One round of the loop, as far as its completion goes. *)
Lemma outcome_pollLoop_0 c answers timeoutMs attempts elapsed :
  outcome (pollLoop c answers timeoutMs 0 attempts elapsed) = Normal "timeout".
Proof. simpl. now rewrite outcome_bind, outcome_log. Qed.

Lemma outcome_pollLoop_S c answers timeoutMs fuel attempts elapsed :
  outcome (pollLoop c answers timeoutMs (S fuel) attempts elapsed) =
  if (elapsed <? timeoutMs)%Z then
    match seen (answers (S attempts)) with
    | Normal d =>
        if stillWaiting (answers (S attempts)) then
          outcome (pollLoop c answers timeoutMs fuel (S attempts)
                     (elapsed + roundTime (answers (S attempts))))
        else Normal (classify d)
    | Abrupt _ =>
        outcome (pollLoop c answers timeoutMs fuel (S attempts)
                   (elapsed + roundTime (answers (S attempts))))
    end
  else Normal "timeout".
Proof.
  cbn [pollLoop]. destruct (elapsed <? timeoutMs)%Z.
  - rewrite outcome_bind, outcome_log, outcome_bind, outcome_try_catch.
    unfold stillWaiting, evaluate.
    destruct (seen (answers (S attempts))) as [d|e]; cbn [bind outcome].
    + rewrite outcome_bind, outcome_log.
      destruct (classify_cases d) as [[H1 ->]|[[H1 [H2 ->]]|[H1 [H2 ->]]]];
        rewrite H1; try rewrite H2; simpl; reflexivity.
    + rewrite outcome_bind, outcome_log. reflexivity.
  - now rewrite outcome_bind, outcome_log.
Qed.

Lemma stillWaiting_normal answer d :
  seen answer = Normal d ->
  stillWaiting answer
  = negb (includes (innerText d) "You can vote now!")
    && negb (includes (innerText d) "You have already voted").
Proof. unfold stillWaiting; intros ->; reflexivity. Qed.

(** Rounds are never cut short by the bound on their number. *)
Lemma pollLoop_enough c answers timeoutMs fuel :
  forall attempts elapsed,
    (timeoutMs - elapsed <= 2500 * Z.of_nat fuel)%Z ->
    outcome (pollLoop c answers timeoutMs fuel attempts elapsed)
    = outcome (pollLoop c answers timeoutMs (S fuel) attempts elapsed).
Proof.
  induction fuel as [|fuel IH]; intros attempts elapsed Hf.
  - rewrite outcome_pollLoop_0, outcome_pollLoop_S.
    destruct (Z.ltb_spec elapsed timeoutMs); [lia | reflexivity].
  - rewrite (outcome_pollLoop_S c answers timeoutMs (S fuel)).
    rewrite outcome_pollLoop_S.
    pose proof (roundTime_ge (answers (S attempts))).
    destruct (elapsed <? timeoutMs)%Z; auto.
    rewrite <- IH by lia. reflexivity.
Qed.

Lemma pollFuel_enough timeoutMs :
  (timeoutMs - 0 <= 2500 * Z.of_nat (pollFuel timeoutMs))%Z.
Proof.
  unfold pollFuel. destruct (Z.le_gt_cases 0 timeoutMs).
  - rewrite Nat2Z.inj_succ, Z2Nat.id by (apply Z.div_pos; lia).
    pose proof (Z.mul_succ_div_gt timeoutMs 2500). lia.
  - lia.
Qed.

Lemma poll_hit c answers timeoutMs :
  forall k fuel attempts elapsed d,
    (timeoutMs - elapsed <= 2500 * Z.of_nat fuel)%Z ->
    (forall j, j < k -> stillWaiting (answers (S attempts + j)) = true) ->
    seen (answers (S attempts + k)) = Normal d ->
    stillWaiting (answers (S attempts + k)) = false ->
    (elapsed + span answers (S attempts) k < timeoutMs)%Z ->
    outcome (pollLoop c answers timeoutMs fuel attempts elapsed)
    = Normal (classify d).
Proof.
  induction k as [|k IH]; intros fuel attempts elapsed d Hf Hw Hd Ht Hs;
    cbn [span] in Hs.
  - destruct fuel as [|fuel]; [lia|]. rewrite outcome_pollLoop_S.
    rewrite Nat.add_0_r in Hd, Ht.
    destruct (Z.ltb_spec elapsed timeoutMs); [|lia].
    now rewrite Hd, Ht.
  - pose proof (span_nonneg answers k (S (S attempts))).
    pose proof (roundTime_ge (answers (S attempts))).
    destruct fuel as [|fuel]; [lia|]. rewrite outcome_pollLoop_S.
    destruct (Z.ltb_spec elapsed timeoutMs); [|lia].
    assert (Hfirst := Hw 0 (Nat.lt_0_succ k)).
    rewrite Nat.add_0_r in Hfirst. rewrite Hfirst.
    assert (Hrec :
      outcome (pollLoop c answers timeoutMs fuel (S attempts)
                 (elapsed + roundTime (answers (S attempts))))
      = Normal (classify d)).
    { apply IH.
      - lia.
      - intros j Hj. specialize (Hw (S j) (proj1 (Nat.succ_lt_mono _ _) Hj)).
        now rewrite Nat.add_succ_r in Hw.
      - now rewrite Nat.add_succ_r in Hd.
      - now rewrite Nat.add_succ_r in Ht.
      - lia. }
    destruct (seen (answers (S attempts))); exact Hrec.
Qed.

Lemma poll_timeout c answers timeoutMs :
  forall k fuel attempts elapsed,
    (timeoutMs - elapsed <= 2500 * Z.of_nat fuel)%Z ->
    (forall j, j < k -> stillWaiting (answers (S attempts + j)) = true) ->
    (timeoutMs <= elapsed + span answers (S attempts) k)%Z ->
    outcome (pollLoop c answers timeoutMs fuel attempts elapsed)
    = Normal "timeout".
Proof.
  induction k as [|k IH]; intros fuel attempts elapsed Hf Hw Hs;
    cbn [span] in Hs.
  - destruct fuel as [|fuel]; [apply outcome_pollLoop_0|].
    rewrite outcome_pollLoop_S.
    destruct (Z.ltb_spec elapsed timeoutMs); [lia | reflexivity].
  - destruct fuel as [|fuel]; [apply outcome_pollLoop_0|].
    rewrite outcome_pollLoop_S.
    destruct (Z.ltb_spec elapsed timeoutMs); [|reflexivity].
    pose proof (roundTime_ge (answers (S attempts))).
    assert (Hfirst := Hw 0 (Nat.lt_0_succ k)).
    rewrite Nat.add_0_r in Hfirst. rewrite Hfirst.
    assert (Hrec :
      outcome (pollLoop c answers timeoutMs fuel (S attempts)
                 (elapsed + roundTime (answers (S attempts))))
      = Normal "timeout").
    { apply IH.
      - lia.
      - intros j Hj. specialize (Hw (S j) (proj1 (Nat.succ_lt_mono _ _) Hj)).
        now rewrite Nat.add_succ_r in Hw.
      - lia. }
    destruct (seen (answers (S attempts))); exact Hrec.
Qed.

Lemma poll_total c answers timeoutMs fuel :
  forall attempts elapsed,
    exists st,
      outcome (pollLoop c answers timeoutMs fuel attempts elapsed) = Normal st
      /\ (st = "vote" \/ st = "already" \/ st = "timeout").
Proof.
  induction fuel as [|fuel IH]; intros attempts elapsed.
  - rewrite outcome_pollLoop_0. eauto.
  - rewrite outcome_pollLoop_S.
    destruct (elapsed <? timeoutMs)%Z; [|eauto].
    destruct (seen (answers (S attempts))) as [d|e] eqn:Hd; [|apply IH].
    rewrite (stillWaiting_normal _ Hd).
    destruct (classify_cases d) as [[H1 ->]|[[H1 [H2 ->]]|[H1 [H2 ->]]]];
      rewrite H1; try rewrite H2; simpl; eauto.
Qed.

Lemma roundTime_calm answer : roundTime (calm answer) = roundTime answer.
Proof. unfold calm; destruct (seen answer); reflexivity. Qed.

Lemma poll_calm c answers timeoutMs fuel :
  forall attempts elapsed,
    outcome (pollLoop c (fun n => calm (answers n)) timeoutMs fuel attempts
               elapsed)
    = outcome (pollLoop c answers timeoutMs fuel attempts elapsed).
Proof.
  induction fuel as [|fuel IH]; intros attempts elapsed.
  - now rewrite !outcome_pollLoop_0.
  - rewrite !outcome_pollLoop_S, roundTime_calm, IH.
    destruct (elapsed <? timeoutMs)%Z; auto.
    unfold calm at 1 2. unfold stillWaiting.
    destruct (seen (answers (S attempts))) as [d|e] eqn:Hd; simpl.
    + now rewrite Hd.
    + reflexivity.
Qed.

(** C5.  The poller never throws and returns one of the three results,
    leaving the counters alone.  It returns the classification of the
    first probe that shows a marker ("vote" for the first marker,
    "already" for the second), provided that probe is started before the
    deadline; it returns "timeout" once the deadline has passed with
    every probe still waiting; and a probe whose call fails counts as
    still waiting: the result is the one an empty page would give. *)
Theorem poller_classifies :
  forall c answers timeoutMs w,
    let result := snd (run (_waitForVoteStatus c answers timeoutMs) w) in
    (exists st, result = Normal st
                /\ (st = "vote" \/ st = "already" \/ st = "timeout"))
    /\ stats (fst (run (_waitForVoteStatus c answers timeoutMs) w)) = stats w
    /\ (forall n d,
          (forall j, j < n -> stillWaiting (answers (S j)) = true) ->
          seen (answers (S n)) = Normal d ->
          (elapsedAfter answers n < timeoutMs)%Z ->
          (includes (innerText d) "You can vote now!" = true ->
           result = Normal "vote")
          /\ (includes (innerText d) "You can vote now!" = false ->
              includes (innerText d) "You have already voted" = true ->
              result = Normal "already"))
    /\ (forall n,
          (forall j, j < n -> stillWaiting (answers (S j)) = true) ->
          (timeoutMs <= elapsedAfter answers n)%Z ->
          result = Normal "timeout")
    /\ (forall j e, seen (answers j) = Abrupt e ->
                    stillWaiting (answers j) = true)
    /\ snd (run (_waitForVoteStatus c (fun n => calm (answers n)) timeoutMs) w)
       = result.
Proof.
  intros c answers timeoutMs w result. subst result.
  rewrite !run_waitForVoteStatus. simpl fst; simpl snd.
  unfold _waitForVoteStatus.
  pose proof (pollFuel_enough timeoutMs) as Hfuel.
  split; [apply poll_total|]. split; [reflexivity|].
  split; [|split; [|split]].
  - intros n d Hwait Hd Ht.
    assert (Hhit :
      stillWaiting (answers (S n)) = false ->
      outcome (pollLoop c answers timeoutMs (pollFuel timeoutMs) 0 0)
      = Normal (classify d))
      by (intros Hw; apply (@poll_hit c answers timeoutMs n); auto).
    rewrite (stillWaiting_normal _ Hd) in Hhit.
    split.
    + intros Hv. rewrite Hv in Hhit. rewrite Hhit by reflexivity.
      destruct (classify_cases d) as [[_ ->]|[[H3 _]|[H3 _]]];
        [reflexivity | congruence | congruence].
    + intros Hv Ha. rewrite Hv, Ha in Hhit. rewrite Hhit by reflexivity.
      destruct (classify_cases d) as [[H3 _]|[[_ [_ ->]]|[_ [H3 _]]]];
        [congruence | reflexivity | congruence].
  - intros n Hw Ht. apply (@poll_timeout c answers timeoutMs n); auto.
  - intros j e He. unfold stillWaiting. now rewrite He.
  - apply poll_calm.
Qed.

(* ================================================================== *)
(** ** The worker *)
(* ================================================================== *)

Ltac run_steps :=
  repeat first
    [ rewrite run_bind | rewrite run_log | rewrite run_await
    | rewrite run_delay | rewrite run_incr | rewrite run_try_catch
    | rewrite run_voteForBot | rewrite run_waitForVoteStatus
    | rewrite tell_tell | rewrite count_tell
    | progress cbn [run negb] ].

Lemma run_handleSingle_invalid c a token proxy w :
  checked a <> Normal true ->
  run (_handleSingle c a token proxy) w
  = run (_handleError c (invalidToken token))
      (count CInvalid (tell (validation c a token) w)).
Proof.
  intros Hbad. unfold _handleSingle, validation, invalidToken.
  run_steps.
  destruct (checked a) as [[|]|e]; [congruence | |]; run_steps;
    cbn [negb]; run_steps; rewrite <- ?app_assoc; reflexivity.
Qed.

Lemma run_handleSingle_valid c a token proxy w :
  checked a = Normal true ->
  run (_handleSingle c a token proxy) w
  = let w1 :=
      tell (validation c a token
            ++ said c ("Attempting vote for token " ++ shortToken token
                       ++ "...")
            ++ emitted (_voteForBot c (session a) token proxy)) w in
    match outcome (_voteForBot c (session a) token proxy) with
    | Normal true =>
        (tell (said c ("Voted successfully for " ++ shortToken token))
           (count CSuccess w1), Normal tt)
    | Normal false =>
        (tell (said c ("Skipped (already voted or unavailable) for "
                       ++ shortToken token))
           (count CFailed w1), Normal tt)
    | Abrupt err =>
        run (_handleError c (tokenError token err))
          (tell (said c ("Vote attempt failed for " ++ shortToken token
                         ++ ": " ++ message err))
             (count CFailed w1))
    end.
Proof.
  intros Hok. unfold _handleSingle, validation, tokenError.
  rewrite Hok. run_steps. cbn [negb]. run_steps.
  destruct (outcome (_voteForBot c (session a) token proxy)) as [[|]|err];
    run_steps; rewrite <- ?app_assoc; reflexivity.
Qed.




(** What the error policy leaves behind. *)
Lemma run_handleError c err w :
  exists evs,
    fst (run (_handleError c err) w)
    = tell evs (match errorLog c with
                | Some _ => hand err w
                | None => w
                end)
    /\ browserless evs = true
    /\ snd (run (_handleError c err) w)
       = match errorLog c with
         | Some h =>
             match h (handled w) err with
             | None => Normal tt
             | Some e' => Abrupt e'
             end
         | None => Abrupt err
         end.
Proof.
  pose proof (run_handleError_cases c err w) as H.
  destruct (errorLog c) as [h|].
  - destruct (h (handled w) err) as [e'|]; rewrite H.
    + eexists; simpl; repeat split; reflexivity.
    + exists []. simpl. now rewrite tell_nil.
  - rewrite H. exists []. simpl. now rewrite tell_nil.
Qed.


(** C3, amended.  Every run of the worker records one outcome, also
    when it ends by throwing: when the voting routine raised, the
    worker counts the account as failed before it hands the error to
    the policy, so the count stands whether or not the policy lets the
    error through (with no [errorLog], it does). *)
Theorem one_outcome_per_attempt :
  forall c a token proxy w,
    let done := run (_handleSingle c a token proxy) w in
    (exists ctr, stats (fst done) = bump ctr (stats w))
    /\ (forall err,
          checked a = Normal true ->
          outcome (_voteForBot c (session a) token proxy) = Abrupt err ->
          stats (fst done) = bump CFailed (stats w)
          /\ (errorLog c = None -> snd done = Abrupt (tokenError token err))).
Proof.
  intros c a token proxy w done. split.
  - apply handleSingle_bumps_one.
  - intros err Hok Hout. subst done.
    rewrite run_handleSingle_valid by assumption. rewrite Hout. cbv zeta.
    match goal with
    | |- context [run (_handleError c ?e) ?w0] =>
        destruct (run_handleError c e w0) as [evs [Hw [_ Hr]]]
    end.
    rewrite Hw, Hr. split; [destruct (errorLog c); reflexivity|].
    now intros ->.
Qed.

(* ================================================================== *)
(** ** The voting routine and its teardown *)
(* ================================================================== *)

Ltac read_off :=
  repeat first
    [ rewrite outcome_bind | rewrite outcome_log | rewrite outcome_await
    | rewrite outcome_try_catch | rewrite outcome_try_finally
    | rewrite emitted_bind | rewrite emitted_log | rewrite emitted_await
    | rewrite emitted_try_catch | rewrite emitted_try_finally
    | progress cbn [outcome emitted app] ].

Lemma outcome_closeBrowser c s shortT :
  outcome (closeBrowser c s shortT) = Normal tt.
Proof.
  unfold closeBrowser. read_off. destruct (closed s) as [[]|e]; read_off;
    reflexivity.
Qed.

Lemma emitted_closeBrowser c s token :
  emitted (closeBrowser c s (shortToken token)) = teardown c s token.
Proof.
  unfold closeBrowser, teardown. read_off.
  destruct (closed s) as [[]|e]; read_off; now rewrite ?app_nil_r.
Qed.

Lemma voteForBot_connected c s token proxy :
  connection s = Connected ->
  outcome (_voteForBot c s token proxy) = outcome (voteSession c s token)
  /\ emitted (_voteForBot c s token proxy)
     = (connecting c token proxy
        ++ (emitted (voteSession c s token)
            ++ rethrown c token (outcome (voteSession c s token)))
        ++ teardown c s token)%list.
Proof.
  intros Hc. unfold _voteForBot, settle, raced, connecting. rewrite Hc.
  read_off. rewrite outcome_closeBrowser, emitted_closeBrowser.
  assert (Hproxy :
    emitted (if truthy proxy
             then _log c ("Using proxy: " ++ match proxy with
                                             | Some p => p
                                             | None => ""
                                             end)
             else Ret tt)
    = (if truthy proxy
       then said c ("Using proxy: " ++ match proxy with
                                       | Some p => p
                                       | None => ""
                                       end)
       else [])
    /\ outcome (if truthy proxy
                then _log c ("Using proxy: " ++ match proxy with
                                                | Some p => p
                                                | None => ""
                                                end)
                else Ret tt) = Normal tt)
    by (destruct (truthy proxy); read_off; auto).
  destruct Hproxy as [-> ->].
  destruct (outcome (voteSession c s token)) as [b|err]; read_off;
    rewrite <- ?app_assoc; simpl; rewrite ?app_nil_r; auto.
Qed.

Lemma voteSession_withClosed c s r token :
  voteSession c (withClosed s r) token = voteSession c s token.
Proof. reflexivity. Qed.

(** C7, amended.  Once the session is acquired, [_voteForBot] ends,
    whatever the session did and however it ended, by calling
    [browser.close()]; what the routine returns or throws is what its
    session returned or threw, whatever [close] answers; a failure of
    [close] is never thrown, and it is handed to [_log], which prints
    it when [verbose] is on and prints nothing when it is off. *)
Theorem teardown_always_runs :
  forall c s token proxy w,
    connection s = Connected ->
    let done := run (_voteForBot c s token proxy) w in
    (exists before,
       trace (fst done)
       = (trace w ++ before
          ++ said c ("Closing browser for " ++ shortToken token ++ "...")
          ++ [BrowserClose]
          ++ said c (match closed s with
                     | Normal _ =>
                         "Browser closed successfully for "
                         ++ shortToken token
                     | Abrupt closeErr =>
                         "Error closing browser for " ++ shortToken token
                         ++ ": " ++ message closeErr
                     end))%list)
    /\ (forall closeErr,
          closed s = Abrupt closeErr ->
          exists before,
            trace (fst done)
            = (trace w ++ before ++ [BrowserClose]
               ++ (if verbose c
                   then [ConsoleLog ("[AutoClient] Error closing browser for "
                                     ++ shortToken token ++ ": "
                                     ++ message closeErr)]
                   else []))%list)
    /\ snd done = outcome (voteSession c s token)
    /\ (forall r,
          snd (run (_voteForBot c (withClosed s r) token proxy) w) = snd done)
    /\ stats (fst done) = stats w.
Proof.
  intros c s token proxy w Hc done. subst done.
  rewrite run_voteForBot. cbn [fst snd].
  destruct (voteForBot_connected c s token proxy Hc) as [Ho He].
  split; [|split; [|split; [|split]]].
  - rewrite He.
    exists (connecting c token proxy
            ++ emitted (voteSession c s token)
            ++ rethrown c token (outcome (voteSession c s token)))%list.
    cbn [trace tell]. unfold teardown. now rewrite <- !app_assoc.
  - intros closeErr Hclose. rewrite He. unfold teardown. rewrite Hclose.
    exists (connecting c token proxy
            ++ emitted (voteSession c s token)
            ++ rethrown c token (outcome (voteSession c s token))
            ++ said c ("Closing browser for " ++ shortToken token ++ "..."))
           %list.
    cbn [trace tell]. rewrite <- !app_assoc. unfold said.
    destruct (verbose c); reflexivity.
  - exact Ho.
  - intros r. rewrite run_voteForBot. cbn [snd].
    destruct (voteForBot_connected c (withClosed s r) token proxy Hc)
      as [Ho' _].
    now rewrite Ho', Ho, voteSession_withClosed.
  - reflexivity.
Qed.

(* ================================================================== *)
(** ** From the poll result to the recorded outcome *)
(* ================================================================== *)

Lemma appears_here part after : appears part (part ++ after).
Proof. exists [], after. reflexivity. Qed.

Lemma appears_refl part : appears part part.
Proof. exists [], []. simpl. now rewrite app_nil_r. Qed.

Lemma appears_right part l1 l2 : appears part l2 -> appears part (l1 ++ l2).
Proof.
  intros [before [after ->]]. exists (l1 ++ before)%list, after.
  now rewrite <- app_assoc.
Qed.

Lemma appears_left part l1 l2 : appears part l1 -> appears part (l1 ++ l2).
Proof.
  intros [before [after ->]]. exists before, (after ++ l2)%list.
  now rewrite <- !app_assoc.
Qed.

Create HintDb appears discriminated.
#[export] Hint Resolve appears_here appears_refl appears_right appears_left
  : appears.

Lemma outcome_evaluate A page (callback : Dom -> Prog A) :
  outcome (evaluate page callback)
  = match page with
    | Normal d => outcome (callback d)
    | Abrupt e => Abrupt e
    end.
Proof. destruct page; reflexivity. Qed.

Lemma emitted_evaluate A page (callback : Dom -> Prog A) :
  emitted (evaluate page callback)
  = Evaluate :: match page with
                | Normal d => emitted (callback d)
                | Abrupt e => []
                end.
Proof. destruct page; reflexivity. Qed.

Lemma outcome_clickFirst wanted d : outcome (clickFirst wanted d) = Normal tt.
Proof. unfold clickFirst; destruct (find wanted (buttons d)); reflexivity. Qed.

Lemma outcome_delay ms : outcome (delay ms) = Normal tt.
Proof. reflexivity. Qed.

Lemma emitted_delay ms : emitted (delay ms) = [Sleep ms].
Proof. reflexivity. Qed.

Lemma act_vote c s token d :
  votePage s = Normal d ->
  outcome (act c s (shortToken token) "vote") = Normal true
  /\ emitted (act c s (shortToken token) "vote") = action c token d.
Proof.
  intros Hd. unfold act, action, clicked. cbn [String.eqb Ascii.eqb Bool.eqb].
  read_off. rewrite outcome_delay, emitted_delay. read_off.
  rewrite outcome_evaluate, emitted_evaluate, Hd, outcome_clickFirst.
  read_off. rewrite outcome_delay, emitted_delay.
  split; [reflexivity|]. unfold clickFirst. fold isVoteButton.
  destruct (find isVoteButton (buttons d)); simpl; now rewrite ?app_nil_r.
Qed.

Lemma act_vote_fails c s token e :
  votePage s = Abrupt e ->
  outcome (act c s (shortToken token) "vote") = Abrupt e.
Proof.
  intros Hd. unfold act. cbn [String.eqb Ascii.eqb Bool.eqb].
  read_off. rewrite outcome_delay. read_off.
  now rewrite outcome_evaluate, Hd.
Qed.

Lemma act_already c s token :
  outcome (act c s (shortToken token) "already") = Normal false.
Proof. unfold act. cbn [String.eqb Ascii.eqb Bool.eqb]. now read_off. Qed.

Lemma act_timeout c s token :
  outcome (act c s (shortToken token) "timeout") = Normal false.
Proof. unfold act. cbn [String.eqb Ascii.eqb Bool.eqb]. now read_off. Qed.

Lemma fulfilled_unit (r : Completion unit) : fulfilled r = true -> r = Normal tt.
Proof. destruct r as [[]|e]; [reflexivity | discriminate]. Qed.

(** Past authentication, the session ends as the action on the poll
    result does, and its last calls are those of the action. *)
Ltac read_session :=
  repeat first
    [ rewrite outcome_delay | rewrite emitted_delay
    | rewrite outcome_evaluate | rewrite emitted_evaluate
    | rewrite outcome_clickFirst
    | progress read_off ].

Lemma voteSession_polled c s token status :
  authenticates s = true ->
  outcome (_waitForVoteStatus c (probes s) 60000) = Normal status ->
  outcome (voteSession c s token) = outcome (act c s (shortToken token) status)
  /\ appears (emitted (act c s (shortToken token) status))
       (emitted (voteSession c s token)).
Proof.
  unfold authenticates. intros Hauth Hpoll.
  repeat (apply andb_prop in Hauth; destruct Hauth as [Hauth ?]).
  destruct (landingPage s) as [landing|] eqn:Hlanding; [|discriminate].
  destruct (homePage s) as [home|] eqn:Hhome; [|discriminate].
  unfold voteSession.
  repeat match goal with
         | H : fulfilled _ = true |- _ => apply fulfilled_unit in H; rewrite H
         end.
  rewrite Hhome, Hlanding. read_session.
  match goal with
  | H : negb _ = true |- _ => rewrite H
  end.
  cbn [negb]. read_session. rewrite Hpoll. read_session.
  split; [reflexivity|].
  repeat first [ apply appears_refl
               | apply appears_right
               | match goal with
                 | |- appears ?x (?ev :: ?l) =>
                     change (appears x ([ev] ++ l))
                 end ].
Qed.

Lemma voteForBot_polled c s token proxy status :
  connection s = Connected ->
  authenticates s = true ->
  outcome (_waitForVoteStatus c (probes s) 60000) = Normal status ->
  outcome (_voteForBot c s token proxy)
  = outcome (act c s (shortToken token) status)
  /\ appears (emitted (act c s (shortToken token) status))
       (emitted (_voteForBot c s token proxy)).
Proof.
  intros Hc Hauth Hpoll.
  destruct (voteForBot_connected c s token proxy Hc) as [Ho He].
  destruct (voteSession_polled c s token Hauth Hpoll) as [Hs Ha].
  split; [congruence|].
  rewrite He. apply appears_right, appears_left, appears_left, Ha.
Qed.

(** C8, amended.  A worker whose session got as far as the poller
    records what the poll result says.  On "vote" it goes through the
    action sequence (the settle delay, the click, the delay after it)
    and counts a success, unless the call that is to click fails: then
    the account is counted as failed and the error goes to the error
    policy.  On "already" and on "timeout" it counts a failure, in the
    same counter, without throwing and without calling the error
    policy. *)
Theorem poll_result_decides_outcome :
  forall c a token proxy w status,
    checked a = Normal true ->
    connection (session a) = Connected ->
    authenticates (session a) = true ->
    outcome (_waitForVoteStatus c (probes (session a)) 60000)
    = Normal status ->
    let done := run (_handleSingle c a token proxy) w in
    (status = "vote" ->
     forall d, votePage (session a) = Normal d ->
       snd done = Normal tt
       /\ stats (fst done) = bump CSuccess (stats w)
       /\ exists before after,
            trace (fst done)
            = (trace w ++ before ++ action c token d ++ after)%list)
    /\ (status = "vote" ->
        forall e, votePage (session a) = Abrupt e ->
          stats (fst done) = bump CFailed (stats w)
          /\ match errorLog c with
             | Some h =>
                 handled (fst done) = (handled w ++ [tokenError token e])%list
                 /\ snd done = match h (handled w) (tokenError token e) with
                               | None => Normal tt
                               | Some e' => Abrupt e'
                               end
             | None => snd done = Abrupt (tokenError token e)
             end)
    /\ (status = "already" \/ status = "timeout" ->
        snd done = Normal tt
        /\ stats (fst done) = bump CFailed (stats w)
        /\ handled (fst done) = handled w).
Proof.
  intros c a token proxy w status Hok Hc Hauth Hpoll done. subst done.
  rewrite run_handleSingle_valid by assumption. cbv zeta.
  destruct (voteForBot_polled c (session a) token proxy Hc Hauth Hpoll)
    as [Ho He].
  rewrite Ho. split; [|split].
  - intros -> d Hd. destruct (act_vote c (session a) token Hd) as [Hact Hev].
    rewrite Hact. cbn [fst snd].
    split; [reflexivity|]. split; [reflexivity|].
    rewrite Hev in He.
    assert (Hin : appears (action c token d)
                    ((validation c a token
                      ++ said c ("Attempting vote for token "
                                 ++ shortToken token ++ "...")
                      ++ emitted (_voteForBot c (session a) token proxy))
                     ++ said c ("Voted successfully for "
                                ++ shortToken token)))
      by (apply appears_left, appears_right, appears_right, He).
    destruct Hin as [before [after Hin]]. exists before, after.
    cbn [trace tell count]. now rewrite <- app_assoc, Hin.
  - intros -> e Hd. rewrite (act_vote_fails c (session a) token Hd).
    match goal with
    | |- context [run (_handleError c ?err) ?w0] =>
        destruct (run_handleError c err w0) as [evs [Hw [_ Hr]]]
    end.
    rewrite Hw, Hr.
    destruct (errorLog c); cbn [stats handled tell hand count];
      repeat split; reflexivity.
  - intros [-> | ->]; rewrite ?act_already, ?act_timeout; simpl;
      repeat split; reflexivity.
Qed.

(** C10, amended.  On "vote", when the call that is to click is
    answered, and whatever the vote page [d] it finds, the routine
    returns [true] and the worker counts a success: the callback clicks
    the first enabled button whose text contains "Vote" if there is one,
    and clicks nothing, and throws nothing, if there is none. *)
Theorem vote_click_is_best_effort :
  forall c a token proxy w d,
    checked a = Normal true ->
    connection (session a) = Connected ->
    authenticates (session a) = true ->
    outcome (_waitForVoteStatus c (probes (session a)) 60000)
    = Normal "vote" ->
    votePage (session a) = Normal d ->
    let done := run (_handleSingle c a token proxy) w in
    outcome (_voteForBot c (session a) token proxy) = Normal true
    /\ snd done = Normal tt
    /\ stats (fst done) = bump CSuccess (stats w)
    /\ (exists before after,
          trace (fst done)
          = (trace w ++ before
             ++ (said c ("Attempting to click vote button for "
                         ++ shortToken token ++ "...")
                 ++ [Sleep 3000; Evaluate]
                 ++ clicked d
                 ++ said c ("Vote button clicked for " ++ shortToken token)
                 ++ [Sleep 5000])
             ++ after)%list)
    /\ (find isVoteButton (buttons d) = None -> clicked d = [])
    /\ (forall b, find isVoteButton (buttons d) = Some b ->
                  clicked d = [ButtonClick b]).
Proof.
  intros c a token proxy w d Hok Hc Hauth Hpoll Hd done. subst done.
  rewrite run_handleSingle_valid by assumption. cbv zeta.
  destruct (voteForBot_polled c (session a) token proxy Hc Hauth Hpoll)
    as [Ho He].
  destruct (act_vote c (session a) token Hd) as [Hact Hev].
  rewrite Ho, Hact. cbn [fst snd].
  split; [reflexivity|]. split; [reflexivity|]. split; [reflexivity|].
  split; [|split].
  - rewrite Hev in He.
    assert (Hin : appears (action c token d)
                    ((validation c a token
                      ++ said c ("Attempting vote for token "
                                 ++ shortToken token ++ "...")
                      ++ emitted (_voteForBot c (session a) token proxy))
                     ++ said c ("Voted successfully for "
                                ++ shortToken token)))
      by (apply appears_left, appears_right, appears_right, He).
    destruct Hin as [before [after Hin]]. exists before, after.
    cbn [trace tell count]. unfold action in Hin.
    now rewrite <- app_assoc, Hin.
  - unfold clicked. now intros ->.
  - unfold clicked. now intros b ->.
Qed.

(* ================================================================== *)
(** ** Dispatch *)
(* ================================================================== *)







(* ================================================================== *)
(** ** The counters of a cycle *)
(* ================================================================== *)

Lemma total_run A (p : Prog A) :
  forall w, total (stats (fst (run p w))) = total (stats w).
Proof.
  induction p; simpl; intros w; auto.
  - now rewrite IHp.
  - rewrite IHp. apply total_bump.
  - now rewrite H.
Qed.

Lemma total_resume A (p : Prog A) :
  forall w, total (stats (fst (resume p w))) = total (stats w).
Proof.
  induction p; simpl; intros w; auto.
  - now rewrite IHp.
  - rewrite IHp. apply total_bump.
  - now rewrite H.
Qed.

Lemma total_launch ps :
  forall w, total (stats (fst (launch ps w))) = total (stats w).
Proof.
  induction ps as [|p ps IH]; intros w; simpl; auto.
  pose proof (total_resume p w) as Hp.
  destruct (resume p w) as [w1 p1]. specialize (IH w1).
  destruct (launch ps w1) as [w2 pool]. simpl in *. congruence.
Qed.

Lemma total_wake i st :
  total (stats (fst (wake i st))) = total (stats (fst st)).
Proof.
  unfold wake. destruct (nth_error (snd st) i) as [p|]; auto.
  pose proof (total_resume p (fst st)) as Hp.
  destruct (resume p (fst st)) as [w' p']. exact Hp.
Qed.

Lemma total_interleave sched :
  forall st, total (stats (fst (interleave sched st))) = total (stats (fst st)).
Proof.
  induction sched as [|i sched IH]; intros st; simpl; auto.
  fold (interleave sched (wake i st)). rewrite IH. apply total_wake.
Qed.

Lemma total_drain pool :
  forall w, total (stats (fst (drain pool w))) = total (stats w).
Proof.
  induction pool as [|p pool IH]; intros w; simpl; auto.
  pose proof (total_run p w) as Hp.
  destruct (run p w) as [w1 r]. specialize (IH w1).
  destruct (drain pool w1) as [w2 rs]. simpl in *. congruence.
Qed.

Lemma parallelCycle_total c accounts sched w :
  total (stats (fst (_parallelCycle c accounts sched w))) = total (stats w).
Proof.
  unfold _parallelCycle.
  pose proof (total_launch (promises c accounts) w) as H1.
  destruct (launch (promises c accounts) w) as [w1 pool].
  pose proof (total_interleave sched (w1, pool)) as H2.
  destruct (interleave sched (w1, pool)) as [w2 pool'].
  pose proof (total_drain pool' w2) as H3.
  destruct (drain pool' w2) as [w3 outs]. simpl in *. congruence.
Qed.

Lemma dispatch_total c cy w :
  total (stats (fst (dispatch c cy w))) = total (stats w).
Proof.
  unfold dispatch. destruct (runInParallel c);
    [apply parallelCycle_total | apply total_run].
Qed.

(** A round of the loop that goes on to the next leaves the counters
    reset. *)
Lemma iteration_resets quotient c cy w w' :
  iteration quotient c cy w = (w', Normal tt) ->
  stats w' = mkStats (total (stats w)) 0 0 0.
Proof.
  unfold iteration. rewrite run_log.
  pose proof (dispatch_total c cy
                (tell (said c ("Starting cycle for "
                               ++ show (total (stats w)) ++ " token(s)..."))
                   w)) as Hd.
  destruct (dispatch c cy _) as [w2 r]. simpl in Hd.
  assert (Hh : forall err,
            total (stats (fst (run (_log c ("Fatal cycle error: "
                                            ++ message err) ;;
                                    _handleError c err) w2)))
            = total (stats w2)) by (intros; apply total_run).
  destruct r as [[]|err].
  - rewrite run_log, run_bind, run_log, run_delay.
    intros H; inversion H; subst; simpl. now rewrite Hd.
  - specialize (Hh err).
    destruct (run (_log c ("Fatal cycle error: " ++ message err) ;;
                   _handleError c err) w2) as [w3 [[]|e]];
      [|discriminate].
    rewrite run_log, run_bind, run_log, run_delay.
    intros H; inversion H; subst; simpl in *. congruence.
Qed.


Lemma sequentialCycle_balances c accounts w w' :
  run (_sequentialCycle c accounts) w = (w', Normal tt) ->
  recorded (stats w') = length (tokenList c) + recorded (stats w).
Proof.
  intros Hrun.
  destruct (@run_paths _ (_sequentialCycle c accounts)
              (fun _ m => m = length (tokenList c))
              (fun _ m => within false (length (tokenList c)) m)
              w w' (Normal tt) (sequentialFrom_owes c accounts _ 0) Hrun)
    as [_ [d [Hd ->]]].
  exact Hd.
Qed.

Lemma parallelCycle_balances c accounts sched w :
  recorded (stats (fst (_parallelCycle c accounts sched w)))
  = length (tokenList c) + recorded (stats w).
Proof.
  unfold _parallelCycle.
  pose proof (promises_owes c accounts (tokenList c) 0) as HF.
  fold (promises c accounts) in HF.
  destruct (launch_owes w HF) as [_ [rs [HF' Hsum]]].
  rewrite list_sum_repeat_1 in Hsum.
  destruct (launch (promises c accounts) w) as [w1 pool]; simpl in *.
  assert (HB : Balanced true (length (tokenList c) + recorded (stats w))
                 (w1, pool))
    by (exists rs; split; [exact HF' | simpl; lia]).
  apply (Balanced_interleave sched) in HB.
  destruct (interleave sched (w1, pool)) as [w2 pool'].
  destruct HB as [rs' [HFi Hsi]]; simpl in *.
  destruct (drain_owes w2 HFi) as [_ Hd].
  destruct (drain pool' w2) as [w3 outs]; simpl in *. lia.
Qed.

(* ================================================================== *)
(** ** Every execution is a sequence of synchronous steps *)
(* ================================================================== *)


















(* ================================================================== *)
(** ** Errors and the loop *)
(* ================================================================== *)

Lemma firstFailure_found c accounts rest :
  forall i k tok e,
    nth_error rest k = Some tok ->
    outcome (_handleSingle c (accounts (i + k)) tok (proxyFor c (i + k)))
    = Abrupt e ->
    exists e', firstFailure c accounts i rest = Some e'.
Proof.
  induction rest as [|tok0 rest IH]; intros i [|k] tok e Hk He; simpl in *;
    try discriminate.
  - inversion Hk; subst. rewrite Nat.add_0_r in He. rewrite He. eauto.
  - destruct (outcome (_handleSingle c (accounts i) tok0 (proxyFor c i)));
      eauto.
    apply (IH (S i) k tok e Hk). now rewrite Nat.add_succ_r in He.
Qed.

Lemma firstFailure_origin c accounts rest :
  forall i e,
    firstFailure c accounts i rest = Some e ->
    exists k tok,
      nth_error rest k = Some tok
      /\ outcome (_handleSingle c (accounts (i + k)) tok (proxyFor c (i + k)))
         = Abrupt e.
Proof.
  induction rest as [|tok0 rest IH]; intros i e Hf; simpl in *;
    try discriminate.
  destruct (outcome (_handleSingle c (accounts i) tok0 (proxyFor c i)))
    as [[]|e0] eqn:Ho.
  - destruct (IH _ _ Hf) as [k [tok [Hk He]]].
    exists (S k), tok. rewrite Nat.add_succ_r. auto.
  - inversion Hf; subst. exists 0, tok0. rewrite Nat.add_0_r. auto.
Qed.

(** With no [errorLog], the serial cycle ends with the error of the
    first account that fails, and returns when none does. *)
Lemma sequentialFrom_no_handler c accounts rest :
  errorLog c = None ->
  forall i w,
    snd (run (sequentialFrom c accounts i rest) w)
    = match firstFailure c accounts i rest with
      | Some e => Abrupt e
      | None => Normal tt
      end.
Proof.
  intros Hno. induction rest as [|tok rest IH]; intros i w; [reflexivity|].
  cbn [sequentialFrom firstFailure]. unfold serialTurn, onSerialError.
  rewrite !run_bind, run_log, run_try_catch.
  destruct (@run_no_call _ _ (handleSingle_no_call c (accounts i) tok
                                (proxyFor c i) Hno)
              (tell (said c ("Processing token " ++ show (i + 1) ++ "/"
                             ++ show (length (tokenList c)) ++ "...")) w))
    as [Ho _].
  destruct (run (_handleSingle c (accounts i) tok (proxyFor c i)) _)
    as [w1 r]. simpl in Ho. subst r.
  destruct (outcome (_handleSingle c (accounts i) tok (proxyFor c i)))
    as [[]|e].
  - apply IH.
  - rewrite run_bind, run_log, (run_handleError_none _ _ _ Hno). reflexivity.
Qed.

Lemma iteration_serial_no_handler quotient c cy w :
  errorLog c = None -> runInParallel c = false ->
  snd (iteration quotient c cy w)
  = match firstFailure c (accounts cy) 0 (tokenList c) with
    | Some e => Abrupt e
    | None => Normal tt
    end.
Proof.
  intros Hno Hser. unfold iteration, dispatch. rewrite Hser, run_log.
  pose proof (sequentialFrom_no_handler c (accounts cy) (tokenList c) Hno 0
                (tell (said c ("Starting cycle for "
                               ++ show (total (stats w)) ++ " token(s)..."))
                   w)) as Hs.
  fold (_sequentialCycle c (accounts cy)) in Hs.
  destruct (run (_sequentialCycle c (accounts cy)) _) as [w2 r].
  simpl in Hs. subst r.
  destruct (firstFailure c (accounts cy) 0 (tokenList c)) as [e|].
  - rewrite run_bind, run_log, (run_handleError_none _ _ _ Hno). reflexivity.
  - rewrite run_log, run_bind, run_log, run_delay. reflexivity.
Qed.

(** The concurrent cycle never throws: [Promise.allSettled] waits for
    every promise and is fulfilled whatever became of them. *)
Lemma parallelCycle_returns c accounts sched w :
  snd (_parallelCycle c accounts sched w) = Normal tt.
Proof.
  unfold _parallelCycle.
  destruct (launch (promises c accounts) w) as [w1 pool].
  destruct (interleave sched (w1, pool)) as [w2 pool'].
  destruct (drain pool' w2) as [w3 outs]. reflexivity.
Qed.

Lemma iteration_parallel quotient c cy w :
  runInParallel c = true -> snd (iteration quotient c cy w) = Normal tt.
Proof.
  intros Hpar. unfold iteration, dispatch. rewrite Hpar, run_log.
  pose proof (parallelCycle_returns c (accounts cy) (schedule cy)
                (tell (said c ("Starting cycle for "
                               ++ show (total (stats w)) ++ " token(s)..."))
                   w)) as Hp.
  destruct (_parallelCycle c (accounts cy) (schedule cy) _) as [w2 r].
  simpl in Hp. subst r.
  rewrite run_log, run_bind, run_log, run_delay. reflexivity.
Qed.

(** The two modes and the errors of the accounts.  With no [errorLog]
    configured, in serial mode an error raised while an account is
    processed is thrown out of [autovoteBot] and ends the loop: the loop
    stops with the error of an account that failed.  In concurrent mode
    (with or without an [errorLog]) nothing is thrown out of
    [autovoteBot]: the rejection of the account's promise ends in
    [Promise.allSettled], and the loop goes on. *)
Lemma error_stops_serial_loop :
  forall quotient c cycles w,
    (runInParallel c = false -> errorLog c = None ->
     someAccountFails c cycles ->
     exists w' e,
       autovoteBot quotient c cycles w = (w', Stopped e)
       /\ exists cy i tok,
            In cy cycles /\ nth_error (tokenList c) i = Some tok
            /\ outcome (_handleSingle c (accounts cy i) tok (proxyFor c i))
               = Abrupt e)
    /\ (runInParallel c = true ->
        snd (autovoteBot quotient c cycles w) = Looping).
Proof.
  intros quotient c cycles. induction cycles as [|cy cycles IH]; intros w.
  - split; [|reflexivity].
    intros _ _ [cy [i [tok [e [[] _]]]]].
  - split.
    + intros Hser Hno Hfail. cbn [autovoteBot].
      pose proof (@iteration_serial_no_handler quotient c cy w Hno Hser) as Hit.
      destruct (iteration quotient c cy w) as [w1 r]. simpl in Hit. subst r.
      destruct (firstFailure c (accounts cy) 0 (tokenList c)) as [e|] eqn:Hf.
      * exists w1, e. split; [reflexivity|].
        destruct (@firstFailure_origin c (accounts cy) (tokenList c) 0 e Hf)
          as [k [tok [Hk He]]].
        exists cy, k, tok. simpl in He. split; [now left | auto].
      * assert (Hrest : someAccountFails c cycles).
        { destruct Hfail as [cy' [i [tok [e [[<-|Hin] [Hi He]]]]]].
          - destruct (@firstFailure_found c (accounts cy) (tokenList c)
                        0 i tok e Hi He) as [e' He'].
            congruence.
          - exists cy', i, tok, e. auto. }
        destruct (proj1 (IH w1) Hser Hno Hrest)
          as [w' [e [Hrun [cy' [i [tok [Hin Hrest']]]]]]].
        exists w', e. split; [exact Hrun|].
        exists cy', i, tok. split; [now right | exact Hrest'].
    + intros Hpar. cbn [autovoteBot].
      pose proof (@iteration_parallel quotient c cy w Hpar) as Hit.
      destruct (iteration quotient c cy w) as [w1 r]. simpl in Hit. subst r.
      apply (proj2 (IH w1) Hpar).
Qed.

(* ================================================================== *)
(** ** The constructor *)
(* ================================================================== *)





(* ================================================================== *)
(** ** The calls of the loop *)
(* ================================================================== *)

Lemma Emits_weaken A (P Q : Event -> Prop) (p : Prog A) :
  (forall ev, P ev -> Q ev) -> Emits P p -> Emits Q p.
Proof.
  intros HPQ. induction p; simpl; intros Hp; auto.
  destruct Hp; auto.
Qed.

Lemma Emits_bind A B P (p : Prog A) (f : A -> Prog B) :
  Emits P p -> (forall a, Emits P (f a)) -> Emits P (bind p f).
Proof.
  intros Hp Hf. induction p; simpl in *; auto.
  destruct Hp; auto.
Qed.

Lemma Emits_try_catch A P (p : Prog A) handler :
  Emits P p -> (forall e, Emits P (handler e)) -> Emits P (try_catch p handler).
Proof.
  intros Hp Hh. induction p; simpl in *; auto.
  destruct Hp; auto.
Qed.

Lemma Emits_try_finally A P (p : Prog A) fin :
  Emits P p -> Emits P fin -> Emits P (try_finally p fin).
Proof.
  intros Hp Hf. induction p; simpl in *; auto.
  - apply Emits_bind; simpl; auto.
  - apply Emits_bind; simpl; auto.
  - destruct Hp; auto.
Qed.

Lemma Emits_settle A P (p : Prog A) : Emits P p -> Emits P (settle p).
Proof.
  intros Hp. unfold settle. apply Emits_try_catch; [|simpl; auto].
  apply Emits_bind; simpl; auto.
Qed.

Lemma Emits_log P c msg :
  (verbose c = true -> P (ConsoleLog ("[AutoClient] " ++ msg))) ->
  Emits P (_log c msg).
Proof. unfold _log. destruct (verbose c); simpl; auto. Qed.

Lemma Emits_await A P ev (answer : Completion A) :
  P ev -> Emits P (await ev answer).
Proof. intros HP. destruct answer; simpl; auto. Qed.

Lemma Emits_delay P ms : P (Sleep ms) -> Emits P (delay ms).
Proof. apply Emits_await. Qed.

Lemma Emits_evaluate A P page (callback : Dom -> Prog A) :
  P Evaluate -> (forall d, Emits P (callback d)) ->
  Emits P (evaluate page callback).
Proof. intros HP Hc. destruct page; simpl; auto. Qed.

Lemma Emits_clickFirst P wanted d :
  (forall b, wanted b = true -> P (ButtonClick b)) ->
  Emits P (clickFirst wanted d).
Proof.
  intros HP. unfold clickFirst.
  destruct (find wanted (buttons d)) as [b|] eqn:Hb; simpl; auto.
  apply find_some in Hb. split; auto. apply HP, Hb.
Qed.

Lemma Emits_handleError P c err :
  (errorLog c <> None ->
   forall e, P (ConsoleError "Error in errorLog function:" e)) ->
  Emits P (_handleError c err).
Proof.
  intros HP. unfold _handleError.
  destruct (errorLog c) as [h|]; simpl; auto.
  intros [e|]; simpl; auto. split; auto. apply HP. discriminate.
Qed.

Lemma Emits_incr P ctr : Emits P (incr ctr).
Proof. exact I. Qed.

Create HintDb emits discriminated.

(** Splits a composed computation into its parts, leaving the calls. *)
Ltac emits :=
  repeat first
    [ exact I
    | solve [auto with emits]
    | apply Emits_bind; [| intros ?]
    | apply Emits_try_catch; [| intros ?]
    | apply Emits_try_finally
    | apply Emits_settle
    | apply Emits_log; intros ?
    | apply Emits_delay
    | apply Emits_await
    | apply Emits_evaluate; [| intros ?]
    | apply Emits_clickFirst; intros ? ?
    | apply Emits_handleError; intros ? ?
    | apply Emits_incr
    | match goal with
      | |- Emits _ (if ?b then _ else _) => destruct b eqn:?
      | |- Emits _ (match ?x with _ => _ end) => destruct x eqn:?
      end ].

Ltac scripted :=
  cbn [workerCall];
  try match goal with
      | H : (_ && negb _)%bool = true |- _ =>
          apply andb_prop in H; destruct H as [? H];
          apply negb_true_iff in H
      end;
  try tauto; try (split; [assumption | eauto]); eauto.

Lemma pollLoop_emits c token proxy answers timeoutMs fuel :
  forall attempts elapsed,
    Emits (workerCall c token proxy)
      (pollLoop c answers timeoutMs fuel attempts elapsed).
Proof.
  induction fuel as [|fuel IH]; intros attempts elapsed; cbn [pollLoop];
    cbv zeta.
  - emits; scripted.
  - destruct (elapsed <? timeoutMs)%Z; emits; try apply IH; scripted.
Qed.

Lemma waitForVoteStatus_emits c token proxy answers timeoutMs :
  Emits (workerCall c token proxy) (_waitForVoteStatus c answers timeoutMs).
Proof. apply pollLoop_emits. Qed.

Lemma closeBrowser_emits c s token proxy shortT :
  Emits (workerCall c token proxy) (closeBrowser c s shortT).
Proof. unfold closeBrowser. emits; scripted. Qed.

Lemma act_emits c s token proxy shortT status :
  Emits (workerCall c token proxy) (act c s shortT status).
Proof. unfold act. emits; scripted. Qed.

#[export] Hint Resolve waitForVoteStatus_emits closeBrowser_emits act_emits
  : emits.

Lemma voteSession_emits c s token proxy :
  Emits (workerCall c token proxy) (voteSession c s token).
Proof. unfold voteSession. emits; scripted. Qed.

#[export] Hint Resolve voteSession_emits : emits.

Lemma voteForBot_emits c s token proxy :
  Emits (workerCall c token proxy) (_voteForBot c s token proxy).
Proof. unfold _voteForBot. emits; scripted. Qed.

#[export] Hint Resolve voteForBot_emits : emits.

Lemma handleSingle_emits c a token proxy :
  Emits (workerCall c token proxy) (_handleSingle c a token proxy).
Proof. unfold _handleSingle. emits; scripted. Qed.

(** *** From the tree to the trace *)

Lemma Grows_refl P w : Grows P w w.
Proof. exists []. now rewrite app_nil_r. Qed.

Lemma Grows_trans P w1 w2 w3 :
  Grows P w1 w2 -> Grows P w2 w3 -> Grows P w1 w3.
Proof.
  intros [evs [H1 F1]] [evs' [H2 F2]]. exists (evs ++ evs')%list. split.
  - now rewrite H2, H1, app_assoc.
  - apply Forall_app; auto.
Qed.

Lemma Grows_weaken (P Q : Event -> Prop) w w' :
  (forall ev, P ev -> Q ev) -> Grows P w w' -> Grows Q w w'.
Proof.
  intros HPQ [evs [H F]]. exists evs. split; auto.
  eapply Forall_impl; eauto.
Qed.

Lemma Grows_emit (P : Event -> Prop) ev w : P ev -> Grows P w (emit ev w).
Proof. intros HP. exists [ev]. split; [reflexivity | auto]. Qed.

Lemma Grows_tell (P : Event -> Prop) evs w :
  Forall P evs -> Grows P w (tell evs w).
Proof. intros HP. exists evs. split; [reflexivity | auto]. Qed.

Lemma Grows_count P ctr w : Grows P w (count ctr w).
Proof. exists []. simpl. now rewrite app_nil_r. Qed.

Lemma Grows_hand P e w : Grows P w (hand e w).
Proof. exists []. simpl. now rewrite app_nil_r. Qed.

Lemma run_emits A P (p : Prog A) :
  Emits P p -> forall w, Grows P w (fst (run p w)).
Proof.
  induction p; simpl; intros Hp w; try apply Grows_refl.
  - destruct Hp as [Hev Hk].
    eapply Grows_trans; [apply Grows_emit, Hev | apply IHp, Hk].
  - eapply Grows_trans; [|apply IHp, Hp]. apply Grows_count.
  - eapply Grows_trans; [|apply H, Hp]. apply Grows_hand.
  - apply IHp, Hp.
Qed.

Lemma resume_emits A P (p : Prog A) :
  Emits P p ->
  forall w, Grows P w (fst (resume p w)) /\ Emits P (snd (resume p w)).
Proof.
  induction p; simpl; intros Hp w; try (split; [apply Grows_refl | auto]).
  - destruct Hp as [Hev Hk]. destruct (IHp Hk (emit ev w)) as [Hg He].
    split; [|exact He].
    eapply Grows_trans; [apply Grows_emit, Hev | exact Hg].
  - destruct (IHp Hp (count ctr w)) as [Hg He]. split; [|exact He].
    eapply Grows_trans; [|exact Hg]. apply Grows_count.
  - destruct (H _ (Hp (h (handled w) e)) (hand e w)) as [Hg He].
    split; [|exact He].
    eapply Grows_trans; [|exact Hg]. apply Grows_hand.
Qed.

Lemma launch_emits P ps :
  Forall (Emits P) ps ->
  forall w, Grows P w (fst (launch ps w))
            /\ Forall (Emits P) (snd (launch ps w)).
Proof.
  induction 1 as [|p ps Hp Hps IH]; intros w; simpl.
  - split; [apply Grows_refl | constructor].
  - destruct (@resume_emits _ P p Hp w) as [Hg He].
    destruct (resume p w) as [w1 p1]. simpl in *.
    destruct (IH w1) as [Hg' He'].
    destruct (launch ps w1) as [w2 pool]. simpl in *.
    split; [eapply Grows_trans; eauto | constructor; auto].
Qed.

Lemma Forall_replace A (P : A -> Prop) (xs : list A) :
  forall i x, Forall P xs -> P x -> Forall P (replace i x xs).
Proof.
  induction xs as [|y xs IH]; intros i x HF Hx; [destruct i; constructor|].
  inversion HF; subst. destruct i; simpl; constructor; auto.
Qed.

Lemma wake_emits P i st :
  Forall (Emits P) (snd st) ->
  Grows P (fst st) (fst (wake i st)) /\ Forall (Emits P) (snd (wake i st)).
Proof.
  intros HF. unfold wake.
  destruct (nth_error (snd st) i) as [p|] eqn:Hp;
    [|split; [apply Grows_refl | exact HF]].
  assert (Hin : Emits P p).
  { apply nth_error_In in Hp. rewrite Forall_forall in HF. auto. }
  destruct (@resume_emits _ P p Hin (fst st)) as [Hg He].
  destruct (resume p (fst st)) as [w' p']. simpl in *.
  split; [exact Hg | apply Forall_replace; auto].
Qed.

Lemma interleave_emits P sched :
  forall st,
    Forall (Emits P) (snd st) ->
    Grows P (fst st) (fst (interleave sched st))
    /\ Forall (Emits P) (snd (interleave sched st)).
Proof.
  induction sched as [|i sched IH]; intros st HF; simpl.
  - split; [apply Grows_refl | exact HF].
  - fold (interleave sched (wake i st)).
    destruct (@wake_emits P i st HF) as [Hg He].
    destruct (IH (wake i st) He) as [Hg' He'].
    split; [eapply Grows_trans; eauto | exact He'].
Qed.

Lemma drain_emits P pool :
  Forall (Emits P) pool -> forall w, Grows P w (fst (drain pool w)).
Proof.
  induction 1 as [|p pool Hp Hpool IH]; intros w; simpl.
  - apply Grows_refl.
  - pose proof (@run_emits _ P p Hp w) as Hg.
    destruct (run p w) as [w1 r]. simpl in *.
    specialize (IH w1). destruct (drain pool w1) as [w2 rs]. simpl in *.
    eapply Grows_trans; eauto.
Qed.

(** *** The calls of a cycle and of the loop *)

Lemma workerCall_cycleCall c i token ev :
  nth_error (tokenList c) i = Some token ->
  workerCall c token (proxyFor c i) ev -> cycleCall c ev.
Proof. intros Hi Hw. exists i, token. auto. Qed.

Lemma cycleCall_log c i token msg :
  nth_error (tokenList c) i = Some token ->
  verbose c = true ->
  cycleCall c (ConsoleLog ("[AutoClient] " ++ msg)).
Proof.
  intros Hi Hv. apply (@workerCall_cycleCall c i token _ Hi). simpl. eauto.
Qed.

Lemma cycleCall_error c i token e :
  nth_error (tokenList c) i = Some token ->
  errorLog c <> None ->
  cycleCall c (ConsoleError "Error in errorLog function:" e).
Proof.
  intros Hi Hv. apply (@workerCall_cycleCall c i token _ Hi). simpl. eauto.
Qed.

Lemma serialTurn_emits c accounts i token :
  nth_error (tokenList c) i = Some token ->
  Emits (cycleCall c) (serialTurn c accounts i token).
Proof.
  intros Hi. unfold serialTurn, onSerialError.
  apply Emits_bind; [apply Emits_log; intros; eapply cycleCall_log; eauto|].
  intros _. apply Emits_try_catch.
  - eapply Emits_weaken; [|apply handleSingle_emits].
    intros ev. apply workerCall_cycleCall, Hi.
  - intros e. apply Emits_bind;
      [apply Emits_log; intros; eapply cycleCall_log; eauto|].
    intros _. apply Emits_handleError. intros; eapply cycleCall_error; eauto.
Qed.

Lemma promise_emits c accounts i token :
  nth_error (tokenList c) i = Some token ->
  Emits (cycleCall c) (promise c accounts i token).
Proof.
  intros Hi. unfold promise, onParallelError.
  apply Emits_try_catch.
  - eapply Emits_weaken; [|apply handleSingle_emits].
    intros ev. apply workerCall_cycleCall, Hi.
  - intros e. cbn [Emits]. apply Emits_bind;
      [apply Emits_log; intros; eapply cycleCall_log; eauto|].
    intros _. apply Emits_handleError. intros; eapply cycleCall_error; eauto.
Qed.

Lemma sequentialFrom_emits c accounts rest :
  forall i,
    (forall k tok, nth_error rest k = Some tok ->
                   nth_error (tokenList c) (i + k) = Some tok) ->
    Emits (cycleCall c) (sequentialFrom c accounts i rest).
Proof.
  induction rest as [|tok rest IH]; intros i Hin; cbn [sequentialFrom].
  - exact I.
  - apply Emits_bind.
    + apply serialTurn_emits. rewrite <- (Nat.add_0_r i). now apply Hin.
    + intros _. apply IH. intros k tok' Hk.
      rewrite Nat.add_succ_l, <- Nat.add_succ_r. now apply Hin.
Qed.

Lemma promises_emits c accounts rest :
  forall i,
    (forall k tok, nth_error rest k = Some tok ->
                   nth_error (tokenList c) (i + k) = Some tok) ->
    Forall (Emits (cycleCall c)) (mapFrom (promise c accounts) i rest).
Proof.
  induction rest as [|tok rest IH]; intros i Hin; cbn [mapFrom].
  - constructor.
  - constructor.
    + apply promise_emits. rewrite <- (Nat.add_0_r i). now apply Hin.
    + apply IH. intros k tok' Hk.
      rewrite Nat.add_succ_l, <- Nat.add_succ_r. now apply Hin.
Qed.

Lemma dispatch_emits c cy w : Grows (cycleCall c) w (fst (dispatch c cy w)).
Proof.
  unfold dispatch. destruct (runInParallel c).
  - unfold _parallelCycle.
    destruct (@launch_emits (cycleCall c) _
                (@promises_emits c (accounts cy) (tokenList c) 0
                   (fun k tok H => H)) w) as [Hg He].
    fold (promises c (accounts cy)) in Hg, He.
    destruct (launch (promises c (accounts cy)) w) as [w1 pool].
    destruct (@interleave_emits (cycleCall c) (schedule cy) (w1, pool) He)
      as [Hg' He'].
    destruct (interleave (schedule cy) (w1, pool)) as [w2 pool'].
    pose proof (@drain_emits (cycleCall c) pool' He' w2) as Hg''.
    destruct (drain pool' w2) as [w3 outs]. simpl in *.
    eapply Grows_trans; [exact Hg|]. eapply Grows_trans; eauto.
  - apply run_emits. unfold _sequentialCycle.
    apply sequentialFrom_emits. intros k tok H. exact H.
Qed.

Lemma loopCall_log c msg :
  verbose c = true -> loopCall c (ConsoleLog ("[AutoClient] " ++ msg)).
Proof. intros Hv. right; left. eauto. Qed.

Lemma log_loopCall c msg : Emits (loopCall c) (_log c msg).
Proof. apply Emits_log. apply loopCall_log. Qed.

Lemma iteration_emits quotient c cy w :
  Grows (loopCall c) w (fst (iteration quotient c cy w)).
Proof.
  unfold iteration.
  pose proof (@run_emits _ (loopCall c) _
                (log_loopCall c ("Starting cycle for "
                                 ++ show (total (stats w)) ++ " token(s)..."))
                w) as H1.
  destruct (run (_log c _) w) as [w1 r1]. simpl in H1.
  pose proof (dispatch_emits c cy w1) as H2.
  apply (@Grows_weaken (cycleCall c) (loopCall c)) in H2;
    [|intros ev; now left].
  destruct (dispatch c cy w1) as [w2 r]. simpl in H2.
  assert (H3 : forall err,
    Grows (loopCall c) w2
      (fst (run (_log c ("Fatal cycle error: " ++ message err) ;;
                 _handleError c err) w2))).
  { intros err. apply run_emits. apply Emits_bind; [apply log_loopCall|].
    intros _. apply Emits_handleError. intros Hh e. right; right; left. eauto. }
  assert (H12 : Grows (loopCall c) w w2) by (eapply Grows_trans; eauto).
  assert (Hrest : forall w3,
    Grows (loopCall c) w w3 ->
    Grows (loopCall c) w
      (fst (let '(w4, _) :=
              run (_log c ("Cycle complete. Success: "
                           ++ show (success (stats w3))
                           ++ ", Failed: " ++ show (failed (stats w3))
                           ++ ", Invalid: " ++ show (invalid (stats w3)))) w3 in
            let w5 := _resetStats w4 in
            run (_log c ("Waiting " ++ quotient (cooldown c) 3600000%Z
                         ++ "h before next cycle...") ;;
                 delay (cooldown c)) w5))).
  { intros w3 Hw3.
    pose proof (@run_emits _ (loopCall c) _
                  (log_loopCall c ("Cycle complete. Success: "
                           ++ show (success (stats w3))
                           ++ ", Failed: " ++ show (failed (stats w3))
                           ++ ", Invalid: " ++ show (invalid (stats w3)))) w3)
      as H4.
    destruct (run (_log c _) w3) as [w4 r4]. simpl in H4.
    assert (H5 : Grows (loopCall c) w4 (_resetStats w4))
      by (exists []; split; [simpl; now rewrite app_nil_r | constructor]).
    eapply Grows_trans; [exact Hw3|]. eapply Grows_trans; [exact H4|].
    eapply Grows_trans; [exact H5|]. apply run_emits.
    apply Emits_bind; [apply log_loopCall|]. intros _.
    apply Emits_delay. right; right; right. reflexivity. }
  destruct r as [[]|err].
  - apply Hrest, H12.
  - specialize (H3 err).
    destruct (run (_log c ("Fatal cycle error: " ++ message err) ;;
                   _handleError c err) w2) as [w3 [[]|e]]; simpl in H3.
    + apply Hrest. eapply Grows_trans; eauto.
    + simpl. eapply Grows_trans; eauto.
Qed.

Lemma autovoteBot_emits quotient c cycles :
  forall w, Grows (loopCall c) w (fst (autovoteBot quotient c cycles w)).
Proof.
  induction cycles as [|cy cycles IH]; intros w; cbn [autovoteBot].
  - apply Grows_refl.
  - pose proof (iteration_emits quotient c cy w) as Hit.
    destruct (iteration quotient c cy w) as [w1 [[]|e]]; simpl in Hit.
    + eapply Grows_trans; [exact Hit | apply IH].
    + exact Hit.
Qed.

Lemma loopCall_cases c ev :
  loopCall c ev ->
  (exists i token, nth_error (tokenList c) i = Some token
                   /\ workerCall c token (proxyFor c i) ev)
  \/ (verbose c = true /\ exists msg, ev = ConsoleLog ("[AutoClient] " ++ msg))
  \/ (errorLog c <> None
      /\ exists e, ev = ConsoleError "Error in errorLog function:" e)
  \/ ev = Sleep (cooldown c).
Proof. intros H; exact H. Qed.

Lemma loop_calls quotient c cycles w :
  exists evs,
    trace (fst (autovoteBot quotient c cycles w)) = (trace w ++ evs)%list
    /\ forall ev, In ev evs -> loopCall c ev.
Proof.
  destruct (autovoteBot_emits quotient c cycles w) as [evs [Ht HF]].
  exists evs. split; [exact Ht|]. now apply Forall_forall.
Qed.

Lemma proxyFor_listed c i x :
  proxyFor c i = Some x -> In x (proxies c).
Proof.
  unfold proxyFor, js_index, js_rem.
  destruct (length (proxies c)); [discriminate|]. apply nth_error_In.
Qed.

(** X3.  What the loop writes to the console, over any number of
    cycles and in both modes: [console.log] is called only when
    [verbose] is on, and every line it prints starts with
    "[AutoClient] "; [console.error] is called only when an [errorLog]
    is configured (it reports what [errorLog] threw). *)
Theorem console_output_is_gated :
  forall quotient c cycles w,
    exists evs,
      trace (fst (autovoteBot quotient c cycles w)) = (trace w ++ evs)%list
      /\ (forall line,
            In (ConsoleLog line) evs ->
            verbose c = true
            /\ exists msg, line = ("[AutoClient] " ++ msg)%string)
      /\ (forall label e,
            In (ConsoleError label e) evs ->
            errorLog c <> None /\ label = "Error in errorLog function:").
Proof.
  intros quotient c cycles w.
  destruct (loop_calls quotient c cycles w) as [evs [Ht Hin]].
  exists evs. split; [exact Ht|]. split.
  - intros line Hl.
    destruct (loopCall_cases (Hin _ Hl))
      as [[i [tok [_ Hw]]]|[[Hv [msg Hm]]|[[_ [e He]]|Hs]]];
      try discriminate.
    + exact Hw.
    + inversion Hm; subst. split; [exact Hv|]. now exists msg.
  - intros label e Hl.
    destruct (loopCall_cases (Hin _ Hl))
      as [[i [tok [_ Hw]]]|[[Hv [msg Hm]]|[[Hh [e' He]]|Hs]]];
      try discriminate.
    + exact Hw.
    + inversion He; subst. auto.
Qed.

(** X4.  Where the loop sends things, over any number of cycles and in
    both modes.  Every [fetchFn] call goes to Discord's [users/@me] with
    a token of the list as [Authorization]; the script installed by
    [evaluateOnNewDocument] carries a token of the list; every
    navigation goes to [https://top.gg] or to the vote page of [botId];
    and every browser is connected with [headless: false],
    [turnstile: true], and either no proxy or a non-empty proxy of the
    list. *)
Theorem calls_go_to_discord_and_topgg :
  forall quotient c cycles w,
    exists evs,
      trace (fst (autovoteBot quotient c cycles w)) = (trace w ++ evs)%list
      /\ (forall url authorization,
            In (Fetch url authorization) evs ->
            url = "https://discord.com/api/v10/users/@me"
            /\ In authorization (tokenList c))
      /\ (forall t, In (EvaluateOnNewDocument t) evs -> In t (tokenList c))
      /\ (forall url timeout,
            In (Goto url timeout) evs ->
            url = "https://top.gg"
            \/ url = ("https://top.gg/bot/" ++ botId c ++ "/vote")%string)
      /\ (forall headless turnstile p,
            In (Connect headless turnstile p) evs ->
            headless = false /\ turnstile = true
            /\ (p = None
                \/ exists x, p = Some x /\ In x (proxies c) /\ x <> "")).
Proof.
  intros quotient c cycles w.
  destruct (loop_calls quotient c cycles w) as [evs [Ht Hin]].
  exists evs. split; [exact Ht|].
  split; [|split; [|split]].
  - intros url auth Hl.
    destruct (loopCall_cases (Hin _ Hl))
      as [[i [tok [Hi Hw]]]|[[Hv [msg Hm]]|[[_ [e He]]|Hs]]];
      try discriminate.
    destruct Hw as [-> ->]. split; [reflexivity|].
    eapply nth_error_In; eauto.
  - intros t Hl.
    destruct (loopCall_cases (Hin _ Hl))
      as [[i [tok [Hi Hw]]]|[[Hv [msg Hm]]|[[_ [e He]]|Hs]]];
      try discriminate.
    simpl in Hw. subst t. eapply nth_error_In; eauto.
  - intros url timeout Hl.
    destruct (loopCall_cases (Hin _ Hl))
      as [[i [tok [Hi Hw]]]|[[Hv [msg Hm]]|[[_ [e He]]|Hs]]];
      try discriminate.
    destruct Hw as [[-> _]|[-> _]]; auto.
  - intros headless turnstile p Hl.
    destruct (loopCall_cases (Hin _ Hl))
      as [[i [tok [Hi Hw]]]|[[Hv [msg Hm]]|[[_ [e He]]|Hs]]];
      try discriminate.
    destruct Hw as [-> [-> Hp]]. split; [reflexivity|].
    split; [reflexivity|]. subst p.
    destruct (truthy (proxyFor c i)) eqn:Htr; [|now left].
    right. destruct (proxyFor c i) as [x|] eqn:Hx; [|discriminate].
    exists x. split; [reflexivity|]. split.
    + eapply proxyFor_listed; eauto.
    + simpl in Htr. intros ->. discriminate.
Qed.

(** X5.  What the loop does on a page and how long it pauses, over any
    number of cycles and in both modes.  A button is clicked from a
    [page.evaluate] callback only if its text contains "Login", or
    contains "Vote" and the button is not disabled; the only selector
    waited for and clicked is that of Discord's authorize button, with
    a 10 s limit; the viewport is set to 1920 by 1080; and every pause
    is 2.5 s, 3 s, 5 s or the [cooldown]. *)
Theorem page_actions_are_scripted :
  forall quotient c cycles w,
    exists evs,
      trace (fst (autovoteBot quotient c cycles w)) = (trace w ++ evs)%list
      /\ (forall b,
            In (ButtonClick b) evs ->
            includes (textContent b) "Login" = true
            \/ (includes (textContent b) "Vote" = true /\ disabled b = false))
      /\ (forall selector,
            In (Click selector) evs -> selector = "div.action__3d3b0 button")
      /\ (forall selector timeout,
            In (WaitForSelector selector timeout) evs ->
            selector = "div.action__3d3b0 button" /\ timeout = 10000%N)
      /\ (forall width height,
            In (SetViewport width height) evs ->
            width = 1920 /\ height = 1080)
      /\ (forall ms,
            In (Sleep ms) evs ->
            (ms = 2500 \/ ms = 3000 \/ ms = 5000 \/ ms = cooldown c)%Z).
Proof.
  intros quotient c cycles w.
  destruct (loop_calls quotient c cycles w) as [evs [Ht Hin]].
  exists evs. split; [exact Ht|].
  split; [|split; [|split; [|split]]].
  - intros b Hl.
    destruct (loopCall_cases (Hin _ Hl))
      as [[i [tok [Hi Hw]]]|[[Hv [msg Hm]]|[[_ [e He]]|Hs]]];
      try discriminate.
    exact Hw.
  - intros selector Hl.
    destruct (loopCall_cases (Hin _ Hl))
      as [[i [tok [Hi Hw]]]|[[Hv [msg Hm]]|[[_ [e He]]|Hs]]];
      try discriminate.
    exact Hw.
  - intros selector timeout Hl.
    destruct (loopCall_cases (Hin _ Hl))
      as [[i [tok [Hi Hw]]]|[[Hv [msg Hm]]|[[_ [e He]]|Hs]]];
      try discriminate.
    exact Hw.
  - intros width height Hl.
    destruct (loopCall_cases (Hin _ Hl))
      as [[i [tok [Hi Hw]]]|[[Hv [msg Hm]]|[[_ [e He]]|Hs]]];
      try discriminate.
    exact Hw.
  - intros ms Hl.
    destruct (loopCall_cases (Hin _ Hl))
      as [[i [tok [Hi Hw]]]|[[Hv [msg Hm]]|[[_ [e He]]|Hs]]];
      try discriminate.
    + simpl in Hw. tauto.
    + inversion Hs. tauto.
Qed.

(* ================================================================== *)
(** ** Sessions that do not get to the vote *)
(* ================================================================== *)

(** The session's program step by step: one awaited call after the
    other, each ending the session when it is rejected. *)
Ltac answered x :=
  destruct x as [?|?] eqn:?; read_session; rewrite ?outcome_clickFirst.

Lemma voteSession_unauthenticated c s token :
  authenticates s = false ->
  exists e, outcome (voteSession c s token) = Abrupt e.
Proof.
  unfold authenticates, voteSession. intros Hauth. read_session.
  answered (onNewDocument s); [|eexists; reflexivity].
  answered (homeLoaded s); [|eexists; reflexivity].
  answered (homePage s); [|eexists; reflexivity].
  answered (leftForDiscord s); [|eexists; reflexivity].
  answered (viewportSet s); [|eexists; reflexivity].
  answered (authorizeShown s); [|eexists; reflexivity].
  answered (authorizeClicked s); [|eexists; reflexivity].
  answered (cameBack s); [|eexists; reflexivity].
  destruct (landingPage s) as [landing|] eqn:Hlanding; read_session;
    [|eexists; reflexivity].
  destruct (includes (innerText landing) "Login") eqn:Hlogin; cbn [negb];
    read_session; [eexists; reflexivity|].
  answered (voteLoaded s); [|eexists; reflexivity].
  simpl in Hauth. discriminate.
Qed.

Lemma voteSession_logged_out c s token d :
  reachesLoginCheck s = true ->
  landingPage s = Normal d ->
  includes (innerText d) "Login" = true ->
  outcome (voteSession c s token)
  = Abrupt (mkError "Authorization failed - Discord OAuth did not complete").
Proof.
  unfold reachesLoginCheck, voteSession. intros Hreach Hd Hlogin.
  repeat (apply andb_prop in Hreach; destruct Hreach as [Hreach ?]).
  destruct (homePage s) as [home|] eqn:Hhome; [|discriminate].
  repeat match goal with
         | H : fulfilled _ = true |- _ => apply fulfilled_unit in H; rewrite H
         end.
  rewrite Hd. read_session. rewrite Hlogin. reflexivity.
Qed.

Ltac absent :=
  let Hin := fresh "Hin" in
  intros Hin; exfalso; revert Hin; unfold said, clickFirst;
  repeat match goal with
         | |- context [if ?b then _ else _] => destruct b
         | |- context [match find ?f ?l with _ => _ end] =>
             destruct (find f l)
         end;
  cbn [app In emitted]; intuition discriminate.

Lemma voteSession_vote_page c s token :
  In (Goto (voteUrl c) None) (emitted (voteSession c s token)) ->
  exists d, landingPage s = Normal d
            /\ includes (innerText d) "Login" = false.
Proof.
  unfold voteSession, voteUrl. read_session.
  answered (onNewDocument s); [|absent].
  answered (homeLoaded s); [|absent].
  answered (homePage s); [|absent].
  answered (leftForDiscord s); [|absent].
  answered (viewportSet s); [|absent].
  answered (authorizeShown s); [|absent].
  answered (authorizeClicked s); [|absent].
  answered (cameBack s); [|absent].
  destruct (landingPage s) as [landing|] eqn:Hlanding; read_session;
    [|absent].
  destruct (includes (innerText landing) "Login") eqn:Hlogin; cbn [negb];
    read_session; [absent|].
  intros _. eauto.
Qed.

Lemma emitted_proxy_line c proxy :
  emitted (if truthy proxy
           then _log c ("Using proxy: " ++ match proxy with
                                           | Some p => p
                                           | None => ""
                                           end)
           else Ret tt)
  = (if truthy proxy
     then said c ("Using proxy: " ++ match proxy with
                                     | Some p => p
                                     | None => ""
                                     end)
     else [])
  /\ outcome (if truthy proxy
              then _log c ("Using proxy: " ++ match proxy with
                                              | Some p => p
                                              | None => ""
                                              end)
              else Ret tt) = Normal tt.
Proof. destruct (truthy proxy); read_off; auto. Qed.

Lemma voteForBot_lost c s token proxy e :
  raced s = Abrupt e ->
  outcome (_voteForBot c s token proxy) = Abrupt e
  /\ emitted (_voteForBot c s token proxy)
     = (connecting c token proxy
        ++ said c ("Error in _voteForBot for " ++ shortToken token ++ ": "
                   ++ message e))%list.
Proof.
  intros Hr. unfold _voteForBot, settle, connecting. rewrite Hr.
  read_off. destruct (emitted_proxy_line c proxy) as [-> ->].
  read_off. rewrite <- ?app_assoc, ?app_nil_r. split; reflexivity.
Qed.

Lemma connecting_keeps_open c token proxy :
  ~ In BrowserClose (connecting c token proxy).
Proof.
  unfold connecting, said.
  destruct (verbose c), (truthy proxy); cbn [app In]; intuition discriminate.
Qed.

(** X6.  When the race for a browser is lost ([connect] is rejected, or
    the 30 s timer fires first, with "Browser connection timeout"),
    [_voteForBot] throws the error of the race right after the
    [connect] call: no page call is made and, there being no browser,
    [close] is not called.  The worker counts the account as failed and
    hands "Token ... error: ..." to the error policy. *)
Theorem lost_race_has_nothing_to_close :
  forall c a token proxy w e,
    checked a = Normal true ->
    raced (session a) = Abrupt e ->
    let done := run (_handleSingle c a token proxy) w in
    outcome (_voteForBot c (session a) token proxy) = Abrupt e
    /\ emitted (_voteForBot c (session a) token proxy)
       = (connecting c token proxy
          ++ said c ("Error in _voteForBot for " ++ shortToken token ++ ": "
                     ++ message e))%list
    /\ ~ In BrowserClose (emitted (_voteForBot c (session a) token proxy))
    /\ (connection (session a) = ConnectTimedOut ->
        e = mkError "Browser connection timeout")
    /\ stats (fst done) = bump CFailed (stats w)
    /\ match errorLog c with
       | Some h =>
           handled (fst done) = (handled w ++ [tokenError token e])%list
           /\ snd done = match h (handled w) (tokenError token e) with
                         | None => Normal tt
                         | Some e' => Abrupt e'
                         end
       | None => snd done = Abrupt (tokenError token e)
       end.
Proof.
  intros c a token proxy w e Hok Hr done. subst done.
  destruct (@voteForBot_lost c (session a) token proxy e Hr) as [Ho He].
  split; [exact Ho|]. split; [exact He|]. split; [|split].
  - rewrite He, in_app_iff. intros [Hin|Hin].
    + exact (@connecting_keeps_open c token proxy Hin).
    + unfold said in Hin. destruct (verbose c); simpl in Hin;
        intuition discriminate.
  - intros Hc. unfold raced in Hr. rewrite Hc in Hr. congruence.
  - rewrite run_handleSingle_valid by assumption. rewrite Ho. cbv zeta.
    match goal with
    | |- context [run (_handleError c ?err) ?w0] =>
        destruct (run_handleError c err w0) as [evs [Hw [_ Hres]]]
    end.
    rewrite Hw, Hres.
    destruct (errorLog c); cbn [stats handled tell hand count];
      repeat split; reflexivity.
Qed.

(** X7.  A session that was acquired and does not get past the login
    (a call before the poll is rejected, or the page after the login
    still shows "Login") makes [_voteForBot] throw; the worker counts
    the account as failed and hands the error to the error policy.
    When every call up to the check of the login is answered and the
    page still shows "Login", the error is "Authorization failed -
    Discord OAuth did not complete".  And in no session is the vote
    page requested unless the page after the login was read and no
    longer shows "Login". *)
Theorem unauthenticated_session_fails :
  forall c a token proxy w,
    checked a = Normal true ->
    connection (session a) = Connected ->
    let done := run (_handleSingle c a token proxy) w in
    (authenticates (session a) = false ->
     exists e,
       outcome (_voteForBot c (session a) token proxy) = Abrupt e
       /\ stats (fst done) = bump CFailed (stats w)
       /\ match errorLog c with
          | Some h =>
              handled (fst done) = (handled w ++ [tokenError token e])%list
              /\ snd done = match h (handled w) (tokenError token e) with
                            | None => Normal tt
                            | Some e' => Abrupt e'
                            end
          | None => snd done = Abrupt (tokenError token e)
          end)
    /\ (forall d,
          reachesLoginCheck (session a) = true ->
          landingPage (session a) = Normal d ->
          includes (innerText d) "Login" = true ->
          outcome (_voteForBot c (session a) token proxy)
          = Abrupt (mkError
                      "Authorization failed - Discord OAuth did not complete"))
    /\ (In (Goto (voteUrl c) None)
          (emitted (_voteForBot c (session a) token proxy)) ->
        exists d, landingPage (session a) = Normal d
                  /\ includes (innerText d) "Login" = false).
Proof.
  intros c a token proxy w Hok Hc done. subst done.
  destruct (voteForBot_connected c (session a) token proxy Hc) as [Ho He].
  split; [|split].
  - intros Hauth.
    destruct (voteSession_unauthenticated c (session a) token Hauth)
      as [e Hs].
    exists e. rewrite Ho. split; [exact Hs|].
    rewrite run_handleSingle_valid by assumption. rewrite Ho, Hs. cbv zeta.
    match goal with
    | |- context [run (_handleError c ?err) ?w0] =>
        destruct (run_handleError c err w0) as [evs [Hw [_ Hres]]]
    end.
    rewrite Hw, Hres.
    destruct (errorLog c); cbn [stats handled tell hand count];
      repeat split; reflexivity.
  - intros d Hreach Hd Hlogin. rewrite Ho.
    now apply (@voteSession_logged_out c (session a) token d).
  - rewrite He, !in_app_iff. intros [Hin|[[Hin|Hin]|Hin]].
    + exfalso. revert Hin. unfold connecting, said.
      destruct (verbose c), (truthy proxy); cbn [app In];
        intuition discriminate.
    + now apply (@voteSession_vote_page c (session a) token).
    + exfalso. revert Hin. unfold rethrown, said.
      destruct (outcome (voteSession c (session a) token));
        destruct (verbose c); cbn [In]; intuition discriminate.
    + exfalso. revert Hin. unfold teardown, said.
      destruct (verbose c), (closed (session a)); cbn [app In];
        intuition discriminate.
Qed.

(* ================================================================== *)
(** ** The budget of the poller *)
(* ================================================================== *)

Lemma emitted_pollLoop_0 c answers timeoutMs attempts elapsed :
  emitted (pollLoop c answers timeoutMs 0 attempts elapsed)
  = said c ("Vote status check timed out after " ++ show attempts
            ++ " attempts").
Proof. cbn [pollLoop]. read_off. now rewrite app_nil_r. Qed.

(** One round of the loop, as far as its calls go. *)
Lemma emitted_pollLoop_S c answers timeoutMs fuel attempts elapsed :
  emitted (pollLoop c answers timeoutMs (S fuel) attempts elapsed)
  = if (elapsed <? timeoutMs)%Z then
      (said c ("Checking vote status (attempt " ++ show (S attempts)
               ++ ")...")
       ++ [Evaluate]
       ++ said c (probeLine (answers (S attempts)))
       ++ (if stillWaiting (answers (S attempts))
           then Sleep 2500
                :: emitted (pollLoop c answers timeoutMs fuel (S attempts)
                              (elapsed + roundTime (answers (S attempts))))
           else []))%list
    else said c ("Vote status check timed out after " ++ show attempts
                 ++ " attempts").
Proof.
  cbn [pollLoop]. destruct (elapsed <? timeoutMs)%Z.
  - rewrite emitted_bind, emitted_log, outcome_log.
    rewrite emitted_bind, emitted_try_catch, outcome_try_catch.
    unfold stillWaiting, probeLine, evaluate.
    destruct (seen (answers (S attempts))) as [d|e]; cbn [bind outcome emitted].
    + rewrite outcome_bind, emitted_bind, outcome_log, emitted_log.
      destruct (classify_cases d) as [[H1 ->]|[[H1 [H2 ->]]|[H1 [H2 ->]]]];
        rewrite H1; try rewrite H2; cbn; rewrite ?app_nil_r; reflexivity.
    + rewrite outcome_bind, emitted_bind, outcome_log, emitted_log.
      cbn. rewrite ?app_nil_r. reflexivity.
  - read_off. now rewrite app_nil_r.
Qed.

Lemma probesMade_app evs evs' :
  probesMade (evs ++ evs') = probesMade evs + probesMade evs'.
Proof. unfold probesMade. now rewrite filter_app, length_app. Qed.

Lemma probesMade_said c msg : probesMade (said c msg) = 0.
Proof. unfold said. destruct (verbose c); reflexivity. Qed.

(** A probe is made only while the deadline has not passed, and every
    round takes at least 2.5 s. *)
Lemma probes_pollLoop c answers timeoutMs fuel :
  forall attempts elapsed,
    let n := probesMade (emitted (pollLoop c answers timeoutMs fuel attempts
                                    elapsed)) in
    ((timeoutMs <= elapsed)%Z -> n = 0)
    /\ (0 < n -> (2500 * (Z.of_nat n - 1) < timeoutMs - elapsed)%Z)
    /\ ((elapsed < timeoutMs)%Z -> 0 < fuel -> 1 <= n).
Proof.
  induction fuel as [|fuel IH]; intros attempts elapsed n; subst n.
  - rewrite emitted_pollLoop_0, probesMade_said. repeat split; lia.
  - rewrite emitted_pollLoop_S.
    destruct (Z.ltb_spec elapsed timeoutMs) as [Hlt|Hge].
    + rewrite !probesMade_app, !probesMade_said.
      change (probesMade [Evaluate]) with 1.
      pose proof (roundTime_ge (answers (S attempts))) as Hround.
      destruct (stillWaiting (answers (S attempts))).
      * change (probesMade (Sleep 2500 :: ?l)) with (probesMade l).
        destruct (IH (S attempts)
                    (elapsed + roundTime (answers (S attempts)))%Z)
          as [_ [Hbound _]].
        repeat split; lia.
      * cbn. repeat split; lia.
    + rewrite probesMade_said. repeat split; lia.
Qed.

(** X8.  The budget of the poller.  With a timeout that is not
    positive it returns "timeout" at once, without a probe.  With a
    positive timeout it probes at least once; the probe number [n] is
    made only if [2500 * (n - 1)] ms is less than the timeout, every
    round taking at least the 2.5 s [delay]: with the 60 s that
    [_voteForBot] passes, at most 24 probes. *)
Theorem poller_probe_budget :
  forall c answers timeoutMs w,
    let calls := emitted (_waitForVoteStatus c answers timeoutMs) in
    let n := probesMade calls in
    trace (fst (run (_waitForVoteStatus c answers timeoutMs) w))
    = (trace w ++ calls)%list
    /\ ((timeoutMs <= 0)%Z ->
        calls = said c "Vote status check timed out after 0 attempts"
        /\ n = 0
        /\ snd (run (_waitForVoteStatus c answers timeoutMs) w)
           = Normal "timeout")
    /\ ((0 < timeoutMs)%Z -> 1 <= n)
    /\ (0 < n -> (2500 * (Z.of_nat n - 1) < timeoutMs)%Z)
    /\ (timeoutMs = 60000%Z -> n <= 24).
Proof.
  intros c answers timeoutMs w calls n. subst n calls.
  rewrite run_waitForVoteStatus. cbn [fst snd]. unfold _waitForVoteStatus.
  destruct (probes_pollLoop c answers timeoutMs (pollFuel timeoutMs) 0 0%Z)
    as [Hnone [Hbound Hsome]].
  split; [reflexivity|]. split; [|split; [|split]].
  - intros Hle. split; [|split].
    + unfold pollFuel. rewrite emitted_pollLoop_S.
      destruct (Z.ltb_spec 0 timeoutMs); [lia | reflexivity].
    + apply Hnone. lia.
    + unfold pollFuel. rewrite outcome_pollLoop_S.
      destruct (Z.ltb_spec 0 timeoutMs); [lia | reflexivity].
  - intros Hpos. apply Hsome; [exact Hpos | unfold pollFuel; lia].
  - intros Hn. specialize (Hbound Hn). lia.
  - intros ->.
    destruct (probesMade
                (emitted (pollLoop c answers 60000 (pollFuel 60000) 0 0)))
      as [|m]; [lia|].
    specialize (Hbound (Nat.lt_0_succ m)). lia.
Qed.

(* ================================================================== *)
(** ** The rounds of the loop *)
(* ================================================================== *)

Lemma handleError_keeps c err w :
  stats (fst (run (_handleError c err) w)) = stats w
  /\ exists evs, trace (fst (run (_handleError c err) w))
                 = (trace w ++ evs)%list.
Proof.
  destruct (run_handleError c err w) as [evs [Hw _]]. rewrite Hw.
  destruct (errorLog c); simpl; eauto.
Qed.

(** X9.  A round of the loop that goes on to the next one ends by
    reporting the counters of its cycle (a line that is printed only
    when [verbose] is on), resetting them to zero, and pausing for
    [cooldown]: the pause is the last call of the round, and during it
    the counters no longer show the cycle. *)
Theorem cycle_ends_reset_and_paused :
  forall quotient c cy w w',
    iteration quotient c cy w = (w', Normal tt) ->
    let w1 := tell (said c ("Starting cycle for " ++ show (total (stats w))
                            ++ " token(s)...")) w in
    let counted := stats (fst (dispatch c cy w1)) in
    stats w' = mkStats (total (stats w)) 0 0 0
    /\ exists before,
         trace w'
         = (trace w ++ before
            ++ cycleReport c counted
            ++ said c ("Waiting " ++ quotient (cooldown c) 3600000%Z
                       ++ "h before next cycle...")
            ++ [Sleep (cooldown c)])%list.
Proof.
  intros quotient c cy w w' Hit w1 counted.
  split; [exact (iteration_resets _ _ _ _ Hit)|].
  subst counted. revert Hit. unfold iteration. rewrite run_log. fold w1.
  destruct (dispatch_emits c cy w1) as [evs [Ht _]].
  destruct (dispatch c cy w1) as [w2 r]. cbn [fst] in *.
  destruct r as [[]|err].
  - rewrite run_log, run_bind, run_log, run_delay.
    intros H; inversion H; subst; clear H.
    exists (said c ("Starting cycle for " ++ show (total (stats w))
                    ++ " token(s)...") ++ evs)%list.
    cbn [trace tell _resetStats stats]. rewrite Ht. subst w1.
    cbn [trace tell]. unfold cycleReport. now rewrite <- !app_assoc.
  - rewrite run_bind, run_log.
    destruct (handleError_keeps c err
                (tell (said c ("Fatal cycle error: " ++ message err)) w2))
      as [Hs [evs' Ht']].
    destruct (run (_handleError c err) _) as [w3 [[]|e]]; [|discriminate].
    cbn [fst] in *.
    rewrite run_log, run_bind, run_log, run_delay.
    intros H; inversion H; subst; clear H.
    exists (said c ("Starting cycle for " ++ show (total (stats w))
                    ++ " token(s)...") ++ evs
            ++ said c ("Fatal cycle error: " ++ message err) ++ evs')%list.
    cbn [trace tell _resetStats stats]. rewrite Hs, Ht'. cbn [stats tell trace].
    rewrite Ht. subst w1. cbn [trace tell]. unfold cycleReport.
    now rewrite <- !app_assoc.
Qed.

(** *** An [errorLog] that never throws *)

Lemma handleError_tolerant c err w :
  tolerant c -> snd (run (_handleError c err) w) = Normal tt.
Proof.
  intros [h [Hh Hnone]]. pose proof (run_handleError_cases c err w) as H.
  rewrite Hh, Hnone in H. now rewrite H.
Qed.

Lemma handleSingle_tolerant c a token proxy w :
  tolerant c -> snd (run (_handleSingle c a token proxy) w) = Normal tt.
Proof.
  intros Ht.
  destruct (checked a) as [[|]|e] eqn:Hc.
  - rewrite run_handleSingle_valid by assumption. cbv zeta.
    destruct (outcome (_voteForBot c (session a) token proxy)) as [[|]|err];
      try reflexivity.
    now apply handleError_tolerant.
  - rewrite run_handleSingle_invalid by (rewrite Hc; discriminate).
    now apply handleError_tolerant.
  - rewrite run_handleSingle_invalid by (rewrite Hc; discriminate).
    now apply handleError_tolerant.
Qed.

Lemma sequentialFrom_tolerant c accounts rest :
  tolerant c ->
  forall i w, snd (run (sequentialFrom c accounts i rest) w) = Normal tt.
Proof.
  intros Ht. induction rest as [|tok rest IH]; intros i w; [reflexivity|].
  cbn [sequentialFrom]. unfold serialTurn.
  rewrite !run_bind, run_log, run_try_catch.
  pose proof (@handleSingle_tolerant c (accounts i) tok (proxyFor c i)
                (tell (said c ("Processing token " ++ show (i + 1) ++ "/"
                               ++ show (length (tokenList c)) ++ "...")) w)
                Ht) as Hs.
  destruct (run (_handleSingle c (accounts i) tok (proxyFor c i)) _)
    as [w1 r]. simpl in Hs. subst r. apply IH.
Qed.

Lemma dispatch_returns c cy w :
  tolerant c \/ runInParallel c = true ->
  snd (dispatch c cy w) = Normal tt.
Proof.
  intros H. unfold dispatch.
  destruct (runInParallel c) eqn:Hp; [apply parallelCycle_returns|].
  destruct H as [Ht|]; [|discriminate].
  now apply sequentialFrom_tolerant.
Qed.

Lemma iteration_goes_on quotient c cy w :
  tolerant c \/ runInParallel c = true ->
  snd (iteration quotient c cy w) = Normal tt.
Proof.
  intros H. unfold iteration. rewrite run_log.
  pose proof (@dispatch_returns c cy
                (tell (said c ("Starting cycle for "
                               ++ show (total (stats w)) ++ " token(s)..."))
                   w) H) as Hd.
  destruct (dispatch c cy _) as [w2 r]. simpl in Hd. subst r.
  rewrite run_log, run_bind, run_log, run_delay. reflexivity.
Qed.

Lemma loop_goes_on quotient c cycles :
  tolerant c \/ runInParallel c = true ->
  forall w, snd (autovoteBot quotient c cycles w) = Looping.
Proof.
  intros H. induction cycles as [|cy cycles IH]; intros w; [reflexivity|].
  cbn [autovoteBot].
  pose proof (@iteration_goes_on quotient c cy w H) as Hit.
  destruct (iteration quotient c cy w) as [w1 r]. simpl in Hit. subst r.
  apply IH.
Qed.

Lemma dispatch_balances c cy w :
  snd (dispatch c cy w) = Normal tt ->
  recorded (stats (fst (dispatch c cy w)))
  = length (tokenList c) + recorded (stats w).
Proof.
  unfold dispatch. destruct (runInParallel c).
  - intros _. apply parallelCycle_balances.
  - intros Hr.
    destruct (run (_sequentialCycle c (accounts cy)) w) as [w' r] eqn:Hrun.
    simpl in Hr. subst r. simpl.
    exact (sequentialCycle_balances _ _ _ Hrun).
Qed.

(** X10.  With an [errorLog] that never throws, nothing is ever thrown
    out of a worker, a cycle or the loop, in either mode: every cycle
    returns with each of its accounts counted, and [autovoteBot] goes
    round for as long as it is followed. *)
Theorem tolerant_errorLog_keeps_the_loop_going :
  forall quotient c,
    tolerant c ->
    (forall a token proxy w,
       snd (run (_handleSingle c a token proxy) w) = Normal tt)
    /\ (forall cy w,
          snd (dispatch c cy w) = Normal tt
          /\ recorded (stats (fst (dispatch c cy w)))
             = length (tokenList c) + recorded (stats w))
    /\ (forall cycles w, snd (autovoteBot quotient c cycles w) = Looping).
Proof.
  intros quotient c Ht. split; [|split].
  - intros. now apply handleSingle_tolerant.
  - intros cy w.
    assert (Hd : snd (dispatch c cy w) = Normal tt)
      by (apply dispatch_returns; now left).
    split; [exact Hd | now apply dispatch_balances].
  - intros. apply loop_goes_on. now left.
Qed.

Lemma constructed opts c st :
  AutoClient opts = Normal (c, st) ->
  c = mkClient (opt_tokenList opts) (opt_botId opts)
        (orDefault (opt_cooldown opts) 43200000%Z)
        (orDefault (opt_runInParallel opts) false)
        (orDefault (opt_proxies opts) [])
        (orDefault (opt_verbose opts) false)
        (opt_errorLog opts)
  /\ st = mkStats (length (opt_tokenList opts)) 0 0 0
  /\ opt_tokenList opts <> []
  /\ isSnowflake (opt_botId opts) = true
  /\ (0 < orDefault (opt_cooldown opts) 43200000%Z)%Z.
Proof.
  unfold AutoClient. change (12 * 60 * 60 * 1000)%Z with 43200000%Z.
  destruct (opt_tokenList opts) as [|t ts] eqn:Ht; [discriminate|].
  cbn [length Nat.eqb].
  destruct (isSnowflake (opt_botId opts)) eqn:Hs; [|discriminate].
  cbn [negb].
  destruct (Z.leb_spec (orDefault (opt_cooldown opts) 43200000%Z) 0%Z);
    [discriminate|].
  intros H'. inversion H'; subst; clear H'.
  repeat split; try assumption; try discriminate.
Qed.

(** X11.  The module-level [autovoteBot(opts)].  Options the
    constructor rejects make it end with the constructor's error
    before any call is made (an empty [tokenList], for one).  With
    accepted options it is the loop of the client constructed from
    them, started with that client's fresh counters; it never returns,
    and with an [errorLog] that never throws, or in concurrent mode, it
    never throws either. *)
Theorem shorthand_runs_the_loop :
  forall quotient opts cycles,
    (forall e, AutoClient opts = Abrupt e ->
               Shorthand.autovoteBot quotient opts cycles = (None, Stopped e))
    /\ (opt_tokenList opts = [] ->
        Shorthand.autovoteBot quotient opts cycles
        = (None, Stopped (mkError "tokenList must be a non-empty array")))
    /\ (forall c st,
          AutoClient opts = Normal (c, st) ->
          Shorthand.autovoteBot quotient opts cycles
          = (Some (fst (autovoteBot quotient c cycles
                          (mkWorld (mkStats (length (tokenList c)) 0 0 0)
                             [] []))),
             snd (autovoteBot quotient c cycles
                    (mkWorld (mkStats (length (tokenList c)) 0 0 0) [] [])))
          /\ ((exists h, opt_errorLog opts = Some h
                         /\ forall hist e, h hist e = None)
              \/ opt_runInParallel opts = Some true ->
              snd (Shorthand.autovoteBot quotient opts cycles) = Looping)).
Proof.
  intros quotient opts cycles. unfold Shorthand.autovoteBot.
  split; [|split].
  - intros e ->. reflexivity.
  - intros Hnil. unfold AutoClient. rewrite Hnil. reflexivity.
  - intros c st Hnew. rewrite Hnew.
    destruct (@constructed opts c st Hnew) as [Hc [Hst _]].
    assert (Hlen : length (opt_tokenList opts) = length (tokenList c))
      by (rewrite Hc; reflexivity).
    assert (Hlog : errorLog c = opt_errorLog opts)
      by (rewrite Hc; reflexivity).
    assert (Hpar : runInParallel c = orDefault (opt_runInParallel opts) false)
      by (rewrite Hc; reflexivity).
    rewrite Hst, Hlen. clear Hc Hst.
    destruct (autovoteBot quotient c cycles _) as [w l] eqn:Hrun.
    split; [reflexivity|].
    intros Hgo. cbn [snd].
    assert (Hon : tolerant c \/ runInParallel c = true).
    { destruct Hgo as [[h [Hh Hnone]]|Hp].
      - left. exists h. split; [congruence | exact Hnone].
      - right. rewrite Hpar, Hp. reflexivity. }
    pose proof (@loop_goes_on quotient c cycles Hon
                  (mkWorld (mkStats (length (tokenList c)) 0 0 0) [] []))
      as Hloop.
    rewrite Hrun in Hloop. exact Hloop.
Qed.

(* ================================================================== *)
(** ** The error policy, level by level *)
(* ================================================================== *)

(** *** The start of a concurrent cycle *)




(** *** The worker, by verdict *)

Lemma run_handleError_consult c e w :
  handled (fst (run (_handleError c e) w)) = fst (consult c e (handled w))
  /\ snd (run (_handleError c e) w) = thrown (snd (consult c e (handled w)))
  /\ stats (fst (run (_handleError c e) w)) = stats w.
Proof.
  pose proof (run_handleError_cases c e w) as H. unfold consult.
  destruct (errorLog c) as [h|].
  - destruct (h (handled w) e) as [e'|]; rewrite H; simpl; auto.
  - rewrite H. simpl. auto.
Qed.

(** A worker counts its verdict, and consults the error policy about
    its complaint, if it has one. *)
Lemma run_handleSingle_verdict c a token proxy w :
  let done := run (_handleSingle c a token proxy) w in
  stats (fst done) = bump (verdict c a token proxy) (stats w)
  /\ match complaint c a token proxy with
     | Some e0 =>
         handled (fst done) = fst (consult c e0 (handled w))
         /\ snd done = thrown (snd (consult c e0 (handled w)))
     | None => handled (fst done) = handled w /\ snd done = Normal tt
     end.
Proof.
  intros done. subst done. unfold verdict, complaint.
  destruct (checked a) as [[|]|e] eqn:Hc.
  - rewrite run_handleSingle_valid by assumption. cbv zeta.
    destruct (outcome (_voteForBot c (session a) token proxy)) as [[|]|err];
      try (split; [reflexivity | split; reflexivity]).
    match goal with
    | |- context [run (_handleError c ?e0) ?w0] =>
        destruct (run_handleError_consult c e0 w0) as [Hh [Hr Hs]]
    end.
    rewrite Hh, Hr, Hs. repeat split; reflexivity.
  - rewrite run_handleSingle_invalid by (rewrite Hc; discriminate).
    match goal with
    | |- context [run (_handleError c ?e0) ?w0] =>
        destruct (run_handleError_consult c e0 w0) as [Hh [Hr Hs]]
    end.
    rewrite Hh, Hr, Hs. repeat split; reflexivity.
  - rewrite run_handleSingle_invalid by (rewrite Hc; discriminate).
    match goal with
    | |- context [run (_handleError c ?e0) ?w0] =>
        destruct (run_handleError_consult c e0 w0) as [Hh [Hr Hs]]
    end.
    rewrite Hh, Hr, Hs. repeat split; reflexivity.
Qed.

Lemma run_caught c (p : Prog unit) (line : Error -> string) w :
  run (try_catch p (fun err => _log c (line err) ;; _handleError c err)) w
  = match run p w with
    | (w1, Normal a) => (w1, Normal a)
    | (w1, Abrupt e) =>
        run (_handleError c e) (tell (said c (line e)) w1)
    end.
Proof.
  rewrite run_try_catch. destruct (run p w) as [w1 [a|e]]; [reflexivity|].
  now rewrite run_bind, run_log.
Qed.

Lemma escalate_twice c e0 hist :
  escalate c 2 e0 hist
  = match snd (consult c e0 hist) with
    | Some e1 => consult c e1 (fst (consult c e0 hist))
    | None => (fst (consult c e0 hist), None)
    end.
Proof.
  cbn [escalate]. destruct (consult c e0 hist) as [hist' [e1|]]; cbn [fst snd];
    [|reflexivity].
  destruct (consult c e1 hist') as [hist'' [e2|]]; reflexivity.
Qed.

(** What a [catch] that logs and consults the policy makes of a
    worker. *)
Lemma caught_worker c a token proxy (line : Error -> string) w :
  let done :=
    run (try_catch (_handleSingle c a token proxy)
           (fun err => _log c (line err) ;; _handleError c err)) w in
  stats (fst done) = bump (verdict c a token proxy) (stats w)
  /\ match complaint c a token proxy with
     | Some e0 =>
         handled (fst done) = fst (escalate c 2 e0 (handled w))
         /\ snd done = thrown (snd (escalate c 2 e0 (handled w)))
     | None => handled (fst done) = handled w /\ snd done = Normal tt
     end.
Proof.
  intros done. subst done. rewrite run_caught.
  destruct (run_handleSingle_verdict c a token proxy w) as [Hs Hc].
  destruct (run (_handleSingle c a token proxy) w) as [w1 r].
  cbn [fst snd] in *.
  destruct (complaint c a token proxy) as [e0|].
  - destruct Hc as [Hh Hr]. rewrite escalate_twice.
    destruct (consult c e0 (handled w)) as [hist' [e1|]]; cbn [fst snd] in *;
      subst r; cbn [thrown].
    + destruct (run_handleError_consult c e1
                  (tell (said c (line e1)) w1)) as [Hh' [Hr' Hs']].
      rewrite Hh', Hr', Hs'. cbn [handled tell stats]. rewrite Hh, Hs.
      repeat split; reflexivity.
    + auto.
  - destruct Hc as [Hh Hr]. subst r. auto.
Qed.


(* ================================================================== *)
(** ** The counters, by verdict *)
(* ================================================================== *)

Lemma reading_bump x y s : reading x (bump y s) = hit x y + reading x s.
Proof. destruct x, y; reflexivity. Qed.

Lemma run_tally A x (p : Prog A) :
  forall n w, Tally x n p ->
    reading x (stats (fst (run p w))) = reading x (stats w) + n.
Proof.
  induction p; simpl; intros n w HT.
  - lia.
  - lia.
  - now rewrite (IHp _ _ HT).
  - destruct HT as [m [-> HT]]. rewrite (IHp _ _ HT). simpl.
    rewrite reading_bump. lia.
  - now rewrite (H _ _ _ (HT _)).
  - auto.
Qed.

Lemma resume_tally A x (p : Prog A) :
  forall n w, Tally x n p ->
    exists d m,
      n = d + m
      /\ reading x (stats (fst (resume p w))) = reading x (stats w) + d
      /\ Tally x m (snd (resume p w)).
Proof.
  induction p; simpl; intros n w HT.
  - exists 0, n. auto.
  - exists 0, n. auto.
  - destruct (IHp _ (emit ev w) HT) as [d [m [Hn [Hr Hm]]]].
    exists d, m. auto.
  - destruct HT as [m0 [-> HT]].
    destruct (IHp _ (count ctr w) HT) as [d [m [Hn [Hr Hm]]]].
    exists (hit x ctr + d), m. split; [lia|]. split; [|exact Hm].
    rewrite Hr. simpl. rewrite reading_bump. lia.
  - destruct (H _ _ (hand e w) (HT (h (handled w) e)))
      as [d [m [Hn [Hr Hm]]]].
    exists d, m. auto.
  - exists 0, n. auto.
Qed.

Lemma launch_tally x ps :
  forall ns w,
    Forall2 (Tally x) ns ps ->
    exists ns',
      Forall2 (Tally x) ns' (snd (launch ps w))
      /\ reading x (stats (fst (launch ps w))) + list_sum ns'
         = reading x (stats w) + list_sum ns.
Proof.
  induction ps as [|p ps IH]; intros ns w HF; inversion HF; subst; simpl.
  - exists []. split; [constructor | reflexivity].
  - match goal with
    | H : Tally x ?n0 p |- _ =>
        destruct (@resume_tally _ x p _ w H) as [d [m [Hn [Hr Hm]]]]
    end.
    destruct (resume p w) as [w1 p1]. simpl in *.
    match goal with
    | H : Forall2 (Tally x) ?l0 ps |- _ =>
        destruct (IH _ w1 H) as [ns' [HF' Hsum]]
    end.
    destruct (launch ps w1) as [w2 pool]. simpl in *.
    exists (m :: ns'). split; [constructor; auto|]. simpl. lia.
Qed.

Lemma wake_tally x i st :
  forall ns,
    Forall2 (Tally x) ns (snd st) ->
    exists ns',
      Forall2 (Tally x) ns' (snd (wake i st))
      /\ reading x (stats (fst (wake i st))) + list_sum ns'
         = reading x (stats (fst st)) + list_sum ns.
Proof.
  intros ns HF. unfold wake.
  destruct (nth_error (snd st) i) as [p|] eqn:Hi; [|exists ns; auto].
  destruct (Forall2_replace HF _ Hi) as [n [Hn Hrep]].
  destruct (@resume_tally _ x p n (fst st) Hn) as [d [m [Hd [Hr Hm]]]].
  destruct (resume p (fst st)) as [w' p']. simpl in *.
  destruct (Hrep _ _ Hm) as [HF' Hsum].
  exists (replace i m ns). split; [exact HF' | lia].
Qed.

Lemma interleave_tally x sched :
  forall st ns,
    Forall2 (Tally x) ns (snd st) ->
    exists ns',
      Forall2 (Tally x) ns' (snd (interleave sched st))
      /\ reading x (stats (fst (interleave sched st))) + list_sum ns'
         = reading x (stats (fst st)) + list_sum ns.
Proof.
  induction sched as [|i sched IH]; intros st ns HF; simpl.
  - exists ns. auto.
  - fold (interleave sched (wake i st)).
    destruct (@wake_tally x i st ns HF) as [ns1 [HF1 Hs1]].
    destruct (IH (wake i st) ns1 HF1) as [ns2 [HF2 Hs2]].
    exists ns2. split; [exact HF2 | lia].
Qed.

Lemma drain_tally x pool :
  forall ns w,
    Forall2 (Tally x) ns pool ->
    reading x (stats (fst (drain pool w))) = reading x (stats w) + list_sum ns.
Proof.
  induction pool as [|p pool IH]; intros ns w HF; inversion HF; subst; simpl.
  - lia.
  - match goal with
    | H : Tally x ?n0 p |- _ => pose proof (@run_tally _ x p _ w H) as Hr
    end.
    destruct (run p w) as [w1 r]. simpl in *.
    match goal with
    | H : Forall2 (Tally x) ?l0 pool |- _ => pose proof (IH _ w1 H) as Hd
    end.
    destruct (drain pool w1) as [w2 rs]. simpl in *. lia.
Qed.

(** A part of a computation that neither increments a counter nor
    calls [errorLog] has one path, and what follows it is found at its
    end. *)
Lemma Tally_past A B x n (p : Prog A) (f : A -> Prog B)
    (h1 h2 : Error -> Prog B) :
  Free 1 1 p ->
  match outcome p with
  | Normal a => Tally x n (try_catch (try_catch (f a) h1) h2)
  | Abrupt e => Tally x n (try_catch (h1 e) h2)
  end ->
  Tally x n (try_catch (try_catch (bind p f) h1) h2).
Proof.
  unfold Free, Weighs. induction p; simpl; intros HF HT; auto.
  - destruct (@Paths_inhabited _ _ _ p _ _ HF) as [k [[_ Hk]|[_ Hk]]];
      discriminate.
  - destruct (@Paths_inhabited _ _ _ (k None) _ _ (HF None))
      as [m [[_ Hm]|[_ Hm]]]; discriminate.
Qed.

Lemma handleError_tally x c err (h2 : Error -> Prog unit) :
  (forall e, Tally x 0 (h2 e)) ->
  Tally x 0 (try_catch (_handleError c err) h2).
Proof.
  intros H2. unfold _handleError.
  destruct (errorLog c) as [h|]; cbn [try_catch Tally]; [|apply H2].
  intros [e|]; cbn [try_catch Tally]; auto.
Qed.

Lemma onParallelError_tally x c i e : Tally x 0 (onParallelError c i e).
Proof.
  unfold onParallelError, _log, _handleError.
  destruct (verbose c), (errorLog c) as [h|]; cbn [bind Tally]; auto;
    intros [e'|]; cbn [bind Tally]; auto.
Qed.

(** The promise of an account increments the counter of its verdict,
    once, and no other. *)
Lemma promise_tally x c accounts i tok :
  Tally x (hit x (verdict c (accounts i) tok (proxyFor c i)))
    (promise c accounts i tok).
Proof.
  pose proof (onParallelError_tally x c i) as H2.
  assert (Hpolicy : forall err,
            Tally x 0 (try_catch (_handleError c err) (onParallelError c i)))
    by (intros; now apply handleError_tally).
  unfold promise, verdict, _handleSingle, _log, await, incr.
  destruct (verbose c), (checked (accounts i)) as [[|]|e];
    cbn [bind try_catch Tally negb];
    try (exists 0; split; [lia | apply Hpolicy]);
    (apply Tally_past; [apply voteForBot_free|]);
    (destruct (outcome (_voteForBot c (session (accounts i)) tok
                          (proxyFor c i))) as [[|]|err];
     cbn [bind try_catch Tally];
     first [ exists 0; split; [lia | reflexivity]
           | exists 0; split; [lia | apply Hpolicy] ]).
Qed.

Lemma promises_tally x c accounts rest :
  forall i,
    Forall2 (Tally x) (map (hit x) (verdicts c accounts i rest))
      (mapFrom (promise c accounts) i rest).
Proof.
  induction rest as [|tok rest IH]; intros i; cbn [verdicts mapFrom map].
  - constructor.
  - constructor; [apply promise_tally | apply IH].
Qed.

Lemma serial_tally x c accounts rest :
  forall i w w',
    run (sequentialFrom c accounts i rest) w = (w', Normal tt) ->
    reading x (stats w')
    = reading x (stats w) + numberOf x (verdicts c accounts i rest).
Proof.
  induction rest as [|tok rest IH]; intros i w w' Hrun.
  - inversion Hrun; subst. unfold numberOf. simpl. lia.
  - cbn [sequentialFrom] in Hrun. unfold serialTurn, onSerialError in Hrun.
    rewrite !run_bind, run_log in Hrun.
    destruct (@caught_worker c (accounts i) tok (proxyFor c i)
                (fun err => ("Error processing token " ++ show (i + 1)
                             ++ ": " ++ message err)%string)
                (tell (said c ("Processing token " ++ show (i + 1) ++ "/"
                               ++ show (length (tokenList c)) ++ "...")) w))
      as [Hs _].
    destruct (run (try_catch _ _) _) as [w1 [[]|e]]; [|discriminate].
    cbn [fst] in Hs. rewrite (IH _ _ _ Hrun), Hs. cbn [stats tell].
    rewrite reading_bump.
    change (numberOf x (verdicts c accounts i (tok :: rest)))
      with (hit x (verdict c (accounts i) tok (proxyFor c i))
            + numberOf x (verdicts c accounts (S i) rest)).
    lia.
Qed.

(** X14.  What the counters of a cycle count.  When a cycle returns
    (a concurrent cycle always does), each counter has grown by the
    number of accounts with that verdict: [invalid] by the accounts
    whose check did not answer ok, [success] by those whose voting
    routine returned [true], [failed] by those whose voting routine
    returned [false] or threw.  This holds for every order in which the
    answers arrive and whatever the error policy does. *)
Theorem counters_count_accounts_by_verdict :
  forall c cy w x,
    snd (dispatch c cy w) = Normal tt ->
    reading x (stats (fst (dispatch c cy w)))
    = reading x (stats w) + numberOf x (verdicts c (accounts cy) 0 (tokenList c)).
Proof.
  intros c cy w x. unfold dispatch. destruct (runInParallel c).
  - intros _. unfold _parallelCycle.
    destruct (@launch_tally x _ _ w
                (promises_tally x c (accounts cy) (tokenList c) 0))
      as [ns1 [HF1 Hs1]].
    fold (promises c (accounts cy)) in HF1, Hs1.
    destruct (launch (promises c (accounts cy)) w) as [w1 pool].
    destruct (@interleave_tally x (schedule cy) (w1, pool) ns1 HF1)
      as [ns2 [HF2 Hs2]].
    destruct (interleave (schedule cy) (w1, pool)) as [w2 pool'].
    pose proof (@drain_tally x pool' ns2 w2 HF2) as Hd.
    destruct (drain pool' w2) as [w3 outs]. unfold allSettled.
    cbn [fst snd] in *. unfold numberOf. lia.
  - intros Hr.
    destruct (run (_sequentialCycle c (accounts cy)) w) as [w' r] eqn:Hrun.
    cbn [fst snd] in *. subst r.
    exact (@serial_tally x c (accounts cy) (tokenList c) 0 w w' Hrun).
Qed.

(* ================================================================== *)
(** ** Pauses, the order of a session, and a serial cycle that throws *)
(* ================================================================== *)

Lemma pausesMade_app evs evs' :
  pausesMade (evs ++ evs') = pausesMade evs + pausesMade evs'.
Proof. unfold pausesMade. now rewrite filter_app, length_app. Qed.

Lemma pausesMade_said c msg : pausesMade (said c msg) = 0.
Proof. unfold said. destruct (verbose c); reflexivity. Qed.

Lemma classify_in_time d : classify d <> "timeout".
Proof.
  destruct (classify_cases d) as [[_ ->]|[[_ [_ ->]]|[_ [_ ->]]]];
    discriminate.
Qed.

Lemma pauses_pollLoop c answers timeoutMs fuel :
  forall attempts elapsed,
    let evs := emitted (pollLoop c answers timeoutMs fuel attempts elapsed) in
    let r := outcome (pollLoop c answers timeoutMs fuel attempts elapsed) in
    (r = Normal "timeout" -> pausesMade evs = probesMade evs)
    /\ (r <> Normal "timeout" -> S (pausesMade evs) = probesMade evs).
Proof.
  induction fuel as [|fuel IH]; intros attempts elapsed evs r; subst evs r.
  - rewrite emitted_pollLoop_0, outcome_pollLoop_0, pausesMade_said,
      probesMade_said. split; [reflexivity | congruence].
  - rewrite emitted_pollLoop_S, outcome_pollLoop_S.
    destruct (elapsed <? timeoutMs)%Z.
    + rewrite !pausesMade_app, !probesMade_app, !pausesMade_said,
        !probesMade_said.
      change (probesMade [Evaluate]) with 1.
      change (pausesMade [Evaluate]) with 0.
      specialize (IH (S attempts)
                    (elapsed + roundTime (answers (S attempts)))%Z).
      cbv zeta in IH. destruct IH as [IHt IHh].
      destruct (seen (answers (S attempts))) as [d|e] eqn:Hseen.
      * destruct (stillWaiting (answers (S attempts))).
        -- change (pausesMade (Sleep 2500 :: ?l)) with (S (pausesMade l)).
           change (probesMade (Sleep 2500 :: ?l)) with (probesMade l).
           split; intros Hr; [rewrite (IHt Hr) | rewrite <- (IHh Hr)]; lia.
        -- split; [|reflexivity].
           intros Hr. inversion Hr as [Hc]. now apply classify_in_time in Hc.
      * assert (Hw : stillWaiting (answers (S attempts)) = true)
          by (unfold stillWaiting; now rewrite Hseen).
        rewrite Hw.
        change (pausesMade (Sleep 2500 :: ?l)) with (S (pausesMade l)).
        change (probesMade (Sleep 2500 :: ?l)) with (probesMade l).
        split; intros Hr; [rewrite (IHt Hr) | rewrite <- (IHh Hr)]; lia.
    + rewrite pausesMade_said, probesMade_said.
      split; [reflexivity | congruence].
Qed.

(** X15.  The poller pauses 2.5 s after every probe that leaves it
    waiting, and only then: a poll that ends on "timeout" has paused
    as often as it has probed, and a poll that ends on "vote" or
    "already" once less, returning right after the probe that showed
    the marker. *)
Theorem poller_pauses_after_waiting_probes :
  forall c answers timeoutMs,
    let calls := emitted (_waitForVoteStatus c answers timeoutMs) in
    let result := outcome (_waitForVoteStatus c answers timeoutMs) in
    (forall w, run (_waitForVoteStatus c answers timeoutMs) w
               = (tell calls w, result))
    /\ (result = Normal "timeout" -> pausesMade calls = probesMade calls)
    /\ (result = Normal "vote" \/ result = Normal "already" ->
        S (pausesMade calls) = probesMade calls).
Proof.
  intros c answers timeoutMs calls result. subst calls result.
  split; [intros w; apply run_waitForVoteStatus|].
  unfold _waitForVoteStatus.
  destruct (pauses_pollLoop c answers timeoutMs (pollFuel timeoutMs) 0 0%Z)
    as [Ht Hh].
  split; [exact Ht|]. intros [Hr|Hr]; apply Hh; rewrite Hr; discriminate.
Qed.

(** *** The order of the calls of a session *)

Lemma voteSession_navigates c s token url timeout :
  In (Goto url timeout) (emitted (voteSession c s token)) ->
  onNewDocument s = Normal tt.
Proof.
  unfold voteSession. read_session.
  destruct (onNewDocument s) as [[]|e]; [reflexivity|].
  read_session. absent.
Qed.

(** X16.  The token is installed before the browser goes anywhere: in
    every run of [_voteForBot], a navigation is requested only if the
    browser was connected and [evaluateOnNewDocument], which plants the
    token in [localStorage], was answered. *)
Theorem token_is_planted_before_navigation :
  forall c s token proxy url timeout w,
    In (Goto url timeout) (emitted (_voteForBot c s token proxy)) ->
    trace (fst (run (_voteForBot c s token proxy) w))
    = (trace w ++ emitted (_voteForBot c s token proxy))%list
    /\ connection s = Connected
    /\ onNewDocument s = Normal tt
    /\ exists before after,
         emitted (_voteForBot c s token proxy)
         = (before ++ EvaluateOnNewDocument token :: after)%list
         /\ forall u t, ~ In (Goto u t) before.
Proof.
  intros c s token proxy url timeout w Hin.
  split; [now rewrite run_voteForBot|].
  assert (Hpre : forall u t, ~ In (Goto u t) (connecting c token proxy)).
  { intros u t. unfold connecting, said.
    destruct (verbose c), (truthy proxy); cbn [app In];
      intuition discriminate. }
  destruct (connection s) as [|e|] eqn:Hc.
  - destruct (voteForBot_connected c s token proxy Hc) as [_ He].
    assert (Hplanted : onNewDocument s = Normal tt).
    { rewrite He, !in_app_iff in Hin.
      destruct Hin as [Hin|[[Hin|Hin]|Hin]].
      - exfalso. exact (Hpre _ _ Hin).
      - exact (@voteSession_navigates c s token url timeout Hin).
      - exfalso. revert Hin. unfold rethrown, said.
        destruct (outcome (voteSession c s token));
          destruct (verbose c); cbn [In]; intuition discriminate.
      - exfalso. revert Hin. unfold teardown, said.
        destruct (verbose c), (closed s); cbn [app In];
          intuition discriminate. }
    split; [reflexivity|]. split; [exact Hplanted|].
    rewrite He. unfold voteSession. rewrite Hplanted. read_session.
    exists (connecting c token proxy
            ++ said c ("Browser connected successfully for "
                       ++ shortToken token)
            ++ said c ("Setting up token in localStorage for "
                       ++ shortToken token ++ "..."))%list.
    eexists. split.
    + rewrite <- !app_assoc. reflexivity.
    + intros u t. rewrite !in_app_iff. intros [H|[H|H]].
      * exact (Hpre _ _ H).
      * unfold said in H. destruct (verbose c); cbn [In] in H;
          intuition discriminate.
      * unfold said in H. destruct (verbose c); cbn [In] in H;
          intuition discriminate.
  - exfalso.
    destruct (@voteForBot_lost c s token proxy e) as [_ He];
      [unfold raced; now rewrite Hc|].
    rewrite He, in_app_iff in Hin. destruct Hin as [Hin|Hin].
    + exact (Hpre _ _ Hin).
    + unfold said in Hin. destruct (verbose c); cbn [In] in Hin;
        intuition discriminate.
  - exfalso.
    destruct (@voteForBot_lost c s token proxy
                (mkError "Browser connection timeout")) as [_ He];
      [unfold raced; now rewrite Hc|].
    rewrite He, in_app_iff in Hin. destruct Hin as [Hin|Hin].
    + exact (Hpre _ _ Hin).
    + unfold said in Hin. destruct (verbose c); cbn [In] in Hin;
        intuition discriminate.
Qed.

(** *** A serial cycle that throws *)

Lemma tally_all vs :
  numberOf CSuccess vs + numberOf CFailed vs + numberOf CInvalid vs = length vs.
Proof.
  unfold numberOf. induction vs as [|v vs IH]; [reflexivity|].
  cbn [map list_sum length]. destruct v; simpl; lia.
Qed.

Lemma recorded_readings s :
  recorded s = reading CSuccess s + reading CFailed s + reading CInvalid s.
Proof. reflexivity. Qed.

Lemma length_verdicts c accounts rest :
  forall i, length (verdicts c accounts i rest) = length rest.
Proof.
  unfold verdicts. induction rest as [|tok rest IH]; intros i; simpl; auto.
Qed.

Lemma serial_abort c accounts rest :
  forall i w w' e,
    run (sequentialFrom c accounts i rest) w = (w', Abrupt e) ->
    exists k tok e0 hist,
      nth_error rest k = Some tok
      /\ complaint c (accounts (i + k)) tok (proxyFor c (i + k)) = Some e0
      /\ snd (escalate c 2 e0 hist) = Some e
      /\ forall x,
           reading x (stats w')
           = reading x (stats w)
             + numberOf x (verdicts c accounts i (firstn (S k) rest)).
Proof.
  induction rest as [|tok rest IH]; intros i w w' e Hrun;
    [discriminate|].
  cbn [sequentialFrom] in Hrun. unfold serialTurn, onSerialError in Hrun.
  rewrite !run_bind, run_log in Hrun.
  destruct (@caught_worker c (accounts i) tok (proxyFor c i)
              (fun err => ("Error processing token " ++ show (i + 1)
                           ++ ": " ++ message err)%string)
              (tell (said c ("Processing token " ++ show (i + 1) ++ "/"
                             ++ show (length (tokenList c)) ++ "...")) w))
    as [Hs Hc].
  destruct (run (try_catch _ _) _) as [w1 [[]|e1]]; cbn [fst snd] in *.
  - destruct (IH _ _ _ _ Hrun) as [k [tok' [e0 [hist [Hk [He0 [Hesc Hx]]]]]]].
    exists (S k), tok', e0, hist. rewrite Nat.add_succ_r.
    split; [exact Hk|]. split; [exact He0|]. split; [exact Hesc|].
    intros x. rewrite Hx, Hs. cbn [stats tell]. rewrite reading_bump.
    change (numberOf x (verdicts c accounts i (firstn (S (S k)) (tok :: rest))))
      with (hit x (verdict c (accounts i) tok (proxyFor c i))
            + numberOf x (verdicts c accounts (S i) (firstn (S k) rest))).
    lia.
  - inversion Hrun; subst; clear Hrun.
    destruct (complaint c (accounts i) tok (proxyFor c i)) as [e0|] eqn:He0;
      [|destruct Hc; discriminate].
    destruct Hc as [_ Hthrown].
    exists 0, tok, e0,
      (handled (tell (said c ("Processing token " ++ show (i + 1) ++ "/"
                              ++ show (length (tokenList c)) ++ "...")) w)).
    rewrite Nat.add_0_r. split; [reflexivity|]. split; [exact He0|]. split.
    + destruct (snd (escalate c 2 e0 _)) as [e2|]; [|discriminate].
      cbn [thrown] in Hthrown. congruence.
    + intros x. rewrite Hs. cbn [stats tell]. rewrite reading_bump.
      change (numberOf x (verdicts c accounts i (firstn 1 (tok :: rest))))
        with (hit x (verdict c (accounts i) tok (proxyFor c i)) + 0).
      lia.
Qed.

(** X17.  A serial cycle that throws stops at the account whose error
    got out: that account is the last one counted, the accounts after
    it are not processed in this cycle, and each counter has grown by
    the number of accounts with that verdict up to and including it.
    The error thrown is what the error policy let through when it was
    consulted by the worker and again by the [catch] of the cycle. *)
Theorem serial_cycle_stops_at_the_error :
  forall c accounts w w' e,
    run (_sequentialCycle c accounts) w = (w', Abrupt e) ->
    exists k tok e0 hist,
      nth_error (tokenList c) k = Some tok
      /\ complaint c (accounts k) tok (proxyFor c k) = Some e0
      /\ snd (escalate c 2 e0 hist) = Some e
      /\ (forall x,
            reading x (stats w')
            = reading x (stats w)
              + numberOf x (verdicts c accounts 0 (firstn (S k) (tokenList c))))
      /\ recorded (stats w') = S k + recorded (stats w).
Proof.
  intros c accounts w w' e Hrun. unfold _sequentialCycle in Hrun.
  destruct (@serial_abort c accounts (tokenList c) 0 w w' e Hrun)
    as [k [tok [e0 [hist [Hk [He0 [Hesc Hx]]]]]]].
  exists k, tok, e0, hist. cbn [Nat.add] in He0.
  split; [exact Hk|]. split; [exact He0|]. split; [exact Hesc|].
  split; [exact Hx|].
  rewrite !recorded_readings, !Hx.
  pose proof (tally_all (verdicts c accounts 0 (firstn (S k) (tokenList c))))
    as Hall.
  rewrite length_verdicts, length_firstn in Hall.
  assert (Hlt : k < length (tokenList c))
    by (apply nth_error_Some; rewrite Hk; discriminate).
  lia.
Qed.

(* ================================================================== *)
(** ** What a success means *)
(* ================================================================== *)

Lemma bump_inj x y s : bump x s = bump y s -> x = y.
Proof.
  destruct x, y; unfold bump; intros H; inversion H; try reflexivity; lia.
Qed.

Lemma act_returns_true c s token status :
  status = "vote" \/ status = "already" \/ status = "timeout" ->
  (outcome (act c s (shortToken token) status) = Normal true
   <-> status = "vote" /\ fulfilled (votePage s) = true).
Proof.
  intros [-> | [-> | ->]].
  - destruct (votePage s) as [d|e] eqn:Hd.
    + destruct (@act_vote c s token d Hd) as [Ho _]. rewrite Ho.
      simpl. tauto.
    + rewrite (@act_vote_fails c s token e Hd). simpl.
      split; [discriminate | intros [_ H]; discriminate].
  - rewrite act_already. split; [discriminate | intros [H _]; discriminate].
  - rewrite act_timeout. split; [discriminate | intros [H _]; discriminate].
Qed.

Lemma voteForBot_returns_true c s token proxy :
  outcome (_voteForBot c s token proxy) = Normal true
  <-> connection s = Connected
      /\ authenticates s = true
      /\ outcome (_waitForVoteStatus c (probes s) 60000) = Normal "vote"
      /\ fulfilled (votePage s) = true.
Proof.
  destruct (poll_total c (probes s) 60000 (pollFuel 60000) 0 0%Z)
    as [status [Hpoll Hstatus]].
  fold (_waitForVoteStatus c (probes s) 60000) in Hpoll.
  split.
  - intros Htrue.
    destruct (connection s) as [|e|] eqn:Hc.
    + destruct (authenticates s) eqn:Hauth.
      * destruct (@voteForBot_polled c s token proxy status Hc Hauth Hpoll)
          as [Ho _].
        rewrite Ho in Htrue.
        apply (act_returns_true c s token Hstatus) in Htrue.
        destruct Htrue as [-> Hpage]. auto.
      * destruct (voteForBot_connected c s token proxy Hc) as [Ho _].
        destruct (@voteSession_unauthenticated c s token Hauth) as [e He].
        congruence.
    + destruct (@voteForBot_lost c s token proxy e) as [Ho _];
        [unfold raced; now rewrite Hc | congruence].
    + destruct (@voteForBot_lost c s token proxy
                  (mkError "Browser connection timeout")) as [Ho _];
        [unfold raced; now rewrite Hc | congruence].
  - intros [Hc [Hauth [Hvote Hpage]]].
    destruct (@voteForBot_polled c s token proxy "vote" Hc Hauth Hvote)
      as [Ho _].
    rewrite Ho. apply act_returns_true; auto.
Qed.

(** X18.  No success is counted that was not earned.  A worker
    increments [success] exactly when the vote is cast: the check of
    the token answered ok, the browser was connected, the session got
    past the login, the poll ended on "vote" and the call that is to
    click was answered; it increments [invalid] exactly when the check
    did not answer ok; and [failed] in every other case. *)
Theorem success_is_counted_only_for_a_cast_vote :
  forall c a token proxy w,
    let after := stats (fst (run (_handleSingle c a token proxy) w)) in
    (after = bump CSuccess (stats w) <-> voteCast c a)
    /\ (after = bump CInvalid (stats w) <-> checked a <> Normal true)
    /\ (after = bump CFailed (stats w)
        <-> checked a = Normal true /\ ~ voteCast c a).
Proof.
  intros c a token proxy w after. subst after.
  destruct (run_handleSingle_verdict c a token proxy w) as [Hs _].
  rewrite Hs.
  assert (Hsucc : verdict c a token proxy = CSuccess <-> voteCast c a).
  { unfold verdict, voteCast.
    pose proof (voteForBot_returns_true c (session a) token proxy) as Hv.
    destruct (checked a) as [[|]|e].
    - destruct (outcome (_voteForBot c (session a) token proxy))
        as [[|]|err].
      + split; [intros _; split; [reflexivity | now apply Hv] | reflexivity].
      + split; [discriminate|]. intros [_ H]. apply Hv in H. discriminate.
      + split; [discriminate|]. intros [_ H]. apply Hv in H. discriminate.
    - split; [discriminate | intros [H _]; discriminate].
    - split; [discriminate | intros [H _]; discriminate]. }
  assert (Hinv : verdict c a token proxy = CInvalid
                 <-> checked a <> Normal true).
  { unfold verdict. destruct (checked a) as [[|]|e].
    - destruct (outcome (_voteForBot c (session a) token proxy))
        as [[|]|err]; split; try discriminate; intros H; now elim H.
    - split; [discriminate | reflexivity].
    - split; [discriminate | reflexivity]. }
  split; [|split].
  - rewrite <- Hsucc. split; [apply bump_inj | now intros ->].
  - rewrite <- Hinv. split; [apply bump_inj | now intros ->].
  - rewrite <- Hsucc. split.
    + intros H. apply bump_inj in H. rewrite H. split; [|discriminate].
      destruct (checked a) as [[|]|e] eqn:Hc; [reflexivity | |];
        exfalso; assert (Hne : checked a <> Normal true)
          by (rewrite Hc; discriminate);
        rewrite Hc in Hne; apply Hinv in Hne; congruence.
    + intros [Hok Hno].
      assert (Hni : verdict c a token proxy <> CInvalid)
        by (intros H; apply Hinv in H; contradiction).
      destruct (verdict c a token proxy); congruence.
Qed.

(* ================================================================== *)
(** ** The rotation of the proxies *)
(* ================================================================== *)

(** X19.  Proxies are dealt out in rotation.  With [m > 0] proxies the
    accounts at positions [i] and [i + m] get the same proxy; an
    account at a position below [m] gets the proxy at its own
    position; so with at least as many proxies as tokens, and no proxy
    listed twice, no two accounts share a proxy. *)
Theorem proxies_rotate :
  forall c i,
    proxyFor c (i + length (proxies c)) = proxyFor c i
    /\ (i < length (proxies c) -> proxyFor c i = nth_error (proxies c) i)
    /\ (NoDup (proxies c) ->
        forall j, i < j -> j < length (proxies c) ->
                  proxyFor c i <> proxyFor c j).
Proof.
  intros c i. unfold proxyFor, js_rem, js_index.
  destruct (length (proxies c)) as [|m] eqn:Hm.
  - split; [reflexivity|]. split; intros; lia.
  - split; [|split].
    + rewrite <- Hm.
      replace (i + length (proxies c))
        with (i + 1 * length (proxies c)) by lia.
      rewrite Nat.Div0.mod_add. reflexivity.
    + intros Hi. now rewrite Nat.mod_small.
    + intros Hnd j Hij Hj.
      rewrite (Nat.mod_small i), (Nat.mod_small j) by lia.
      intros Heq.
      assert (Hi : i < length (proxies c)) by lia.
      assert (Hj' : j < length (proxies c)) by lia.
      pose proof (proj1 (NoDup_nth_error (proxies c)) Hnd i j Hi Heq). lia.
Qed.

(* ================================================================== *)
(** ** Sample runs *)
(* ================================================================== *)

(** The serial loop of [sampleClient] stops in its first cycle, on the
    rejected second token. *)
Example serial_loop_stops :
  runInParallel sampleClient = false
  /\ errorLog sampleClient = None
  /\ someAccountFails sampleClient [sampleCycle]
  /\ exists w' e,
       autovoteBot hours sampleClient [sampleCycle] freshWorld
       = (w', Stopped e).
Proof.
  assert (Hfail : someAccountFails sampleClient [sampleCycle]).
  { exists sampleCycle, 1, "tokenBBBB2", (invalidToken "tokenBBBB2").
    split; [now left|]. split; reflexivity. }
  split; [reflexivity|]. split; [reflexivity|]. split; [exact Hfail|].
  destruct (proj1 (error_stops_serial_loop hours sampleClient [sampleCycle]
                     freshWorld) eq_refl eq_refl Hfail)
    as [w' [e [Hrun _]]].
  exists w', e. exact Hrun.
Defined.

(** C1, on the code.  With no [errorLog] configured and concurrent
    mode on, the second token of [sampleCycle] is rejected and its
    worker throws the invalid-token error; nothing is thrown out of
    [autovoteBot]: the cycle is completed, the counters are reset and
    the loop goes on, where the claim (and the serial mode) has the loop
    stopped by that error. *)
Theorem concurrent_loop_ignores_error :
  runInParallel concurrentClient = true
  /\ errorLog concurrentClient = None
  /\ someAccountFails concurrentClient [sampleCycle]
  /\ outcome (_handleSingle concurrentClient (accounts sampleCycle 1)
                "tokenBBBB2" (proxyFor concurrentClient 1))
     = Abrupt (invalidToken "tokenBBBB2")
  /\ snd (autovoteBot hours concurrentClient [sampleCycle] freshWorld)
     = Looping
  /\ snd (autovoteBot hours sampleClient [sampleCycle] freshWorld)
     = Stopped (invalidToken "tokenBBBB2").
Proof.
  split; [reflexivity|]. split; [reflexivity|]. split.
  - exists sampleCycle, 1, "tokenBBBB2", (invalidToken "tokenBBBB2").
    split; [now left|]. split; reflexivity.
  - split; [reflexivity|]. split; vm_compute; reflexivity.
Qed.


(** Witness of C3 (amended): the session of [brokenAccount] connects and
    fails at its first navigation; the account is counted as failed. *)
Lemma one_outcome_per_attempt_witness :
  checked brokenAccount = Normal true
  /\ outcome (_voteForBot sampleClient (session brokenAccount) "tokenAAAA1"
                None)
     = Abrupt (mkError "net::ERR_TIMED_OUT")
  /\ stats (fst (run (_handleSingle sampleClient brokenAccount "tokenAAAA1"
                        None) freshWorld))
     = bump CFailed (stats freshWorld).
Proof.
  split; [reflexivity|]. split; [reflexivity|].
  exact (proj1 (proj2 (one_outcome_per_attempt sampleClient brokenAccount
                         "tokenAAAA1" None freshWorld)
                  (mkError "net::ERR_TIMED_OUT") eq_refl eq_refl)).
Defined.

(** Counterexample to C3 as stated: with no [errorLog], the error of
    [brokenAccount] propagates out of its worker, and [failed] has been
    incremented. *)
Lemma failure_is_counted_when_it_propagates :
  ~ unrecordedOnPropagation sampleClient brokenAccount "tokenAAAA1" None
      freshWorld.
Proof.
  intros Hclaim.
  specialize (Hclaim eq_refl (mkError "net::ERR_TIMED_OUT")
                (tokenError "tokenAAAA1" (mkError "net::ERR_TIMED_OUT"))
                eq_refl eq_refl).
  vm_compute in Hclaim. discriminate.
Qed.

(** Witness of C5: a failed probe and a waiting probe, then the marker:
    the poller returns "vote"; and with no marker ever, 24 rounds use
    up the 60 s and the poller returns "timeout". *)
Lemma poller_classifies_witness :
  (forall j, j < 2 -> stillWaiting (sampleAnswers (S j)) = true)
  /\ seen (sampleAnswers 3) = Normal readyPage
  /\ (elapsedAfter sampleAnswers 2 < 60000)%Z
  /\ snd (run (_waitForVoteStatus sampleClient sampleAnswers 60000)
            freshWorld) = Normal "vote"
  /\ (60000 <= elapsedAfter idleAnswers 24)%Z
  /\ snd (run (_waitForVoteStatus sampleClient idleAnswers 60000) freshWorld)
     = Normal "timeout".
Proof.
  assert (Hwait : forall j, j < 2 -> stillWaiting (sampleAnswers (S j)) = true)
    by (intros [|[|j]] Hj; [reflexivity | reflexivity | lia]).
  assert (Hlt : (elapsedAfter sampleAnswers 2 < 60000)%Z) by reflexivity.
  assert (Hge : (60000 <= elapsedAfter idleAnswers 24)%Z)
    by (vm_compute; discriminate).
  split; [exact Hwait|]. split; [reflexivity|]. split; [exact Hlt|].
  split; [|split; [exact Hge|]].
  - destruct (poller_classifies sampleClient sampleAnswers 60000 freshWorld)
      as [_ [_ [Hfirst _]]].
    exact (proj1 (Hfirst 2 readyPage Hwait eq_refl Hlt) eq_refl).
  - destruct (poller_classifies sampleClient idleAnswers 60000 freshWorld)
      as [_ [_ [_ [Hout _]]]].
    exact (Hout 24 (fun j _ => eq_refl) Hge).
Defined.


(** Counterexample to C7 as stated: [close] fails at the end of
    [sampleSession], [verbose] is off, and nothing goes to the
    console. *)
Lemma close_failure_goes_unlogged :
  ~ closeFailureIsLogged sampleClient sampleSession "tokenAAAA1" None.
Proof.
  intros Hclaim.
  destruct (Hclaim eq_refl _ eq_refl) as [ev [Hcon Hin]].
  vm_compute in Hin.
  repeat (destruct Hin as [<- | Hin]; [discriminate Hcon|]).
  exact Hin.
Qed.

(** Witness of C7 (amended): [close] fails at the end of
    [sampleSession], and the routine still returns what its session
    returned. *)
Lemma teardown_always_runs_witness :
  connection sampleSession = Connected
  /\ closed sampleSession = Abrupt (mkError "Target closed")
  /\ snd (run (_voteForBot sampleClient sampleSession "tokenAAAA1" None)
            freshWorld) = Normal true.
Proof.
  split; [reflexivity|]. split; [reflexivity|].
  exact (proj1 (proj2 (proj2 (teardown_always_runs sampleClient sampleSession
                                "tokenAAAA1" None freshWorld eq_refl)))).
Defined.

(** Counterexample to C8 as stated: the poll of [stalledAccount] ends on
    "vote", the call that is to click fails, and the account is counted
    as failed. *)
Lemma can_act_and_action_fails :
  ~ canActMeansSuccess sampleClient stalledAccount "tokenAAAA1" None
      freshWorld.
Proof.
  intros Hclaim.
  specialize (Hclaim eq_refl eq_refl eq_refl eq_refl).
  vm_compute in Hclaim. discriminate.
Qed.

(** Counterexample to C10 as stated: on the same session the routine
    throws instead of returning [true]. *)
Lemma success_depends_on_the_click_call :
  ~ successIsUnconditional sampleClient stalledSession "tokenAAAA1" None.
Proof.
  intros Hclaim.
  specialize (Hclaim eq_refl eq_refl eq_refl).
  vm_compute in Hclaim. discriminate.
Qed.

(** Witness of C8 (amended): the poll of [sampleAccount] ends on "vote"
    and the account is counted as a success. *)
Lemma poll_result_decides_outcome_witness :
  checked sampleAccount = Normal true
  /\ connection (session sampleAccount) = Connected
  /\ authenticates (session sampleAccount) = true
  /\ outcome (_waitForVoteStatus sampleClient (probes (session sampleAccount))
                60000) = Normal "vote"
  /\ stats (fst (run (_handleSingle sampleClient sampleAccount "tokenAAAA1"
                        (Some "http://p1:8080")) freshWorld))
     = bump CSuccess (stats freshWorld).
Proof.
  split; [reflexivity|]. split; [reflexivity|]. split; [reflexivity|].
  split; [reflexivity|].
  exact (proj1 (proj2 (proj1 (poll_result_decides_outcome sampleClient
                                sampleAccount "tokenAAAA1"
                                (Some "http://p1:8080") freshWorld
                                eq_refl eq_refl eq_refl eq_refl)
                         eq_refl readyPage eq_refl))).
Defined.


(** Witness of C10 (amended): the only vote button of [buttonlessPage] is
    disabled; nothing is clicked and the account is counted as a
    success. *)
Lemma vote_click_is_best_effort_witness :
  find isVoteButton (buttons buttonlessPage) = None
  /\ clicked buttonlessPage = []
  /\ stats (fst (run (_handleSingle sampleClient buttonlessAccount
                        "tokenAAAA1" None) freshWorld))
     = bump CSuccess (stats freshWorld).
Proof.
  destruct (@vote_click_is_best_effort sampleClient buttonlessAccount
              "tokenAAAA1" None freshWorld buttonlessPage
              eq_refl eq_refl eq_refl eq_refl eq_refl)
    as [_ [_ [Hstats [_ [Hnone _]]]]].
  split; [reflexivity|]. split; [exact (Hnone eq_refl) | exact Hstats].
Defined.



(** Witness of X6: the connection of [unreachableAccount] times out;
    the account is counted as failed and nothing is closed. *)
Lemma lost_race_has_nothing_to_close_witness :
  checked unreachableAccount = Normal true
  /\ raced (session unreachableAccount)
     = Abrupt (mkError "Browser connection timeout")
  /\ stats (fst (run (_handleSingle sampleClient unreachableAccount
                        "tokenAAAA1" None) freshWorld))
     = bump CFailed (stats freshWorld)
  /\ snd (run (_handleSingle sampleClient unreachableAccount "tokenAAAA1"
                 None) freshWorld)
     = Abrupt (mkError
                 "Token token... error: Browser connection timeout").
Proof.
  split; [reflexivity|]. split; [reflexivity|].
  destruct (@lost_race_has_nothing_to_close sampleClient unreachableAccount
              "tokenAAAA1" None freshWorld
              (mkError "Browser connection timeout") eq_refl eq_refl)
    as [_ [_ [_ [_ [Hstats Hthrown]]]]].
  split; [exact Hstats | exact Hthrown].
Defined.

(** Witness of X7: the page after the login of [loggedOutAccount] still
    shows "Login". *)
Lemma unauthenticated_session_fails_witness :
  checked loggedOutAccount = Normal true
  /\ connection (session loggedOutAccount) = Connected
  /\ authenticates (session loggedOutAccount) = false
  /\ outcome (_voteForBot sampleClient (session loggedOutAccount)
                "tokenAAAA1" None)
     = Abrupt (mkError
                 "Authorization failed - Discord OAuth did not complete").
Proof.
  split; [reflexivity|]. split; [reflexivity|]. split; [reflexivity|].
  destruct (@unauthenticated_session_fails sampleClient loggedOutAccount
              "tokenAAAA1" None freshWorld eq_refl eq_refl)
    as [_ [Hlogin _]].
  exact (Hlogin loginPage eq_refl eq_refl eq_refl).
Defined.

(** Witness of X8: with no marker ever, the 60 s are used up by 24
    probes. *)
Lemma poller_probe_budget_witness :
  probesMade (emitted (_waitForVoteStatus sampleClient idleAnswers 60000))
  = 24
  /\ probesMade (emitted (_waitForVoteStatus sampleClient idleAnswers 60000))
     <= 24.
Proof.
  split; [vm_compute; reflexivity|].
  destruct (poller_probe_budget sampleClient idleAnswers 60000 freshWorld)
    as [_ [_ [_ [_ Hbound]]]].
  exact (Hbound eq_refl).
Defined.

(** Witness of X9: a round of [tolerantClient]. *)
Lemma cycle_ends_reset_and_paused_witness :
  snd (iteration hours tolerantClient sampleCycle freshWorld) = Normal tt
  /\ stats (fst (iteration hours tolerantClient sampleCycle freshWorld))
     = mkStats 2 0 0 0.
Proof.
  assert (Hit : iteration hours tolerantClient sampleCycle freshWorld
                = (fst (iteration hours tolerantClient sampleCycle freshWorld),
                   Normal tt)) by (vm_compute; reflexivity).
  split; [vm_compute; reflexivity|].
  exact (proj1 (@cycle_ends_reset_and_paused hours tolerantClient sampleCycle
                  freshWorld _ Hit)).
Defined.

(** Witness of X10: [noting] never throws, and the loop of
    [tolerantClient] goes on past the rejected token. *)
Lemma tolerant_errorLog_keeps_the_loop_going_witness :
  tolerant tolerantClient
  /\ snd (autovoteBot hours tolerantClient [sampleCycle; sampleCycle]
            freshWorld) = Looping.
Proof.
  assert (Ht : tolerant tolerantClient)
    by (exists noting; split; [reflexivity | intros; reflexivity]).
  split; [exact Ht|].
  exact (proj2 (proj2 (@tolerant_errorLog_keeps_the_loop_going hours
                         tolerantClient Ht)) _ _).
Defined.

(** Witness of X11: the shorthand on [tolerantOptions]. *)
Lemma shorthand_runs_the_loop_witness :
  AutoClient tolerantOptions = Normal (tolerantClient, mkStats 2 0 0 0)
  /\ snd (Shorthand.autovoteBot hours tolerantOptions [sampleCycle])
     = Looping.
Proof.
  assert (Hnew : AutoClient tolerantOptions
                 = Normal (tolerantClient, mkStats 2 0 0 0)) by reflexivity.
  split; [exact Hnew|].
  destruct (shorthand_runs_the_loop hours tolerantOptions [sampleCycle])
    as [_ [_ Hloop]].
  apply (proj2 (Hloop _ _ Hnew)).
  left. exists noting. split; [reflexivity | intros; reflexivity].
Defined.



(** Witness of X14: the concurrent cycle of [concurrentClient] counts
    one success and one invalid token. *)
Lemma counters_count_accounts_by_verdict_witness :
  snd (dispatch concurrentClient sampleCycle freshWorld) = Normal tt
  /\ reading CSuccess
       (stats (fst (dispatch concurrentClient sampleCycle freshWorld))) = 1
  /\ reading CInvalid
       (stats (fst (dispatch concurrentClient sampleCycle freshWorld))) = 1.
Proof.
  assert (Hd : snd (dispatch concurrentClient sampleCycle freshWorld)
               = Normal tt) by (vm_compute; reflexivity).
  split; [exact Hd|]. split.
  - exact (@counters_count_accounts_by_verdict concurrentClient sampleCycle
             freshWorld CSuccess Hd).
  - exact (@counters_count_accounts_by_verdict concurrentClient sampleCycle
             freshWorld CInvalid Hd).
Defined.

(** Witness of X15: the poll of [sampleAnswers] ends on "vote" at the
    third probe, after two pauses. *)
Lemma poller_pauses_after_waiting_probes_witness :
  outcome (_waitForVoteStatus sampleClient sampleAnswers 60000)
  = Normal "vote"
  /\ S (pausesMade (emitted (_waitForVoteStatus sampleClient sampleAnswers
                               60000)))
     = probesMade (emitted (_waitForVoteStatus sampleClient sampleAnswers
                              60000)).
Proof.
  assert (Hv : outcome (_waitForVoteStatus sampleClient sampleAnswers 60000)
               = Normal "vote") by reflexivity.
  split; [exact Hv|].
  destruct (poller_pauses_after_waiting_probes sampleClient sampleAnswers
              60000) as [_ [_ Hhit]].
  exact (Hhit (or_introl Hv)).
Defined.

(** Witness of X16: [sampleSession] navigates to the home page. *)
Lemma token_is_planted_before_navigation_witness :
  In (Goto "https://top.gg" (Some 30000%N))
    (emitted (_voteForBot sampleClient sampleSession "tokenAAAA1" None))
  /\ onNewDocument sampleSession = Normal tt.
Proof.
  assert (Hin : In (Goto "https://top.gg" (Some 30000%N))
                  (emitted (_voteForBot sampleClient sampleSession
                              "tokenAAAA1" None)))
    by (vm_compute; tauto).
  split; [exact Hin|].
  exact (proj1 (proj2 (proj2 (@token_is_planted_before_navigation sampleClient
                                sampleSession "tokenAAAA1" None _ _
                                freshWorld Hin)))).
Defined.

(** Witness of X17: the serial cycle of [sampleClient] throws at its
    second token, with both accounts counted. *)
Lemma serial_cycle_stops_at_the_error_witness :
  snd (run (_sequentialCycle sampleClient (accounts sampleCycle)) freshWorld)
  = Abrupt (invalidToken "tokenBBBB2")
  /\ exists k,
       recorded (stats (fst (run (_sequentialCycle sampleClient
                                    (accounts sampleCycle)) freshWorld)))
       = S k + recorded (stats freshWorld).
Proof.
  assert (Hrun : run (_sequentialCycle sampleClient (accounts sampleCycle))
                   freshWorld
                 = (fst (run (_sequentialCycle sampleClient
                                (accounts sampleCycle)) freshWorld),
                    Abrupt (invalidToken "tokenBBBB2")))
    by (vm_compute; reflexivity).
  split; [vm_compute; reflexivity|].
  destruct (@serial_cycle_stops_at_the_error sampleClient
              (accounts sampleCycle) freshWorld _ _ Hrun)
    as [k [_ [_ [_ [_ [_ [_ [_ Hrec]]]]]]]].
  exists k. exact Hrec.
Defined.

(** Witness of X18: [sampleAccount] casts its vote, [rejectedAccount]
    is invalid. *)
Lemma success_is_counted_only_for_a_cast_vote_witness :
  voteCast sampleClient sampleAccount
  /\ stats (fst (run (_handleSingle sampleClient sampleAccount "tokenAAAA1"
                        None) freshWorld))
     = bump CSuccess (stats freshWorld).
Proof.
  assert (Hcast : voteCast sampleClient sampleAccount)
    by (repeat split; reflexivity).
  split; [exact Hcast|].
  exact (proj2 (proj1 (success_is_counted_only_for_a_cast_vote sampleClient
                         sampleAccount "tokenAAAA1" None freshWorld))
           Hcast).
Defined.

(** Witness of X19: the three proxies of [sampleClient] are distinct,
    and its two accounts get the first two. *)
Lemma proxies_rotate_witness :
  NoDup (proxies sampleClient)
  /\ proxyFor sampleClient 0 <> proxyFor sampleClient 1
  /\ proxyFor sampleClient 3 = proxyFor sampleClient 0.
Proof.
  assert (Hnd : NoDup (proxies sampleClient)).
  { repeat constructor; simpl; intuition discriminate. }
  split; [exact Hnd|].
  destruct (proxies_rotate sampleClient 0) as [Hwrap [_ Hdiff]].
  split; [apply (Hdiff Hnd 1); simpl; lia | exact Hwrap].
Defined.
